(** * floq: the Floquet eigensystem and its evaluators

    A shallow embedding of [floq/core/evolution.py] and statements about it.

    Conventions of the embedding.

    - Python integers are [Z].  Indexing and slicing follow Python: a negative
      index counts from the end, an index outside the array raises
      [IndexError], slice bounds are clipped.
    - An exception is a value of [exn]; a computation is a [result]: it
      returns, raises, or (for [while] loops, which are run with a counter of
      remaining iterations) exhausts that counter.  Each loop comes with a
      lemma that the counter it is given is never exhausted.
    - A floating-point number that the code orders or tests for equality
      (eigenvalues after rounding, the zone edge, the frequency) is the
      rational number it denotes, in [Q]; [==] on floats is [Qeq].  NaN and
      infinities are left out: a division of arrays that would produce one
      ends the computation (see [array_div]).
    - A number that only flows through arithmetic and [exp] (eigenvector
      entries, phases, the evolution operator) is a complex number over the
      real numbers, [C]; rounding errors are left out, so a statement
      about such values is the closed form in exact arithmetic.
    - An n-dimensional array is a nested list, outermost axis first.  An
      array without rows has the width 0 here, whatever its shape in numpy:
      the statements about widths take arrays of at least one row. *)

From Stdlib Require Import ZArith QArith Qround Qabs List Bool Lia.
From Stdlib Require Import Sorted Permutation.
From Stdlib Require Import Reals Lra.
Import ListNotations.

Set Implicit Arguments.

#[local] Open Scope Z_scope.

(** ** Python values: exceptions, results, indices, slices *)

Module Py.

Inductive exn : Type :=
| IndexError
| ValueError
| RuntimeError
| AttributeError
| ZeroDivisionError
| SolverError
(** not an exception of Python: an infinity or NaN came out of a division
    of arrays, where numpy raises nothing; the numbers of the model have no
    such values, and the computation ends there *)
| NotFinite.

Inductive result (A : Type) : Type :=
| Ret (a : A)
| Exc (e : exn)
| OutOfFuel.

Arguments Ret {A} a.
Arguments Exc {A} e.
Arguments OutOfFuel {A}.

Definition bind {A B : Type} (m : result A) (k : A -> result B) : result B :=
  match m with
  | Ret a => k a
  | Exc e => Exc e
  | OutOfFuel => OutOfFuel
  end.

Definition returns {A : Type} (m : result A) : Prop := exists a, m = Ret a.

Definition len {A : Type} (l : list A) : Z := Z.of_nat (length l).

(** [a[i]] *)
Definition getitem {A : Type} (a : list A) (i : Z) : result A :=
  let j := if i <? 0 then i + len a else i in
  if (j <? 0) || (len a <=? j) then Exc IndexError
  else match nth_error a (Z.to_nat j) with
       | Some x => Ret x
       | None => Exc IndexError
       end.

(** A slice bound [b] of an array of length [n], as Python resolves it. *)
Definition clip (n : Z) (b : Z) : Z :=
  if b <? 0 then Z.max 0 (b + n) else Z.min b n.

Definition lo_bound (n : Z) (b : option Z) : Z :=
  match b with Some b => clip n b | None => 0 end.

Definition hi_bound (n : Z) (b : option Z) : Z :=
  match b with Some b => clip n b | None => n end.

(** [a[lo:hi]], either bound possibly omitted *)
Definition slice {A : Type} (a : list A) (lo hi : option Z) : list A :=
  let l := lo_bound (len a) lo in
  let h := hi_bound (len a) hi in
  firstn (Z.to_nat (h - l)) (skipn (Z.to_nat l) a).

(** [a[lo:hi] = v] along the first axis, for rows of one shape.  The value
    must have as many rows as the slice, or one row, which is then repeated.
    For an array with two axes, [setslice2] checks the widths first. *)
Definition setslice {A : Type} (a : list A) (lo hi : option Z) (v : list A)
  : result (list A) :=
  let l := lo_bound (len a) lo in
  let h := hi_bound (len a) hi in
  let n := Z.to_nat (h - l) in
  let put w := firstn (Z.to_nat l) a ++ w ++ skipn (Z.to_nat l + n) a in
  if Nat.eqb (length v) n then Ret (put v)
  else match v with
       | [x] => Ret (put (repeat x n))
       | _ => Exc ValueError
       end.

(** [range(lo, hi)] *)
Definition range (lo hi : Z) : list Z :=
  map (fun k => lo + Z.of_nat k) (seq 0 (Z.to_nat (hi - lo))).

(** [[f(x) for x in l]] with a body that may raise *)
Fixpoint mapM {A B : Type} (f : A -> result B) (l : list A) : result (list B) :=
  match l with
  | [] => Ret []
  | x :: l' =>
      bind (f x) (fun y => bind (mapM f l') (fun ys => Ret (y :: ys)))
  end.

(** [for x in l: acc = body(acc, x)] with a body that may raise *)
Fixpoint foldM {A S : Type} (body : S -> A -> result S) (l : list A) (acc : S)
  : result S :=
  match l with
  | [] => Ret acc
  | x :: l' => bind (body acc x) (foldM body l')
  end.

(** [a[order]] with an integer index array *)
Definition take {A : Type} (a : list A) (order : list Z) : result (list A) :=
  mapM (getitem a) order.

End Py.

Import Py.

Notation "x <- m ;; k" := (bind m (fun x => k))
  (at level 61, m at next level, right associativity).
Notation "' p <- m ;; k" := (bind m (fun p => k))
  (at level 61, p pattern, m at next level, right associativity).

(** ** numpy routines the module calls *)

Module Np.

(** Stable insertion of a (key, index) pair before the first pair whose key
    is not smaller. *)
Fixpoint insert_key (x : Q * Z) (l : list (Q * Z)) : list (Q * Z) :=
  match l with
  | [] => [x]
  | y :: l' =>
      if Qle_bool (fst x) (fst y) then x :: l else y :: insert_key x l'
  end.

Definition sort_keys (l : list (Q * Z)) : list (Q * Z) :=
  fold_right insert_key [] l.

(** [a.argsort()]: the indices that sort [a], equal keys in their original
    order. *)
Definition argsort (a : list Q) : list Z :=
  map snd (sort_keys (combine a (range 0 (len a)))).

(** [np.searchsorted(a, v, side='left')] on a sorted array: the first index
    whose entry is not below [v]. *)
Fixpoint searchsorted_left (a : list Q) (v : Q) : Z :=
  match a with
  | [] => 0
  | x :: a' => if Qle_bool v x then 0 else 1 + searchsorted_left a' v
  end.

(** [np.searchsorted(a, v, side='right')] on a sorted array: the first index
    whose entry is above [v]. *)
Fixpoint searchsorted_right (a : list Q) (v : Q) : Z :=
  match a with
  | [] => 0
  | x :: a' => if Qle_bool x v then 1 + searchsorted_right a' v else 0
  end.

(** [a[mask]] with a boolean mask *)
Fixpoint select {A : Type} (mask : list bool) (a : list A) : list A :=
  match mask, a with
  | b :: mask', x :: a' => if b then x :: select mask' a' else select mask' a'
  | _, _ => []
  end.

(** [mask[:1] = True; mask[1:] = aux[1:] != aux[:-1]] *)
Fixpoint change_mask (prev : option Q) (aux : list Q) : list bool :=
  match aux with
  | [] => []
  | x :: aux' =>
      match prev with
      | None => true
      | Some p => negb (Qeq_bool x p)
      end :: change_mask (Some x) aux'
  end.

(** [np.unique(ar, return_index=True)]: the distinct values in ascending
    order and, for each, the index of its first occurrence in [ar]. *)
Definition unique_index (ar : list Q) : result (list Q * list Z) :=
  let perm := argsort ar in
  aux <- take ar perm ;;
  let mask := change_mask None aux in
  Ret (select mask aux, select mask perm).

(** [np.split(ary, points)]: the pieces [ary[0:p0], ary[p0:p1], ..., ary[pk:]] *)
Fixpoint split_from {A : Type} (ary : list A) (st : Z) (points : list Z)
  : list (list A) :=
  match points with
  | [] => [slice ary (Some st) (Some (len ary))]
  | p :: points' => slice ary (Some st) (Some p) :: split_from ary p points'
  end.

Definition split {A : Type} (ary : list A) (points : list Z) : list (list A) :=
  split_from ary 0 points.

(** [np.arange(n)] for an integer [n] *)
Definition arange (n : Z) : list Z := range 0 n.

End Np.

(** ** Degenerate eigenvalues *)

(** [find_duplicates(array)] *)
Definition find_duplicates (array : list Q) : result (list (list Z)) :=
  let indices := Np.arange (len array) in
  '(_, start_indices) <- Np.unique_index array ;;
  Ret (filter (fun x => 1 <? len x)
         (Np.split indices (slice start_indices (Some 1) None))).

(** ** The first Brillouin zone *)

(** The loop [while eigenvalues[lower + n_lower_edge] == -edge:
    n_lower_edge += 1].  The first component lists the indices read, in the
    order they are read. *)
Fixpoint lower_edge_loop (fuel : nat) (eigenvalues : list Q) (edge : Q)
    (lower n_lower_edge : Z) : list Z * result Z :=
  match fuel with
  | O => ([], OutOfFuel)
  | S fuel' =>
      let i := lower + n_lower_edge in
      match getitem eigenvalues i with
      | Ret x =>
          if Qeq_bool x (- edge) then
            let '(reads, r) :=
              lower_edge_loop fuel' eigenvalues edge lower (n_lower_edge + 1) in
            (i :: reads, r)
          else ([i], Ret n_lower_edge)
      | Exc e => ([i], Exc e)
      | OutOfFuel => ([i], OutOfFuel)
      end
  end.

(** The loop [while eigenvalues[upper - n_upper_edge - 1] == edge:
    n_upper_edge += 1]. *)
Fixpoint upper_edge_loop (fuel : nat) (eigenvalues : list Q) (edge : Q)
    (upper n_upper_edge : Z) : list Z * result Z :=
  match fuel with
  | O => ([], OutOfFuel)
  | S fuel' =>
      let i := upper - n_upper_edge - 1 in
      match getitem eigenvalues i with
      | Ret x =>
          if Qeq_bool x edge then
            let '(reads, r) :=
              upper_edge_loop fuel' eigenvalues edge upper (n_upper_edge + 1) in
            (i :: reads, r)
          else ([i], Ret n_upper_edge)
      | Exc e => ([i], Exc e)
      | OutOfFuel => ([i], OutOfFuel)
      end
  end.

(** Iterations granted to either loop: an index moves by one per iteration
    and can take at most [2 * len] values before it leaves the array. *)
Definition edge_fuel (eigenvalues : list Q) : nat :=
  2 * length eigenvalues + 2.

(** The indices that the two loops of [first_brillouin_zone] read, given the
    array as sorted by the function. *)
Definition edge_reads (sorted_eigenvalues : list Q) (edge : Q) : list Z :=
  let lower := Np.searchsorted_left sorted_eigenvalues (- edge) in
  let upper := Np.searchsorted_right sorted_eigenvalues edge in
  let fuel := edge_fuel sorted_eigenvalues in
  fst (lower_edge_loop fuel sorted_eigenvalues edge lower 0)
  ++ fst (upper_edge_loop fuel sorted_eigenvalues edge upper 0).

(** [first_brillouin_zone(eigenvalues, eigenvectors, n_values, edge)] *)
Definition first_brillouin_zone {V : Type} (eigenvalues : list Q)
    (eigenvectors : list V) (n_values : Z) (edge : Q)
  : result (list Q * list V) :=
  let order := Np.argsort eigenvalues in
  eigenvalues <- take eigenvalues order ;;
  eigenvectors <- take eigenvectors order ;;
  let lower := Np.searchsorted_left eigenvalues (- edge) in
  let upper := Np.searchsorted_right eigenvalues edge in
  let fuel := edge_fuel eigenvalues in
  n_lower_edge <- snd (lower_edge_loop fuel eigenvalues edge lower 0) ;;
  n_upper_edge <- snd (upper_edge_loop fuel eigenvalues edge upper 0) ;;
  let n_not_on_edge := (upper - n_upper_edge) - (lower + n_lower_edge) in
  '(lower, upper) <-
    (if n_not_on_edge =? n_values then
       Ret (lower + n_lower_edge, upper - n_upper_edge)
     else if n_not_on_edge + n_lower_edge =? n_values then
       Ret (lower, upper - n_upper_edge)
     else if n_not_on_edge + n_upper_edge =? n_values then
       Ret (lower + n_lower_edge, upper)
     else Exc RuntimeError) ;;
  Ret (slice eigenvalues (Some lower) (Some upper),
       slice eigenvectors (Some lower) (Some upper)).

(** ** Scalars *)

(** What the matrix assembler asks of the entries of its matrices. *)
Class Scalar (K : Type) : Type := {
  zero : K;
  one : K;
  add : K -> K -> K;
  mul : K -> K -> K;
  of_int : Z -> K
}.

(** Integer entries, on which the assembler can be run. *)
#[export] Instance Z_scalar : Scalar Z := {
  zero := 0;
  one := 1;
  add := Z.add;
  mul := Z.mul;
  of_int := fun n => n
}.

(** Complex numbers, for [complex128]. *)
Definition C : Type := (R * R)%type.

Definition RtoC (x : R) : C := (x, 0%R).
Definition QtoC (q : Q) : C := RtoC (Q2R q).
Definition ZtoC (n : Z) : C := RtoC (IZR n).
Definition C0 : C := RtoC 0.
Definition C1 : C := RtoC 1.
(** [1j] *)
Definition Ci : C := (0%R, 1%R).
Definition Cplus (x y : C) : C := (fst x + fst y, snd x + snd y)%R.
Definition Copp (x : C) : C := (- fst x, - snd x)%R.
Definition Cminus (x y : C) : C := Cplus x (Copp y).
Definition Cmult (x y : C) : C :=
  (fst x * fst y - snd x * snd y, fst x * snd y + snd x * fst y)%R.
Definition Cinv (x : C) : C :=
  (fst x / (fst x * fst x + snd x * snd x),
   - snd x / (fst x * fst x + snd x * snd x))%R.
(** The quotient of [x] by [y] for [y] other than zero.  The code is
    modelled with [scalar_div] and [array_div], which test the divisor
    first. *)
Definition Cdiv (x y : C) : C := Cmult x (Cinv y).
Definition Cconj (x : C) : C := (fst x, - snd x)%R.
Definition Cexp (x : C) : C :=
  (exp (fst x) * cos (snd x), exp (fst x) * sin (snd x))%R.

#[export] Instance C_scalar : Scalar C := {
  zero := C0;
  one := C1;
  add := Cplus;
  mul := Cmult;
  of_int := ZtoC
}.

(** ** Arrays *)

Definition shape0 {A : Type} (t : list A) : Z := len t.
Definition shape1 {A : Type} (t : list (list A)) : Z := len (hd [] t).
Definition shape2 {A : Type} (t : list (list (list A))) : Z :=
  len (hd [] (hd [] t)).

(** [np.zeros((rows, cols))]; a negative dimension is refused. *)
Definition zeros2 {K : Type} `{Scalar K} (rows cols : Z) : result (list (list K)) :=
  if (rows <? 0) || (cols <? 0) then Exc ValueError
  else Ret (repeat (repeat zero (Z.to_nat cols)) (Z.to_nat rows)).

(** [np.eye(dim)] *)
Definition eye {K : Type} `{Scalar K} (dim : Z) : list (list K) :=
  map (fun r => map (fun c => if r =? c then one else zero) (range 0 dim))
      (range 0 dim).

Fixpoint zip_with {A B D : Type} (f : A -> B -> D) (l : list A) (m : list B)
  : list D :=
  match l, m with
  | x :: l', y :: m' => f x y :: zip_with f l' m'
  | _, _ => []
  end.

(** [x / y] of a complex scalar and a float in a function compiled with
    [numba.jit(nopython=True)], whose error model is that of Python: a zero
    divisor raises [ZeroDivisionError]. *)
Definition scalar_div (x : C) (y : Q) : result C :=
  if Qeq_bool y 0 then Exc ZeroDivisionError else Ret (Cdiv x (QtoC y)).

(** [numer / denom] of a complex array and an array of floats.  Where a
    divisor is zero numpy, and numba with it, puts an infinity or NaN into
    the quotient and raises nothing; the model ends the computation there
    with [NotFinite]. *)
Definition array_div (numer : list C) (denom : list Q) : result (list C) :=
  if existsb (fun y => Qeq_bool y 0) denom then Exc NotFinite
  else Ret (zip_with (fun x y => Cdiv x (QtoC y)) numer denom).

(** Entrywise sum of two arrays of one shape. *)
Definition madd {K : Type} `{Scalar K} (a b : list (list K)) : list (list K) :=
  zip_with (zip_with add) a b.

(** An array times a scalar. *)
Definition mscale {K : Type} `{Scalar K} (a : list (list K)) (x : K)
  : list (list K) :=
  map (map (fun y => mul y x)) a.

(** The list with [f i x] in the place of each [x], [i] its position. *)
Definition mapi {A B : Type} (f : Z -> A -> B) (l : list A) : list B :=
  zip_with f (range 0 (len l)) l.

(** ** Helpers of [floq.linalg] *)

(** Modelled from the spec: [linalg.n_to_i] is not among the sources.  The
    Hamiltonian tensor is "indexed from -max_harmonic to +max_harmonic", so
    harmonic [n] of [nc] components is at position [n + (nc - 1) // 2]. *)
Definition n_to_i (n nc : Z) : Z := n + (nc - 1) / 2.

(** Modelled from the spec: [linalg.i_to_n] is not among the sources.  It is
    the spec's [harmonic_offset], which "maps block row index to a signed
    Brillouin-zone offset centered at zero": [row - 2] for five zones.  For
    an even number of zones no offsets are centred at zero and the spec does
    not say which are meant; the statements about the offsets take an odd
    number of zones. *)
Definition i_to_n (i nz : Z) : Z := i - (nz - 1) / 2.

(** Modelled from the spec: [linalg.set_block] is not among the sources.  It
    "places" a [dim_block] by [dim_block] block at block position
    [(row, col)] of [matrix], leaving every other entry as it is. *)
Definition set_block {K : Type} (block matrix : list (list K))
    (dim_block n_block row col : Z) : list (list K) :=
  mapi (fun r line =>
    mapi (fun c old =>
      if (row * dim_block <=? r) && (r <? (row + 1) * dim_block)
         && (col * dim_block <=? c) && (c <? (col + 1) * dim_block)
      then nth (Z.to_nat (c - col * dim_block))
               (nth (Z.to_nat (r - row * dim_block)) block []) old
      else old) line) matrix.

(** ** The matrix assembler *)

Section Assembler.

Context {K : Type} `{Scalar K}.

(** The loop [while row <= stop_row and col <= stop_col] of [assemble_k],
    for harmonic [n] with component [current]. *)
Fixpoint place_blocks (fuel : nat) (current : list (list K)) (n dim nz : Z)
    (omega : K) (stop_row stop_col row col : Z) (k : list (list K))
  : result (list (list K)) :=
  match fuel with
  | O => OutOfFuel
  | S fuel' =>
      if (row <=? stop_row) && (col <=? stop_col) then
        let k' :=
          if n =? 0 then
            let block :=
              madd current
                (mscale (mscale (eye dim) omega) (of_int (i_to_n row nz))) in
            set_block block k dim nz row col
          else set_block current k dim nz row col in
        place_blocks fuel' current n dim nz omega stop_row stop_col
          (row + 1) (col + 1) k'
      else Ret k
  end.

(** [assemble_k(hf, nz, omega)] *)
Definition assemble_k (hf : list (list (list K))) (nz : Z) (omega : K)
  : result (list (list K)) :=
  let nc := shape0 hf in
  let dim := shape1 hf in
  let k_dim := dim * nz in
  let hf_max := (nc - 1) / 2 in
  k <- zeros2 k_dim k_dim ;;
  foldM (fun k n =>
      current <- getitem hf (n_to_i n nc) ;;
      let row := Z.max 0 n in
      let col := Z.max 0 (- n) in
      let stop_row := Z.min (nz - 1 + n) (nz - 1) in
      let stop_col := Z.min (nz - 1 - n) (nz - 1) in
      place_blocks (S (Z.to_nat nz)) current n dim nz omega
        stop_row stop_col row col k)
    (range (- hf_max) (hf_max + 1)) k.

(** [assemble_dk(dhf, nz)] *)
Definition assemble_dk (dhf : list (list (list (list K)))) (nz : Z)
  : result (list (list (list K))) :=
  mapM (fun dhf_c => assemble_k dhf_c nz zero) dhf.

(** Block [(row, col)] of a matrix made of [dim] by [dim] blocks. *)
Definition get_block (k : list (list K)) (dim row col : Z) : list (list K) :=
  map (fun line => slice line (Some (col * dim)) (Some ((col + 1) * dim)))
      (slice k (Some (row * dim)) (Some ((row + 1) * dim))).

End Assembler.

(** ** More of Python and numpy *)

Module Array.

(** The list with [v] at position [n]. *)
Fixpoint upd {A : Type} (l : list A) (n : nat) (v : A) : list A :=
  match l, n with
  | [], _ => []
  | _ :: l', O => v :: l'
  | x :: l', S n' => x :: upd l' n' v
  end.

(** [a[i] = v] *)
Definition setitem {A : Type} (a : list A) (i : Z) (v : A) : result (list A) :=
  let j := if i <? 0 then i + len a else i in
  if (j <? 0) || (len a <=? j) then Exc IndexError
  else Ret (upd a (Z.to_nat j) v).

(** [a[idxs] = v] with an integer index array: row [k] of [v] goes to
    [a[idxs[k]]]; a single row goes to each of them. *)
Definition setitems {A : Type} (a : list A) (idxs : list Z) (v : list A)
  : result (list A) :=
  if Nat.eqb (length v) (length idxs) then
    foldM (fun a ix => setitem a (fst ix) (snd ix)) (combine idxs v) a
  else match v with
       | [x] => foldM (fun a i => setitem a i x) idxs a
       | _ => Exc ValueError
       end.

(** [out[n, i, j] = v] *)
Definition setitem3 {A : Type} (out : list (list (list A))) (n i j : Z) (v : A)
  : result (list (list (list A))) :=
  plane <- getitem out n ;;
  line <- getitem plane i ;;
  line' <- setitem line j v ;;
  plane' <- setitem plane i line' ;;
  setitem out n plane'.

(** [out[n, i] = row] *)
Definition setrow3 {A : Type} (out : list (list (list A))) (n i : Z)
    (row : list A) : result (list (list (list A))) :=
  plane <- getitem out n ;;
  line <- getitem plane i ;;
  line' <- setslice line None None row ;;
  plane' <- setitem plane i line' ;;
  setitem out n plane'.

(** [out[n, i, j, p] = v] *)
Definition setitem4 {A : Type} (out : list (list (list (list A))))
    (n i j p : Z) (v : A) : result (list (list (list (list A)))) :=
  cube <- getitem out n ;;
  cube' <- setitem3 cube i j p v ;;
  setitem out n cube'.

(** [np.empty] and [np.zeros] with three axes, filled with [x]. *)
Definition full3 {A : Type} (x : A) (d0 d1 d2 : Z)
  : result (list (list (list A))) :=
  if (d0 <? 0) || (d1 <? 0) || (d2 <? 0) then Exc ValueError
  else Ret (repeat (repeat (repeat x (Z.to_nat d2)) (Z.to_nat d1))
                   (Z.to_nat d0)).

Definition full4 {A : Type} (x : A) (d0 d1 d2 d3 : Z)
  : result (list (list (list (list A)))) :=
  if d0 <? 0 then Exc ValueError
  else inner <- full3 x d1 d2 d3 ;; Ret (repeat inner (Z.to_nat d0)).

Fixpoint zip_cons {A : Type} (r : list A) (t : list (list A)) : list (list A) :=
  match r, t with
  | x :: r', c :: t' => (x :: c) :: zip_cons r' t'
  | _, _ => []
  end.

(** [np.transpose] of a matrix *)
Fixpoint transpose {A : Type} (m : list (list A)) : list (list A) :=
  match m with
  | [] => []
  | r :: m' =>
      match m' with
      | [] => map (fun x => [x]) r
      | _ => zip_cons r (transpose m')
      end
  end.

(** [count] consecutive pieces of [n] elements each *)
Fixpoint chunks {A : Type} (n count : nat) (l : list A) : list (list A) :=
  match count with
  | O => []
  | S count' => firstn n l :: chunks n count' (skipn n l)
  end.

(** [m.reshape(d0, d1, d2)] of a matrix *)
Definition reshape3 {A : Type} (m : list (list A)) (d0 d1 d2 : Z)
  : result (list (list (list A))) :=
  let flat := concat m in
  if (d0 <? 0) || (d1 <? 0) || (d2 <? 0) then Exc ValueError
  else if len flat =? d0 * d1 * d2 then
    Ret (map (chunks (Z.to_nat d2) (Z.to_nat d1))
             (chunks (Z.to_nat (d1 * d2)) (Z.to_nat d0) flat))
  else Exc ValueError.

(** [a // b] *)
Definition floordiv (a b : Z) : result Z :=
  if b =? 0 then Exc ZeroDivisionError else Ret (a / b).

(** Round half to even *)
Definition rint (x : Q) : Z :=
  let f := Qfloor x in
  match (x - inject_Z f ?= 1 # 2)%Q with
  | Lt => f
  | Gt => f + 1
  | Eq => if Z.even f then f else f + 1
  end.

(** [np.round(x, decimals)] *)
Definition round (x : Q) (decimals : Z) : Q :=
  Qred (inject_Z (rint (x * (10 # 1) ^ decimals)) / (10 # 1) ^ decimals).

(** [np.roll(a, shift, axis=0)]: the entry at [i] moves to [(i + shift) mod
    len(a)]. *)
Definition roll {A : Type} (a : list A) (shift : Z) : list A :=
  if len a =? 0 then a
  else
    let s := Z.to_nat (len a - shift mod len a) in
    skipn s a ++ firstn s a.

Definition conj1 (v : list C) : list C := map Cconj v.
Definition conj2 (m : list (list C)) : list (list C) := map conj1 m.
Definition conj3 (t : list (list (list C))) : list (list (list C)) :=
  map conj2 t.

Definition vadd (v w : list C) : list C := zip_with Cplus v w.
Definition vscale (x : C) (v : list C) : list C := map (Cmult x) v.

(** [np.sum(t, axis=1)] of an array with three axes *)
Definition sum_axis1 (t : list (list (list C))) : list (list C) :=
  let width := Z.to_nat (shape2 t) in
  map (fun blocks => fold_left vadd blocks (repeat C0 width)) t.

(** [weights.reshape((1, -1, 1)) * t]: the rule of broadcasting on the
    middle axis. *)
Definition times_axis1 (weights : list C) (t : list (list (list C)))
  : result (list (list (list C))) :=
  if len weights =? shape1 t then
    Ret (map (fun blocks => zip_with vscale weights blocks) t)
  else
    match weights with
    | [w] => Ret (map (map (vscale w)) t)
    | _ =>
        if shape1 t =? 1 then
          Ret (map (fun blocks =>
                      map (fun w => vscale w (hd [] blocks)) weights) t)
        else Exc ValueError
    end.

(** [a.ravel()] of a matrix *)
Definition ravel {A : Type} (m : list (list A)) : list A := concat m.

(** [v @ w] of two vectors *)
Definition dot (v w : list C) : result C :=
  if len v =? len w then
    Ret (fold_left Cplus (zip_with Cmult v w) C0)
  else Exc ValueError.

(** [v @ m] of a vector and a matrix *)
Definition vecmat (v : list C) (m : list (list C)) : result (list C) :=
  if len v =? shape0 m then
    Ret (fold_left vadd (zip_with vscale v m)
           (repeat C0 (Z.to_nat (shape1 m))))
  else Exc ValueError.

(** [np.outer(v, w)] *)
Definition outer (v w : list C) : list (list C) :=
  map (fun x => map (fun y => Cmult x y) w) v.

End Array.

Import Array.

(** ** The spectral selector *)

(** The Floquet matrix as [diagonalise] receives it: a numpy array or a
    [scipy.sparse] matrix. *)
Inductive kmatrix : Type :=
| Dense (m : list (list C))
| Sparse (m : list (list C)).

Definition k_array (k : kmatrix) : list (list C) :=
  match k with Dense m => m | Sparse m => m end.

(** What the module calls and does not define.  An eigenvalue is a complex
    floating-point number, a pair of rationals; the eigenvectors are the
    columns of the matrix returned with them. *)
Record Library : Type := {
  (** [np.linalg.eig(k)] *)
  np_linalg_eig :
    list (list C) -> result (list (Q * Q) * list (list C));
  (** [scipy.sparse.linalg.eigs(k, k=n, sigma=0.0)] *)
  sparse_eigs :
    list (list C) -> Z -> result (list (Q * Q) * list (list C));
  (** [linalg.gram_schmidt(vectors)], which is not among the sources *)
  gram_schmidt : list (list C) -> list (list C)
}.

(** The loop [for degeneracy in find_duplicates(eigenvalues)] *)
Definition orthogonalise (L : Library) (groups : list (list Z))
    (eigenvectors : list (list C)) : result (list (list C)) :=
  foldM (fun eigenvectors degeneracy =>
           rows <- take eigenvectors degeneracy ;;
           setitems eigenvectors degeneracy (gram_schmidt L rows))
        groups eigenvectors.

(** [diagonalise(k, h_dimension, frequency, decimals)] *)
Definition diagonalise (L : Library) (k : kmatrix) (h_dimension : Z)
    (frequency : Q) (decimals : Z)
  : result (list Q * list (list (list C))) :=
  '(eigenvalues, eigenvectors) <-
    match k with
    | Sparse m => sparse_eigs L m (2 * h_dimension)
    | Dense m => np_linalg_eig L m
    end ;;
  let eigenvalues := map (fun z => round (fst z) decimals) eigenvalues in
  let eigenvectors := transpose eigenvectors in
  let edge := round ((1 # 2) * frequency) decimals in
  '(eigenvalues, eigenvectors) <-
    first_brillouin_zone eigenvalues eigenvectors h_dimension edge ;;
  groups <- find_duplicates eigenvalues ;;
  eigenvectors <- orthogonalise L groups eigenvectors ;;
  n_zones <- floordiv (shape0 (k_array k)) h_dimension ;;
  vectors <- reshape3 eigenvectors h_dimension n_zones h_dimension ;;
  Ret (eigenvalues, vectors).

(** ** The eigensystem *)

Record Eigensystem : Type := {
  frequency : Q;
  quasienergies : list Q;
  k_eigenvectors : list (list (list C));
  initial_floquet_bras : list (list C);
  abstract_ket_coefficients : list C;
  k_derivatives : option (list (list (list C)))
}.

(** [eigensystem(hamiltonian, dhamiltonian, n_zones, frequency, decimals,
    sparse)] *)
Definition eigensystem (L : Library) (hamiltonian : list (list (list C)))
    (dhamiltonian : option (list (list (list (list C))))) (n_zones : Z)
    (frequency : Q) (decimals : Z) (sparse : bool) : result Eigensystem :=
  let dimension := shape1 hamiltonian in
  k <- assemble_k hamiltonian n_zones (QtoC frequency) ;;
  let k := if sparse then Sparse k else Dense k in
  '(quasienergies, k_eigenvectors) <-
    diagonalise L k dimension frequency decimals ;;
  let initial_floquet_bras := conj2 (sum_axis1 k_eigenvectors) in
  let fourier_modes := range ((1 - n_zones) / 2) (1 + n_zones / 2) in
  let abstract_ket_coefficients :=
    map (fun m => Cmult (Cmult Ci (QtoC frequency)) (ZtoC m)) fourier_modes in
  k_derivatives <-
    match dhamiltonian with
    | None => Ret None
    | Some dhamiltonian =>
        dk <- assemble_dk dhamiltonian n_zones ;; Ret (Some dk)
    end ;;
  Ret {| frequency := frequency;
         quasienergies := quasienergies;
         k_eigenvectors := k_eigenvectors;
         initial_floquet_bras := initial_floquet_bras;
         abstract_ket_coefficients := abstract_ket_coefficients;
         k_derivatives := k_derivatives |}.

(** ** The evaluators *)

(** [current_floquet_kets(eigensystem, time)] *)
Definition current_floquet_kets (eigensystem : Eigensystem) (time : R)
  : result (list (list C)) :=
  let weights :=
    map (fun c => Cexp (Cmult (RtoC time) c))
        (abstract_ket_coefficients eigensystem) in
  weighted <- times_axis1 weights (k_eigenvectors eigensystem) ;;
  Ret (sum_axis1 weighted).

(** A vector broadcast to [n] entries. *)
Definition broadcast1 (n : Z) (v : list C) : result (list C) :=
  if len v =? n then Ret v
  else match v with
       | [x] => Ret (repeat x (Z.to_nat n))
       | _ => Exc ValueError
       end.

(** [out[lo:hi] = value] for arrays with two axes, by the rule of
    broadcasting: the rows of the value need as many entries as the rows of
    [out], or one entry, which is then repeated; and the value needs as many
    rows as the slice, or one row.  [width] is the number of entries of the
    rows of the value, which a numpy array keeps when it has no rows and a
    nested list does not. *)
Definition setslice2 (out : list (list C)) (lo hi : option Z)
    (value : list (list C)) (width : Z) : result (list (list C)) :=
  if (width =? shape1 out) || (width =? 1) then
    value <- mapM (broadcast1 (shape1 out)) value ;;
    setslice out lo hi value
  else Exc ValueError.

(** [conjugate_rotate_into(out, input, amount)]; the new contents of [out]
    are returned.  The slices of [input] and their conjugates have the width
    of [input]. *)
Definition conjugate_rotate_into (out input : list (list C)) (amount : Z)
  : result (list (list C)) :=
  let width := shape1 input in
  if amount <? 0 then
    out <- setslice2 out None (Some amount)
             (conj2 (slice input (Some (Z.abs amount)) None)) width ;;
    setslice2 out (Some amount) None
      (conj2 (slice input None (Some (Z.abs amount)))) width
  else if 0 <? amount then
    out <- setslice2 out (Some amount) None
             (conj2 (slice input None (Some (- amount)))) width ;;
    setslice2 out None (Some amount)
      (conj2 (slice input (Some (- amount)) None)) width
  else setslice2 out None None (conj2 input) width.

Section Evaluators.

(** What [np.empty] leaves in the memory it hands out. *)
Variable uninit : C.

(** The body shared by the two loops over the zone differences other than
    zero in [integral_factors]. *)
Definition difference_rows (energies : list Q) (energy_phases : list C)
    (frequency : Q) (differences : list Z) (diff_exponentials : list C)
    (out : list (list (list C))) (diff_index : Z)
  : result (list (list (list C))) :=
  difference <- getitem differences diff_index ;;
  let separation := (frequency * inject_Z difference)%Q in
  exponential <- getitem diff_exponentials diff_index ;;
  foldM (fun out i =>
      phase_i <- getitem energy_phases i ;;
      energy_i <- getitem energies i ;;
      let numer :=
        map (fun phase => Cminus phase_i (Cmult phase exponential))
            energy_phases in
      let denom :=
        map (fun energy => (energy_i + separation - energy)%Q) energies in
      row <- array_div numer denom ;;
      setrow3 out diff_index i row)
    (range 0 (len energies)) out.

(** [integral_factors(eigensystem, time)] *)
Definition integral_factors (eigensystem : Eigensystem) (time : R)
  : result (list (list (list C))) :=
  let n_zones := shape1 (k_eigenvectors eigensystem) in
  let dimension := shape2 (k_eigenvectors eigensystem) in
  let energies := quasienergies eigensystem in
  let frequency := frequency eigensystem in
  let energy_phases :=
    map (fun e => Cexp (Cmult (Cmult (Copp Ci) (RtoC time)) (QtoC e)))
        energies in
  let differences := range (1 - n_zones) n_zones in
  let diff_exponentials :=
    map (fun d =>
           Cexp (Cmult (Cmult (Cmult Ci (RtoC time)) (QtoC frequency))
                       (ZtoC d)))
        differences in
  out <- full3 uninit (len differences) dimension dimension ;;
  let diag :=
    map (fun phase => Cmult (Cmult (Copp Ci) (RtoC time)) phase)
        energy_phases in
  out <- foldM (fun out i =>
                  d <- getitem diag i ;;
                  setitem3 out (n_zones - 1) i i d)
               (range 0 (len energies)) out ;;
  out <- foldM (fun out i =>
            foldM (fun out j =>
                phase_i <- getitem energy_phases i ;;
                phase_j <- getitem energy_phases j ;;
                energy_i <- getitem energies i ;;
                energy_j <- getitem energies j ;;
                value <- scalar_div (Cminus phase_i phase_j)
                           (energy_i - energy_j)%Q ;;
                out <- setitem3 out (n_zones - 1) i j value ;;
                setitem3 out (n_zones - 1) j i value)
              (range 0 i) out)
          (range 0 (len energies)) out ;;
  out <- foldM (difference_rows energies energy_phases frequency differences
                  diff_exponentials)
               (range 0 (n_zones - 1)) out ;;
  foldM (difference_rows energies energy_phases frequency differences
           diff_exponentials)
        (range n_zones (len differences)) out.

(** [eigensystem.k_derivatives.shape[0]] *)
Definition n_parameters_of (eigensystem : Eigensystem) : result Z :=
  match k_derivatives eigensystem with
  | None => Exc AttributeError
  | Some dk => Ret (shape0 dk)
  end.

(** [combined_factors(eigensystem, time)] *)
Definition combined_factors (eigensystem : Eigensystem) (time : R)
  : result (list (list (list (list C)))) :=
  n_parameters <- n_parameters_of eigensystem ;;
  let n_zones := shape1 (k_eigenvectors eigensystem) in
  let dimension := shape2 (k_eigenvectors eigensystem) in
  factors <- full4 uninit (2 * n_zones - 1) dimension dimension n_parameters ;;
  rolled_k_eigenbra <- zeros2 n_zones dimension ;;
  let k_eigenkets := k_eigenvectors eigensystem in
  integral_terms <- integral_factors eigensystem time ;;
  '(factors, _) <-
    foldM (fun '(factors, rolled) '(diff_index, diff) =>
        foldM (fun '(factors, rolled) i =>
            ket_i <- getitem k_eigenkets i ;;
            rolled <- conjugate_rotate_into rolled ket_i diff ;;
            factors <-
              foldM (fun factors j =>
                  foldM (fun factors parameter =>
                      dk <- match k_derivatives eigensystem with
                            | Some dk => getitem dk parameter
                            | None => Exc AttributeError
                            end ;;
                      ket_j <- getitem k_eigenkets j ;;
                      left <- vecmat (ravel rolled) dk ;;
                      expectation <- dot left (ravel ket_j) ;;
                      plane <- getitem integral_terms diff_index ;;
                      line <- getitem plane i ;;
                      term <- getitem line j ;;
                      setitem4 factors diff_index i j parameter
                        (Cmult term expectation))
                    (range 0 n_parameters) factors)
                (range 0 dimension) factors ;;
            Ret (factors, rolled))
          (range 0 dimension) (factors, rolled))
      (combine (range 0 (2 * n_zones - 1)) (range (1 - n_zones) n_zones))
      (factors, rolled_k_eigenbra) ;;
  Ret factors.

(** [out += factor * projector], with [factor] reshaped to
    [(n_parameters, 1, 1)] *)
Definition accumulate (out : list (list (list C))) (factor : list C)
    (projector : list (list C)) : list (list (list C)) :=
  zip_with (fun plane f =>
              zip_with vadd plane (map (vscale f) projector))
           out factor.

(** [du_dcontrols(eigensystem, time)] *)
Definition du_dcontrols (eigensystem : Eigensystem) (time : R)
  : result (list (list (list C))) :=
  n_parameters <- n_parameters_of eigensystem ;;
  let n_zones := shape1 (k_eigenvectors eigensystem) in
  let dimension := shape2 (k_eigenvectors eigensystem) in
  out <- full3 C0 n_parameters dimension dimension ;;
  if n_parameters =? 0 then Ret out
  else
    factors <- combined_factors eigensystem time ;;
    current_kets <- current_floquet_kets eigensystem time ;;
    let k_eigenbras := conj3 (k_eigenvectors eigensystem) in
    foldM (fun out i =>
        foldM (fun out j =>
            foldM (fun out zone_i =>
                ket <- getitem current_kets i ;;
                bras <- getitem k_eigenbras j ;;
                bra <- getitem bras zone_i ;;
                let projector := outer ket bra in
                foldM (fun out diff_i =>
                    cube <- getitem factors diff_i ;;
                    plane <- getitem cube i ;;
                    factor <- getitem plane j ;;
                    Ret (accumulate out factor projector))
                  (range zone_i (zone_i + n_zones)) out)
              (rev (range 0 n_zones)) out)
          (range 0 dimension) out)
      (range 0 dimension) out.

End Evaluators.

(** ** The evolution operator *)

(** A matrix broadcast to the shape [(rows, cols)]. *)
Definition broadcast2 (rows cols : Z) (m : list (list C))
  : result (list (list C)) :=
  m <- mapM (broadcast1 cols) m ;;
  if len m =? rows then Ret m
  else match m with
       | [r] => Ret (repeat r (Z.to_nat rows))
       | _ => Exc ValueError
       end.

(** [out += inc]; the new contents of [out] are returned. *)
Definition iadd2 (out inc : list (list C)) : result (list (list C)) :=
  inc <- broadcast2 (shape0 out) (shape1 out) inc ;;
  Ret (zip_with vadd out inc).

(** [np.outer(v, w, out=tmp)]; the new contents of [tmp] are returned. *)
Definition outer_into (tmp : list (list C)) (v w : list C)
  : result (list (list C)) :=
  broadcast2 (shape0 tmp) (shape1 tmp) (outer v w).

(** [d_current_floquet_kets(eigensystem, time)] *)
Definition d_current_floquet_kets (eigensystem : Eigensystem) (time : R)
  : result (list (list C)) :=
  let weights :=
    map (fun c => Cexp (Cmult (RtoC time) c))
        (abstract_ket_coefficients eigensystem) in
  let weights :=
    zip_with Cmult weights (abstract_ket_coefficients eigensystem) in
  weighted <- times_axis1 weights (k_eigenvectors eigensystem) ;;
  Ret (sum_axis1 weighted).

(** [u(eigensystem, time)] *)
Definition u (eigensystem : Eigensystem) (time : R)
  : result (list (list C)) :=
  let dimension := shape0 (quasienergies eigensystem) in
  out <- zeros2 dimension dimension ;;
  kets <- current_floquet_kets eigensystem time ;;
  let energy_phases :=
    map (fun e => Cexp (Cmult (Cmult (Copp Ci) (RtoC time)) (QtoC e)))
        (quasienergies eigensystem) in
  foldM (fun out mode =>
      phase <- getitem energy_phases mode ;;
      ket <- getitem kets mode ;;
      bra <- getitem (initial_floquet_bras eigensystem) mode ;;
      iadd2 out (outer (vscale phase ket) bra))
    (range 0 dimension) out.

(** [du_dt(eigensystem, time)] *)
Definition du_dt (eigensystem : Eigensystem) (time : R)
  : result (list (list C)) :=
  let dimension := shape0 (quasienergies eigensystem) in
  out <- zeros2 dimension dimension ;;
  tmp <- zeros2 dimension dimension ;;
  kets <- current_floquet_kets eigensystem time ;;
  dkets_dt <- d_current_floquet_kets eigensystem time ;;
  let energy_factors :=
    map (fun e => Cmult (Copp Ci) (QtoC e)) (quasienergies eigensystem) in
  let energy_phases :=
    map (fun f => Cexp (Cmult (RtoC time) f)) energy_factors in
  '(out, _) <-
    foldM (fun '(out, tmp) mode =>
        phase <- getitem energy_phases mode ;;
        dket <- getitem dkets_dt mode ;;
        bra <- getitem (initial_floquet_bras eigensystem) mode ;;
        tmp <- outer_into tmp (vscale phase dket) bra ;;
        out <- iadd2 out tmp ;;
        phase <- getitem energy_phases mode ;;
        ket <- getitem kets mode ;;
        bra <- getitem (initial_floquet_bras eigensystem) mode ;;
        tmp <- outer_into tmp (vscale phase ket) bra ;;
        factor <- getitem energy_factors mode ;;
        out <- iadd2 out (map (vscale factor) tmp) ;;
        Ret (out, tmp))
      (range 0 dimension) (out, tmp) ;;
  Ret out.

(** * Vocabulary of the statements *)

(** The entry of [a] at a position within it. *)
Definition value (a : list Q) (i : Z) : Q := nth (Z.to_nat i) a 0%Q.

(** The positions [s], ..., [e - 1] of [a] are a maximal run of equal
    values. *)
Definition is_run (a : list Q) (s e : Z) : Prop :=
  0 <= s < e /\ e <= len a /\
  (forall i, s <= i < e -> (value a i == value a s)%Q) /\
  (s = 0 \/ ~ (value a (s - 1) == value a s)%Q) /\
  (e = len a \/ ~ (value a e == value a s)%Q).

(** The pieces into which an array of [n] entries falls when it is cut in
    front of every entry that differs from the one before it: [st] is where
    the piece being read starts, [i] the position of the head of [suf], and
    [prev] the entry at [i - 1]. *)
Fixpoint run_pieces (n st i : Z) (prev : Q) (suf : list Q) : list (list Z) :=
  match suf with
  | [] => [range st n]
  | x :: suf' =>
      if Qeq_bool x prev then run_pieces n st (i + 1) x suf'
      else range st i :: run_pieces n i (i + 1) x suf'
  end.

(** What [find_duplicates] is to yield for [a]: the index groups are the
    maximal runs of two or more equal values, each once and in ascending
    order of position, and an index is in a group exactly when its value
    occurs elsewhere in [a] too. *)
Definition duplicate_groups (a : list Q) (gs : list (list Z)) : Prop :=
  (forall g, In g gs <->
             exists s e, g = range s e /\ is_run a s e /\ 2 <= e - s) /\
  StronglySorted Z.lt (concat gs) /\
  (forall i, In i (concat gs) <->
             0 <= i < len a /\
             exists j, 0 <= j < len a /\ j <> i /\
                       (value a j == value a i)%Q).

(** The tie-break policy of the spec for the first Brillouin zone, on an
    ascending array: count the eigenvalues strictly inside the zone, those
    equal to [-edge] and those equal to [edge]; take the interior if that
    makes [n_values], else the interior with the lower edge, else the
    interior with the upper edge, else fail. *)
Definition zone_policy {V : Type} (eigenvalues : list Q)
    (eigenvectors : list V) (n_values : Z) (edge : Q)
  : result (list Q * list V) :=
  let pairs := combine eigenvalues eigenvectors in
  let inside (p : Q * V) :=
    negb (Qle_bool (fst p) (- edge)) && negb (Qle_bool edge (fst p)) in
  let center := filter inside pairs in
  let lower_edge := filter (fun p => Qeq_bool (fst p) (- edge)) pairs in
  let upper_edge := filter (fun p => Qeq_bool (fst p) edge) pairs in
  let n_center := len center in
  let n_lower_edge := len lower_edge in
  let n_upper_edge := len upper_edge in
  if n_center =? n_values then Ret (List.split center)
  else if n_center + n_lower_edge =? n_values then
    Ret (List.split (lower_edge ++ center))
  else if n_center + n_upper_edge =? n_values then
    Ret (List.split (center ++ upper_edge))
  else Exc RuntimeError.

(** The order in which [argsort] leaves the (key, index) pairs. *)
Definition key_le (p q : Q * Z) : Prop := (fst p <= fst q)%Q.




(** The matrix of [n] rows and [m] columns with [f r c] at [(r, c)]. *)
Definition tab {K : Type} (n m : Z) (f : Z -> Z -> K) : list (list K) :=
  map (fun r => map (fun c => f r c) (range 0 m)) (range 0 n).

(** The Fourier component of the Hamiltonian tensor for harmonic [n]. *)
Definition component {K : Type} (hf : list (list (list K))) (n : Z)
  : list (list K) :=
  nth (Z.to_nat (n_to_i n (shape0 hf))) hf [].

(** Every component of the tensor is a square matrix of the dimension of
    the first. *)
Definition square_components {K : Type} (hf : list (list (list K))) : Prop :=
  Forall (fun m => len m = shape1 hf /\ Forall (fun r => len r = shape1 hf) m)
         hf.

Definition zero_block {K : Type} `{Scalar K} (dim : Z) : list (list K) :=
  repeat (repeat zero (Z.to_nat dim)) (Z.to_nat dim).

(** Block [(row, col)] of the Floquet matrix as the spec gives it: the
    component for harmonic [row - col] when the tensor has one, with
    [omega * harmonic_offset(row) * Identity] added when [row = col], and
    the zero block otherwise. *)
Definition expected_block {K : Type} `{Scalar K} (hf : list (list (list K)))
    (nz : Z) (omega : K) (row col : Z) : list (list K) :=
  let hf_max := (shape0 hf - 1) / 2 in
  if Z.abs (row - col) <=? hf_max then
    if row =? col then
      madd (component hf 0)
           (mscale (mscale (eye (shape1 hf)) omega) (of_int (i_to_n row nz)))
    else component hf (row - col)
  else zero_block (shape1 hf).

(** The block that [assemble_k] writes at block row [row] for harmonic [n]
    with component [current]. *)
Definition harmonic_block {K : Type} `{Scalar K} (current : list (list K))
    (n dim nz : Z) (omega : K) (row : Z) : list (list K) :=
  if n =? 0 then
    madd current (mscale (mscale (eye dim) omega) (of_int (i_to_n row nz)))
  else current.

(** A matrix of [dim] rows of [dim] entries. *)
Definition square {K : Type} (dim : Z) (b : list (list K)) : Prop :=
  len b = dim /\ Forall (fun r => len r = dim) b.

(** While [assemble_k] runs: in the matrix with entries [f], the blocks of
    the harmonics below [x] are in place and the other blocks are zero. *)
Definition placed_below {K : Type} `{Scalar K} (hf : list (list (list K)))
    (nz : Z) (omega : K) (x : Z) (f : Z -> Z -> K) : Prop :=
  let dim := shape1 hf in
  let hf_max := (shape0 hf - 1) / 2 in
  forall R Cc a b,
    0 <= R < nz -> 0 <= Cc < nz -> 0 <= a < dim -> 0 <= b < dim ->
    f (R * dim + a) (Cc * dim + b)
    = nth (Z.to_nat b)
        (nth (Z.to_nat a)
           (if (- hf_max <=? R - Cc) && (R - Cc <? x)
            then harmonic_block (component hf (R - Cc)) (R - Cc) dim nz
                   omega R
            else zero_block dim) [])
        zero.

(** [out[n, i, j]] *)
Definition getitem3 {A : Type} (out : list (list (list A))) (n i j : Z)
  : result A :=
  plane <- getitem out n ;;
  line <- getitem plane i ;;
  getitem line j.

(** The array of shape [(d0, d1, d2)] with [f n i j] at [(n, i, j)]. *)
Definition tab3 {A : Type} (d0 d1 d2 : Z) (f : Z -> Z -> Z -> A)
  : list (list (list A)) :=
  map (fun n => map (fun i => map (fun j => f n i j) (range 0 d2))
                    (range 0 d1))
      (range 0 d0).

(** [energy[i]], [phase[i] = exp(-i t energy[i])] and
    [exp(i t frequency delta)] of a bundle at time [t]. *)
Definition energy (b : Eigensystem) (i : Z) : R :=
  Q2R (value (quasienergies b) i).

Definition energy_phase (b : Eigensystem) (t : R) (i : Z) : C :=
  Cexp (Cmult (Cmult (Copp Ci) (RtoC t)) (QtoC (value (quasienergies b) i))).

Definition difference_exponential (b : Eigensystem) (t : R) (delta : Z) : C :=
  Cexp (Cmult (Cmult (Cmult Ci (RtoC t)) (QtoC (frequency b))) (ZtoC delta)).

(** The term of [integral_factors] for a zone difference other than zero. *)
Definition general_term (b : Eigensystem) (t : R) (delta i j : Z) : C :=
  Cdiv (Cminus (energy_phase b t i)
               (Cmult (energy_phase b t j) (difference_exponential b t delta)))
       (RtoC (energy b i + Q2R (frequency b) * IZR delta - energy b j)).

(** The general term as the spec writes it, with [phase[i]] twice. *)
Definition spec_general_term (b : Eigensystem) (t : R) (delta i j : Z) : C :=
  Cdiv (Cminus (energy_phase b t i)
               (Cmult (energy_phase b t i) (difference_exponential b t delta)))
       (RtoC (energy b i + Q2R (frequency b) * IZR delta - energy b j)).

(** The kernel [e(i, j; delta)]: the two closed forms for the zone
    difference zero, and the general term. *)
Definition integral_kernel (b : Eigensystem) (t : R) (delta i j : Z) : C :=
  if delta =? 0 then
    if i =? j then Cmult (Cmult (Copp Ci) (RtoC t)) (energy_phase b t i)
    else Cdiv (Cminus (energy_phase b t i) (energy_phase b t j))
              (RtoC (energy b i - energy b j))
  else general_term b t delta i j.

(** What [integral_factors] writes at [(n, i, j)] of its output for [nz]
    zones: below the diagonal of the plane of the zone difference zero the
    quotient for [(i, j)], and above it the same value, computed for
    [(j, i)]. *)
Definition written_kernel (b : Eigensystem) (t : R) (nz n i j : Z) : C :=
  if n =? nz - 1 then
    if i =? j then Cmult (Cmult (Copp Ci) (RtoC t)) (energy_phase b t i)
    else if j <? i then
      Cdiv (Cminus (energy_phase b t i) (energy_phase b t j))
           (RtoC (energy b i - energy b j))
    else
      Cdiv (Cminus (energy_phase b t j) (energy_phase b t i))
           (RtoC (energy b j - energy b i))
  else general_term b t (n - (nz - 1)) i j.

(** While [integral_factors] runs: the output is an array of shape
    [(d0, d, d)] whose entries at the places in [W] are written. *)
Definition factors_written (b : Eigensystem) (t : R) (nz d0 d : Z)
    (W : Z -> Z -> Z -> Prop) (out : list (list (list C))) : Prop :=
  exists f,
    out = tab3 d0 d d f /\
    forall n i j, 0 <= n < d0 -> 0 <= i < d -> 0 <= j < d ->
                  W n i j -> f n i j = written_kernel b t nz n i j.

(** A bundle of two states in three zones, with frequency 3 and the
    quasienergies 0 and 1. *)
Definition two_state_bundle : Eigensystem := {|
  frequency := 3;
  quasienergies := [0; 1]%Q;
  k_eigenvectors := [[[C0; C0]; [C1; C0]; [C0; C0]];
                     [[C0; C0]; [C0; C1]; [C0; C0]]];
  initial_floquet_bras := [[C1; C0]; [C0; C1]];
  abstract_ket_coefficients := [C1; C1];
  k_derivatives := None
|}.

(** An array with three axes of shape [(d0, d1, d2)]. *)
Definition has_shape3 {A : Type} (d0 d1 d2 : Z) (t : list (list (list A)))
  : Prop :=
  len t = d0 /\
  Forall (fun v => len v = d1 /\ Forall (fun blk => len blk = d2) v) t.

(** A bundle of [dim] states in [nz] zones: as many quasienergies,
    eigenvectors and initial bras as states, each eigenvector cut into as
    many blocks as zones, and a coefficient for each zone. *)
Definition well_formed (b : Eigensystem) (dim nz : Z) : Prop :=
  len (quasienergies b) = dim /\
  has_shape3 dim nz dim (k_eigenvectors b) /\
  square dim (initial_floquet_bras b) /\
  len (abstract_ket_coefficients b) = nz.

(** The entry of a matrix at [(a, c)]. *)
Definition entry (m : list (list C)) (a c : Z) : C :=
  nth (Z.to_nat c) (nth (Z.to_nat a) m []) C0.

(** The sum [f 0 + ... + f (n - 1)], added up from zero in this order. *)
Definition csum (f : Z -> C) (n : Z) : C :=
  fold_left Cplus (map f (range 0 n)) C0.

(** Of a bundle: the coefficient of zone [z], entry [a] of block [z] of
    eigenvector [m], and entry [c] of the initial bra [m]. *)
Definition coefficient (b : Eigensystem) (z : Z) : C :=
  nth (Z.to_nat z) (abstract_ket_coefficients b) C0.

Definition block_entry (b : Eigensystem) (m z a : Z) : C :=
  nth (Z.to_nat a)
      (nth (Z.to_nat z) (nth (Z.to_nat m) (k_eigenvectors b) []) []) C0.

Definition bra_entry (b : Eigensystem) (m c : Z) : C :=
  entry (initial_floquet_bras b) m c.

(** Entry [a] of the Floquet ket [m] at time [t], and of its derivative
    with respect to time, as [current_floquet_kets] and
    [d_current_floquet_kets] add them up over the zones. *)
Definition ket_entry (b : Eigensystem) (t : R) (m a : Z) : C :=
  csum (fun z => Cmult (Cexp (Cmult (RtoC t) (coefficient b z)))
                       (block_entry b m z a))
       (shape1 (k_eigenvectors b)).

Definition dket_entry (b : Eigensystem) (t : R) (m a : Z) : C :=
  csum (fun z => Cmult (Cmult (Cexp (Cmult (RtoC t) (coefficient b z)))
                              (coefficient b z))
                       (block_entry b m z a))
       (shape1 (k_eigenvectors b)).

(** Entry [(a, c)] of the evolution operator at time [t], as [u] adds it up
    over the modes. *)
Definition u_entry (b : Eigensystem) (t : R) (a c : Z) : C :=
  csum (fun m => Cmult (Cmult (energy_phase b t m) (ket_entry b t m a))
                       (bra_entry b m c))
       (len (quasienergies b)).

(** [-i energy[m]] and [exp(t * (-i energy[m]))], as [du_dt] writes them. *)
Definition energy_factor (b : Eigensystem) (m : Z) : C :=
  Cmult (Copp Ci) (QtoC (value (quasienergies b) m)).

Definition factor_phase (b : Eigensystem) (t : R) (m : Z) : C :=
  Cexp (Cmult (RtoC t) (energy_factor b m)).

(** Entry [(a, c)] of [du_dt] at time [t]: each mode adds two terms, one
    after the other. *)
Definition du_dt_entry (b : Eigensystem) (t : R) (a c : Z) : C :=
  fold_left
    (fun acc m =>
       Cplus
         (Cplus acc
            (Cmult (Cmult (factor_phase b t m) (dket_entry b t m a))
                   (bra_entry b m c)))
         (Cmult (energy_factor b m)
            (Cmult (Cmult (factor_phase b t m) (ket_entry b t m a))
                   (bra_entry b m c))))
    (range 0 (len (quasienergies b))) C0.

(** The matrix that a computation returns; the empty matrix when it
    raises. *)
Definition returned (m : result (list (list C))) : list (list C) :=
  match m with
  | Ret x => x
  | _ => []
  end.

(** The complex function [f] of a real variable has the derivative [d] at
    [t]: its real part and its imaginary part have those of [d]. *)
Definition Cderiv (f : R -> C) (t : R) (d : C) : Prop :=
  derivable_pt_lim (fun s => fst (f s)) t (fst d) /\
  derivable_pt_lim (fun s => snd (f s)) t (snd d).

(** A bundle of two states in three zones, with frequency 3, the
    quasienergies 0 and 1 and a coefficient for each zone. *)
Definition three_zone_bundle : Eigensystem := {|
  frequency := 3;
  quasienergies := [0; 1]%Q;
  k_eigenvectors := [[[C0; C0]; [C1; C0]; [C0; Ci]];
                     [[Ci; C0]; [C0; C1]; [C0; C0]]];
  initial_floquet_bras := [[C1; Cconj Ci]; [Cconj Ci; C1]];
  abstract_ket_coefficients :=
    map (fun m => Cmult (Cmult Ci (QtoC 3)) (ZtoC m)) [-1; 0; 1];
  k_derivatives := None
|}.

(** The array of shape [(d0, d1, d2, d3)] with [f n i j p] at
    [(n, i, j, p)]. *)
Definition tab4 {A : Type} (d0 d1 d2 d3 : Z) (f : Z -> Z -> Z -> Z -> A)
  : list (list (list (list A))) :=
  map (fun n => tab3 d1 d2 d3 (f n)) (range 0 d0).

(** [out[n, i, j, p]] *)
Definition getitem4 {A : Type} (out : list (list (list (list A))))
    (n i j p : Z) : result A :=
  cube <- getitem out n ;;
  getitem3 cube i j p.

(** The expectation value that [combined_factors] computes for the zone
    difference [diff], the eigenvectors [i] and [j] and the parameter [p]:
    eigenvector [i] rotated by [diff] and conjugated, flattened, times the
    derivative matrix [dk[p]], times eigenvector [j], flattened. *)
Definition expectation (b : Eigensystem) (dk : list (list (list C)))
    (diff i j p : Z) : C :=
  let bra :=
    ravel (conj2 (roll (nth (Z.to_nat i) (k_eigenvectors b) []) diff)) in
  let dk_p := nth (Z.to_nat p) dk [] in
  let left :=
    fold_left vadd (zip_with vscale bra dk_p)
              (repeat C0 (Z.to_nat (shape1 dk_p))) in
  fold_left Cplus
    (zip_with Cmult left (ravel (nth (Z.to_nat j) (k_eigenvectors b) [])))
    C0.

(** What [combined_factors] writes at [(n, i, j, p)] for [nz] zones. *)
Definition combined_factor (b : Eigensystem) (dk : list (list (list C)))
    (t : R) (nz n i j p : Z) : C :=
  Cmult (written_kernel b t nz n i j) (expectation b dk (n + 1 - nz) i j p).

(** While [combined_factors] runs: the factors are an array of shape
    [(d0, d, d, np)] whose entries at the places in [W] are written. *)
Definition combined_written (b : Eigensystem) (dk : list (list (list C)))
    (t : R) (nz d0 d np : Z) (W : Z -> Z -> Z -> Z -> Prop)
    (out : list (list (list (list C)))) : Prop :=
  exists f,
    out = tab4 d0 d d np f /\
    forall n i j p,
      0 <= n < d0 -> 0 <= i < d -> 0 <= j < d -> 0 <= p < np ->
      W n i j p -> f n i j p = combined_factor b dk t nz n i j p.

(** Entry [(p, a, c)] of [du_dcontrols] at time [t], as the four loops add
    it up: for the eigenvectors [i] and [j], the zone [zone_i] from the last
    one down and the place [diff_i] of the zone difference, the combined
    factor for the parameter [p] times entry [a] of the Floquet ket [i] times
    the conjugate of entry [c] of block [zone_i] of eigenvector [j]. *)
Definition du_dcontrols_entry (b : Eigensystem) (dk : list (list (list C)))
    (t : R) (p a c : Z) : C :=
  let n_zones := shape1 (k_eigenvectors b) in
  let dimension := shape2 (k_eigenvectors b) in
  fold_left (fun acc i =>
    fold_left (fun acc j =>
      fold_left (fun acc zone_i =>
        fold_left (fun acc diff_i =>
            Cplus acc
              (Cmult (combined_factor b dk t n_zones diff_i i j p)
                     (Cmult (ket_entry b t i a)
                            (Cconj (block_entry b j zone_i c)))))
          (range zone_i (zone_i + n_zones)) acc)
        (rev (range 0 n_zones)) acc)
      (range 0 dimension) acc)
    (range 0 dimension) C0.

(** The derivatives of a matrix of side 6 with respect to two parameters. *)
Definition controlled_derivatives : list (list (list C)) :=
  [tab 6 6 (fun r c => if r =? c then C1 else C0);
   tab 6 6 (fun r c => if r + c =? 5 then Ci else C0)].

(** The bundle of two states in three zones, built with these
    derivatives. *)
Definition controlled_bundle : Eigensystem := {|
  frequency := frequency three_zone_bundle;
  quasienergies := quasienergies three_zone_bundle;
  k_eigenvectors := k_eigenvectors three_zone_bundle;
  initial_floquet_bras := initial_floquet_bras three_zone_bundle;
  abstract_ket_coefficients := abstract_ket_coefficients three_zone_bundle;
  k_derivatives := Some controlled_derivatives
|}.


(** The divisor of [integral_factors] for the zone difference [delta] and
    the pair [(i, j)]: [energy[i] + frequency * delta - energy[j]]. *)
Definition divisor (b : Eigensystem) (delta i j : Z) : Q :=
  (value (quasienergies b) i + frequency b * inject_Z delta
   - value (quasienergies b) j)%Q.

(** No division of [integral_factors] for [nz] zones is by zero: the
    quasienergies differ from one another, and no two of them differ by a
    multiple of the frequency that the zone differences reach. *)
Definition divisors_nonzero (b : Eigensystem) (nz : Z) : Prop :=
  forall delta i j,
    - nz < delta < nz ->
    0 <= i < len (quasienergies b) -> 0 <= j < len (quasienergies b) ->
    delta <> 0 \/ i <> j ->
    ~ (divisor b delta i j == 0)%Q.

(** The same, as a test. *)
Definition divisors_checked (b : Eigensystem) (nz : Z) : bool :=
  forallb (fun delta =>
    forallb (fun i =>
      forallb (fun j =>
          ((delta =? 0) && (i =? j))
          || negb (Qeq_bool (divisor b delta i j) 0))
        (range 0 (len (quasienergies b))))
      (range 0 (len (quasienergies b))))
    (range (1 - nz) nz).

(** A bundle of two states in one zone whose quasienergies coincide. *)
Definition degenerate_bundle : Eigensystem := {|
  frequency := 3;
  quasienergies := [0; 0]%Q;
  k_eigenvectors := [[[C1; C0]]; [[C0; C1]]];
  initial_floquet_bras := [[C1; C0]; [C0; C1]];
  abstract_ket_coefficients := [C0];
  k_derivatives := None
|}.

(** * Statements *)

Unset Implicit Arguments.

(** ** Facts about Python values *)

Lemma len_nil (A : Type) : len (@nil A) = 0.
Proof. reflexivity. Qed.

Lemma len_cons (A : Type) (x : A) (l : list A) : len (x :: l) = 1 + len l.
Proof. unfold len. cbn [length]. lia. Qed.

Lemma len_nonneg (A : Type) (l : list A) : 0 <= len l.
Proof. unfold len. lia. Qed.

Lemma len_app (A : Type) (l m : list A) : len (l ++ m) = len l + len m.
Proof. unfold len. rewrite length_app. lia. Qed.

Lemma range_empty (lo hi : Z) : hi <= lo -> range lo hi = [].
Proof.
  intros Hle. unfold range.
  replace (Z.to_nat (hi - lo)) with O by lia. reflexivity.
Qed.

Lemma seq_shift_map (f : nat -> Z) (n s : nat) :
  map f (seq (S s) n) = map (fun k => f (S k)) (seq s n).
Proof. rewrite <- seq_shift, map_map. reflexivity. Qed.

Lemma range_cons (lo hi : Z) : lo < hi -> range lo hi = lo :: range (lo + 1) hi.
Proof.
  intros Hlt. unfold range.
  replace (Z.to_nat (hi - lo)) with (S (Z.to_nat (hi - (lo + 1)))) by lia.
  cbn [seq map]. f_equal; [lia|].
  rewrite seq_shift_map. apply map_ext. intros k. lia.
Qed.

Lemma length_range (lo hi : Z) : length (range lo hi) = Z.to_nat (hi - lo).
Proof. unfold range. rewrite length_map, length_seq. reflexivity. Qed.

Lemma len_range (lo hi : Z) : lo <= hi -> len (range lo hi) = hi - lo.
Proof. intros Hle. unfold len. rewrite length_range. lia. Qed.

Lemma in_range (lo hi x : Z) : In x (range lo hi) <-> lo <= x < hi.
Proof.
  unfold range. rewrite in_map_iff. split.
  - intros [k [Hk Hin]]. apply in_seq in Hin. lia.
  - intros Hx. exists (Z.to_nat (x - lo)). split; [lia|].
    apply in_seq. lia.
Qed.

Lemma range_app (lo mid hi : Z) :
  lo <= mid -> mid <= hi -> range lo hi = range lo mid ++ range mid hi.
Proof.
  intros H1 H2. remember (Z.to_nat (mid - lo)) as n eqn:Hn.
  revert lo H1 Hn. induction n as [|n IH]; intros lo H1 Hn.
  - replace lo with mid by lia. rewrite (range_empty mid mid) by lia.
    reflexivity.
  - rewrite (range_cons lo hi) by lia. rewrite (range_cons lo mid) by lia.
    cbn [app]. f_equal. apply IH; lia.
Qed.

Lemma range_snoc (lo hi : Z) :
  lo <= hi -> range lo (hi + 1) = range lo hi ++ [hi].
Proof.
  intros Hle. rewrite (range_app lo hi (hi + 1)) by lia.
  f_equal. rewrite range_cons by lia. rewrite range_empty by lia. reflexivity.
Qed.

Lemma getitem_nth_error (A : Type) (a : list A) (i : Z) (x : A) :
  0 <= i -> nth_error a (Z.to_nat i) = Some x -> getitem a i = Ret x.
Proof.
  intros Hi Hnth. unfold getitem.
  assert (Hlt : (Z.to_nat i < length a)%nat)
    by (apply nth_error_Some; congruence).
  destruct (i <? 0) eqn:Hneg; [apply Z.ltb_lt in Hneg; lia|].
  cbv zeta. rewrite Hneg.
  replace (len a <=? i) with false
    by (symmetry; apply Z.leb_gt; unfold len; lia).
  cbn [orb]. rewrite Hnth. reflexivity.
Qed.

Lemma getitem_nth (A : Type) (a : list A) (i : Z) (d : A) :
  0 <= i < len a -> getitem a i = Ret (nth (Z.to_nat i) a d).
Proof.
  intros Hi. apply getitem_nth_error; [lia|].
  apply nth_error_nth'. unfold len in Hi. lia.
Qed.

Lemma getitem_inv (A : Type) (a : list A) (i : Z) (x : A) :
  getitem a i = Ret x ->
  - len a <= i < len a /\
  nth_error a (Z.to_nat (if i <? 0 then i + len a else i)) = Some x.
Proof.
  unfold getitem. intros Hget.
  destruct (i <? 0) eqn:Hneg;
    destruct ((_ <? 0) || _) eqn:Hout; try discriminate;
    apply orb_false_iff in Hout; destruct Hout as [H1 H2];
    apply Z.ltb_ge in H1; apply Z.leb_gt in H2;
    destruct (nth_error a _) eqn:Hnth; try discriminate;
    inversion Hget; subst; split; auto.
  - apply Z.ltb_lt in Hneg. lia.
  - apply Z.ltb_ge in Hneg. lia.
Qed.

Lemma getitem_out_of_range (A : Type) (a : list A) (i : Z) :
  len a <= i \/ i < - len a -> getitem a i = Exc IndexError.
Proof.
  intros Hout. unfold getitem.
  destruct (i <? 0) eqn:Hneg.
  - apply Z.ltb_lt in Hneg.
    replace (i + len a <? 0) with true; [reflexivity|].
    symmetry. apply Z.ltb_lt. pose proof (len_nonneg _ a). lia.
  - apply Z.ltb_ge in Hneg.
    replace (len a <=? i) with true by (symmetry; apply Z.leb_le; lia).
    rewrite orb_true_r. reflexivity.
Qed.

Lemma getitem_total (A : Type) (a : list A) (i : Z) :
  getitem a i <> OutOfFuel.
Proof.
  unfold getitem. destruct (_ || _); [discriminate|].
  destruct (nth_error a _); discriminate.
Qed.

Lemma take_shifted (A : Type) (pre a rest : list A) :
  take (pre ++ a ++ rest) (range (len pre) (len pre + len a)) = Ret a.
Proof.
  revert pre. induction a as [|x a IH]; intros pre.
  - rewrite range_empty by (rewrite len_nil; lia). reflexivity.
  - rewrite range_cons by (rewrite len_cons; pose proof (len_nonneg _ a); lia).
    unfold take. cbn [mapM].
    rewrite (getitem_nth_error _ (pre ++ (x :: a) ++ rest) (len pre) x).
    + cbn [bind]. specialize (IH (pre ++ [x])).
      rewrite <- app_assoc in IH. cbn [app] in IH.
      rewrite len_app, len_cons, len_nil in IH.
      rewrite len_cons.
      replace (len pre + (1 + len a)) with (len pre + (1 + 0) + len a) by lia.
      replace (len pre + 1) with (len pre + (1 + 0)) by lia.
      unfold take in IH. cbn [app]. rewrite IH. reflexivity.
    + apply len_nonneg.
    + unfold len. rewrite Nat2Z.id. rewrite nth_error_app2 by lia.
      rewrite Nat.sub_diag. reflexivity.
Qed.

Lemma take_all (A : Type) (a : list A) : take a (range 0 (len a)) = Ret a.
Proof.
  pose proof (take_shifted A [] a []) as H. cbn [app] in H.
  rewrite app_nil_r in H. exact H.
Qed.

Lemma take_prefix (A : Type) (a : list A) (n : nat) :
  (n <= length a)%nat -> take a (range 0 (Z.of_nat n)) = Ret (firstn n a).
Proof.
  intros Hn. pose proof (take_shifted A [] (firstn n a) (skipn n a)) as H.
  cbn [app] in H. rewrite firstn_skipn in H.
  unfold len in H. rewrite length_firstn, Nat.min_l in H by exact Hn.
  exact H.
Qed.

Lemma slice_range (n lo hi : Z) :
  0 <= lo -> lo <= hi -> hi <= n ->
  slice (range 0 n) (Some lo) (Some hi) = range lo hi.
Proof.
  intros H0 H1 H2. unfold slice, lo_bound, hi_bound, clip.
  rewrite len_range by lia.
  replace (lo <? 0) with false by (symmetry; apply Z.ltb_ge; lia).
  replace (hi <? 0) with false by (symmetry; apply Z.ltb_ge; lia).
  rewrite !Z.min_l by lia. replace (n - 0) with n by lia.
  rewrite (range_app 0 lo n) by lia.
  rewrite skipn_app. rewrite length_range.
  replace (Z.to_nat lo - Z.to_nat (lo - 0))%nat with O by lia.
  rewrite skipn_all2 by (rewrite length_range; lia).
  cbn [skipn app].
  rewrite (range_app lo hi n) by lia.
  rewrite firstn_app, length_range.
  replace (Z.to_nat (hi - lo) - Z.to_nat (hi - lo))%nat with O by lia.
  rewrite firstn_all2 by (rewrite length_range; lia).
  cbn [firstn]. apply app_nil_r.
Qed.

(** ** Sorting a sorted array *)

Lemma sort_keys_sorted (a : list Q) (idxs : list Z) :
  Sorted Qle a -> Np.sort_keys (combine a idxs) = combine a idxs.
Proof.
  intros Hs. revert idxs. induction Hs as [|x a Hs IH Hhd]; intros idxs.
  - reflexivity.
  - destruct idxs as [|i idxs]; [reflexivity|].
    cbn [combine]. unfold Np.sort_keys in *. cbn [fold_right]. rewrite IH.
    destruct Hhd as [|y a Hxy]; [reflexivity|].
    destruct idxs as [|j idxs]; [reflexivity|].
    cbn [combine Np.insert_key fst].
    apply Qle_bool_iff in Hxy. rewrite Hxy. reflexivity.
Qed.

Lemma map_snd_combine_eq (A B : Type) (l : list A) (m : list B) :
  length l = length m -> map snd (combine l m) = m.
Proof.
  revert m. induction l as [|x l IH]; intros [|y m] Hlen;
    try discriminate; [reflexivity|].
  cbn [combine map snd]. f_equal. apply IH. cbn in Hlen. lia.
Qed.

Lemma argsort_sorted (a : list Q) :
  Sorted Qle a -> Np.argsort a = range 0 (len a).
Proof.
  intros Hs. unfold Np.argsort. rewrite sort_keys_sorted by assumption.
  apply map_snd_combine_eq. rewrite length_range. unfold len. lia.
Qed.

(** ** Runs of equal values *)

Lemma slice_tail (A : Type) (l : list A) : slice l (Some 1) None = tl l.
Proof.
  destruct l as [|x l]; [reflexivity|].
  unfold slice, lo_bound, hi_bound, clip. rewrite len_cons.
  pose proof (len_nonneg _ l) as Hl.
  replace (1 <? 0) with false by reflexivity.
  rewrite Z.min_l by lia.
  replace (Z.to_nat (1 + len l - 1)) with (length l) by (unfold len; lia).
  change (Z.to_nat 1) with 1%nat. cbn [skipn tl]. apply firstn_all.
Qed.

Lemma split_run_pieces (n st i : Z) (prev : Q) (suf : list Q) :
  0 <= st <= i -> n = i + len suf ->
  Np.split_from (range 0 n) st
    (Np.select (Np.change_mask (Some prev) suf) (range i n))
  = run_pieces n st i prev suf.
Proof.
  revert st i prev. induction suf as [|x suf IH]; intros st i prev Hst Hn.
  - rewrite len_nil in Hn. rewrite (range_empty i n) by lia.
    cbn [Np.change_mask Np.select Np.split_from run_pieces].
    rewrite len_range by lia. replace (n - 0) with n by lia.
    rewrite slice_range by lia. reflexivity.
  - rewrite len_cons in Hn. pose proof (len_nonneg _ suf) as Hl.
    rewrite (range_cons i n) by lia.
    cbn [Np.change_mask Np.select run_pieces].
    destruct (Qeq_bool x prev) eqn:Heq; cbn [negb].
    + apply IH; lia.
    + cbn [Np.split_from]. rewrite slice_range by lia.
      f_equal. apply IH; lia.
Qed.

Lemma concat_run_pieces (n st i : Z) (prev : Q) (suf : list Q) :
  0 <= st <= i -> n = i + len suf ->
  concat (run_pieces n st i prev suf) = range st n.
Proof.
  revert st i prev. induction suf as [|x suf IH]; intros st i prev Hst Hn.
  - cbn [run_pieces concat]. apply app_nil_r.
  - rewrite len_cons in Hn. pose proof (len_nonneg _ suf) as Hl.
    cbn [run_pieces]. destruct (Qeq_bool x prev).
    + apply IH; lia.
    + cbn [concat]. rewrite IH by lia. symmetry. apply range_app; lia.
Qed.

Lemma value_app_r (pre suf : list Q) (i : Z) :
  len pre <= i -> value (pre ++ suf) i = value suf (i - len pre).
Proof.
  intros Hi. unfold value, len in *. rewrite app_nth2 by lia.
  f_equal. lia.
Qed.

Lemma value_middle (pre suf : list Q) (x : Q) :
  value (pre ++ x :: suf) (len pre) = x.
Proof.
  rewrite value_app_r by lia. rewrite Z.sub_diag. reflexivity.
Qed.

Lemma run_pieces_spec (a pre suf : list Q) (st i : Z) (prev : Q) :
  a = pre ++ suf -> len pre = i -> 0 <= st < i ->
  (forall k, st <= k < i -> (value a k == prev)%Q) ->
  (st = 0 \/ ~ (value a (st - 1) == value a st)%Q) ->
  forall g,
    In g (run_pieces (len a) st i prev suf) <->
    exists s e, g = range s e /\ is_run a s e /\ st <= s.
Proof.
  revert pre st i prev.
  induction suf as [|x suf IH]; intros pre st i prev Ha Hi Hst Hprev Hleft g.
  - rewrite app_nil_r in Ha. subst pre. cbn [run_pieces In].
    assert (Hall : forall k, st <= k < i -> (value a k == value a st)%Q).
    { intros k Hk. rewrite (Hprev k Hk). symmetry. apply Hprev. lia. }
    split.
    + intros [Hg|[]]. exists st, (len a). subst g.
      split; [reflexivity|]. split; [|lia].
      unfold is_run. split; [lia|]. split; [lia|].
      split; [intros k Hk; apply Hall; lia|]. split; [exact Hleft|].
      left. reflexivity.
    + intros [s [e [Hg [[Hse [He [Heq [Hl Hr]]]] Hs]]]].
      left. subst g.
      assert (s = st).
      { destruct (Z.eq_dec s st) as [|Hne]; [assumption|exfalso].
        destruct Hl as [Hl|Hl]; [lia|]. apply Hl.
        rewrite (Hprev (s - 1)) by lia. symmetry. apply Hprev. lia. }
      assert (e = len a).
      { destruct (Z.eq_dec e (len a)) as [|Hne]; [assumption|exfalso].
        destruct Hr as [Hr|Hr]; [lia|]. apply Hr.
        rewrite (Hprev e) by lia. symmetry. apply Hprev. lia. }
      subst. reflexivity.
  - assert (Hx : value a i = x) by (subst a i; apply value_middle).
    assert (Hlen : len a = i + 1 + len suf)
      by (subst a; rewrite len_app, len_cons; lia).
    pose proof (len_nonneg _ suf) as Hsuf.
    assert (Ha' : a = (pre ++ [x]) ++ suf)
      by (rewrite <- app_assoc; exact Ha).
    assert (Hi' : len (pre ++ [x]) = i + 1)
      by (rewrite len_app, len_cons, len_nil; lia).
    cbn [run_pieces]. destruct (Qeq_bool x prev) eqn:Heq.
    + apply Qeq_bool_iff in Heq.
      apply (IH (pre ++ [x])); auto; [lia|].
      intros k Hk. destruct (Z.eq_dec k i) as [->|Hne].
      * rewrite Hx. reflexivity.
      * rewrite (Hprev k) by lia. symmetry. exact Heq.
    + apply Qeq_bool_neq in Heq.
      assert (Hall : forall k, st <= k < i -> (value a k == value a st)%Q).
      { intros k Hk. rewrite (Hprev k Hk). symmetry. apply Hprev. lia. }
      assert (Hcut : ~ (value a i == value a st)%Q).
      { rewrite Hx. rewrite (Hprev st) by lia. exact Heq. }
      specialize (IH (pre ++ [x]) i (i + 1) x Ha' Hi').
      assert (IH' : forall g,
                 In g (run_pieces (len a) i (i + 1) x suf) <->
                 exists s e, g = range s e /\ is_run a s e /\ i <= s).
      { apply IH; [lia| |].
        - intros k Hk. replace k with i by lia. rewrite Hx. reflexivity.
        - right. rewrite Hx. rewrite (Hprev (i - 1)) by lia.
          intros Hc. apply Heq. symmetry. exact Hc. }
      cbn [In]. split.
      * intros [Hg|Hin].
        -- exists st, i. subst g. split; [reflexivity|]. split; [|lia].
           unfold is_run. split; [lia|]. split; [lia|].
           split; [exact Hall|]. split; [exact Hleft|]. right. exact Hcut.
        -- apply IH' in Hin. destruct Hin as [s [e [Hg [Hrun Hs]]]].
           exists s, e. split; [exact Hg|]. split; [exact Hrun|lia].
      * intros [s [e [Hg [[Hse [He [Hvals [Hl Hr]]]] Hs]]]].
        destruct (Z_lt_le_dec s i) as [Hlt|Hge].
        -- left. subst g.
           assert (s = st).
           { destruct (Z.eq_dec s st) as [|Hne]; [assumption|exfalso].
             destruct Hl as [Hl|Hl]; [lia|]. apply Hl.
             rewrite (Hprev (s - 1)) by lia. symmetry. apply Hprev. lia. }
           subst s.
           assert (e = i).
           { destruct (Z_lt_le_dec i e) as [Hie|Hie].
             - exfalso. apply Hcut. apply Hvals. lia.
             - destruct (Z.eq_dec e i) as [|Hne]; [assumption|exfalso].
               destruct Hr as [Hr|Hr]; [lia|]. apply Hr. apply Hall. lia. }
           subst e. reflexivity.
        -- right. apply IH'. exists s, e. split; [exact Hg|].
           split; [|exact Hge]. unfold is_run. auto.
Qed.

Lemma StronglySorted_app_iff (A : Type) (R : A -> A -> Prop) (l1 l2 : list A) :
  StronglySorted R (l1 ++ l2) <->
  StronglySorted R l1 /\ StronglySorted R l2 /\
  (forall x y, In x l1 -> In y l2 -> R x y).
Proof.
  induction l1 as [|a l1 IH]; cbn [app].
  - split.
    + intros H. split; [constructor|]. split; [assumption|]. intros x y [].
    + intros [_ [H _]]. exact H.
  - split.
    + intros H. apply StronglySorted_inv in H. destruct H as [Hs Hall].
      apply IH in Hs. destruct Hs as [H1 [H2 H12]].
      rewrite Forall_app in Hall. destruct Hall as [Ha1 Ha2].
      split; [constructor; assumption|]. split; [assumption|].
      intros x y [->|Hx] Hy.
      * rewrite Forall_forall in Ha2. apply Ha2. exact Hy.
      * apply H12; assumption.
    + intros [H1 [H2 H12]]. apply StronglySorted_inv in H1.
      destruct H1 as [H1 Ha1]. constructor.
      * apply IH. split; [assumption|]. split; [assumption|].
        intros x y Hx Hy. apply H12; [right; exact Hx|exact Hy].
      * rewrite Forall_app. split; [assumption|].
        rewrite Forall_forall. intros y Hy. apply H12; [left; reflexivity|].
        exact Hy.
Qed.

Lemma in_concat_filter (A : Type) (f : list A -> bool) (l : list (list A))
    (x : A) :
  In x (concat (filter f l)) -> In x (concat l).
Proof.
  rewrite !in_concat. intros [g [Hg Hx]]. apply filter_In in Hg.
  exists g. tauto.
Qed.

Lemma StronglySorted_concat_filter (A : Type) (R : A -> A -> Prop)
    (f : list A -> bool) (l : list (list A)) :
  StronglySorted R (concat l) -> StronglySorted R (concat (filter f l)).
Proof.
  induction l as [|g l IH]; cbn [concat filter]; [trivial|].
  intros H. apply StronglySorted_app_iff in H. destruct H as [Hg [Hl Hgl]].
  destruct (f g); [|apply IH; exact Hl].
  cbn [concat]. apply StronglySorted_app_iff.
  split; [exact Hg|]. split; [apply IH; exact Hl|].
  intros x y Hx Hy. apply Hgl; [exact Hx|].
  apply in_concat_filter with (f := f). exact Hy.
Qed.

Lemma StronglySorted_range (lo hi : Z) : StronglySorted Z.lt (range lo hi).
Proof.
  remember (Z.to_nat (hi - lo)) as n eqn:Hn. revert lo Hn.
  induction n as [|n IH]; intros lo Hn.
  - rewrite range_empty by lia. constructor.
  - rewrite range_cons by lia. constructor; [apply IH; lia|].
    rewrite Forall_forall. intros x Hx. apply in_range in Hx. lia.
Qed.

Lemma StronglySorted_nth (A : Type) (R : A -> A -> Prop) (d : A) (l : list A) :
  StronglySorted R l ->
  forall i k, (i < k < length l)%nat -> R (nth i l d) (nth k l d).
Proof.
  induction 1 as [|x l Hs IH Hall]; intros i k Hik; cbn [length] in Hik;
    [lia|].
  destruct k as [|k]; [lia|]. destruct i as [|i]; cbn [nth].
  - rewrite Forall_forall in Hall. apply Hall. apply nth_In. lia.
  - apply IH. lia.
Qed.

Lemma sorted_value_le (a : list Q) (i k : Z) :
  Sorted Qle a -> 0 <= i <= k -> k < len a -> (value a i <= value a k)%Q.
Proof.
  intros Hs Hik Hk.
  apply Sorted_StronglySorted in Hs; [|exact Qle_trans].
  destruct (Z.eq_dec i k) as [->|Hne]; [apply Qle_refl|].
  unfold value. apply StronglySorted_nth; [exact Hs|]. unfold len in Hk. lia.
Qed.

Lemma sorted_between (a : list Q) (i k j : Z) :
  Sorted Qle a -> 0 <= i <= k -> k <= j -> j < len a ->
  (value a i == value a j)%Q -> (value a k == value a i)%Q.
Proof.
  intros Hs Hik Hkj Hj Heq. apply Qle_antisym.
  - rewrite Heq. apply sorted_value_le; [exact Hs|lia|lia].
  - apply sorted_value_le; [exact Hs|lia|lia].
Qed.

Lemma Sorted_Qlt_Qle (a : list Q) : Sorted Qlt a -> Sorted Qle a.
Proof.
  induction 1 as [|x a Hs IH Hhd]; constructor; [exact IH|].
  destruct Hhd; constructor. apply Qlt_le_weak. assumption.
Qed.

Lemma find_duplicates_pieces (x : Q) (a : list Q) :
  Sorted Qle (x :: a) ->
  find_duplicates (x :: a)
  = Ret (filter (fun g => 1 <? len g)
           (run_pieces (len (x :: a)) 0 1 x a)).
Proof.
  intros Hs. unfold find_duplicates, Np.unique_index.
  rewrite argsort_sorted by exact Hs. rewrite take_all. cbn [bind].
  unfold Np.arange. rewrite (range_cons 0 (len (x :: a)))
    by (rewrite len_cons; pose proof (len_nonneg _ a); lia).
  cbn [Np.change_mask Np.select]. rewrite slice_tail. cbn [tl].
  rewrite <- (range_cons 0 (len (x :: a)))
    by (rewrite len_cons; pose proof (len_nonneg _ a); lia).
  unfold Np.split. change (0 + 1) with 1.
  rewrite split_run_pieces; [reflexivity|lia|apply len_cons].
Qed.

Lemma find_duplicates_sorted (a : list Q) :
  Sorted Qle a ->
  exists gs, find_duplicates a = Ret gs /\ duplicate_groups a gs.
Proof.
  intros Hs. destruct a as [|x a'].
  { exists []. split; [reflexivity|]. unfold duplicate_groups.
    split; [|split].
    - intros g. split; [intros []|].
      intros [s [e [_ [[H1 [H2 _]] _]]]]. rewrite len_nil in H2. lia.
    - constructor.
    - intros i. split; [intros []|]. rewrite len_nil. lia. }
  set (a := x :: a') in *.
  set (pieces := run_pieces (len a) 0 1 x a').
  exists (filter (fun g => 1 <? len g) pieces).
  split; [apply find_duplicates_pieces; exact Hs|].
  assert (Hlen : len a = 1 + len a') by apply len_cons.
  pose proof (len_nonneg _ a') as Hnn.
  assert (Hspec : forall g, In g pieces <->
            exists s e, g = range s e /\ is_run a s e /\ 0 <= s).
  { apply (run_pieces_spec a [x] a' 0 1 x); auto; [lia|].
    intros k Hk. replace k with 0 by lia. reflexivity. }
  assert (Hcat : concat pieces = range 0 (len a))
    by (apply concat_run_pieces; lia).
  assert (Hgroups : forall g, In g (filter (fun g => 1 <? len g) pieces) <->
            exists s e, g = range s e /\ is_run a s e /\ 2 <= e - s).
  { intros g. rewrite filter_In, Hspec. split.
    - intros [[s [e [Hg [Hrun _]]]] Hl]. exists s, e.
      split; [exact Hg|]. split; [exact Hrun|].
      subst g. apply Z.ltb_lt in Hl. destruct Hrun as [Hse _].
      rewrite len_range in Hl by lia. lia.
    - intros [s [e [Hg [Hrun Hl]]]]. split.
      + exists s, e. destruct Hrun as [Hse Hrest].
        split; [exact Hg|]. split; [split; assumption|lia].
      + subst g. apply Z.ltb_lt. rewrite len_range by lia. lia. }
  unfold duplicate_groups. split; [exact Hgroups|]. split.
  { apply StronglySorted_concat_filter. rewrite Hcat.
    apply StronglySorted_range. }
  intros i. split.
  - intros Hin. apply in_concat in Hin. destruct Hin as [g [Hg Hi]].
    apply Hgroups in Hg.
    destruct Hg as [s [e [Hg [[Hse [He [Hvals _]]] Hl]]]].
    subst g. apply in_range in Hi. split; [lia|].
    destruct (Z.eq_dec i s) as [->|Hne].
    + exists (s + 1). split; [lia|]. split; [lia|]. apply Hvals. lia.
    + exists s. split; [lia|]. split; [lia|]. symmetry. apply Hvals. lia.
  - intros [Hi [j [Hj [Hne Heq]]]].
    assert (Hin : In i (concat pieces)) by (rewrite Hcat; apply in_range; lia).
    apply in_concat in Hin. destruct Hin as [g [Hg Hig]].
    apply in_concat. exists g. split; [|exact Hig].
    apply Hgroups. apply Hspec in Hg.
    destruct Hg as [s [e [Hg [Hrun _]]]]. exists s, e.
    split; [exact Hg|]. split; [exact Hrun|].
    subst g. apply in_range in Hig.
    destruct Hrun as [Hse [He [Hvals [Hl Hr]]]].
    destruct (Z_lt_le_dec i j) as [Hij|Hji].
    + assert (Hnext : (value a (i + 1) == value a i)%Q).
      { apply (sorted_between a i (i + 1) j); auto; try lia.
        symmetry. exact Heq. }
      destruct (Z.eq_dec e (i + 1)) as [->|Hne']; [exfalso|lia].
      destruct Hr as [Hr|Hr]; [lia|]. apply Hr.
      rewrite Hnext. apply Hvals. lia.
    + assert (Hprev : (value a (i - 1) == value a i)%Q).
      { rewrite <- Heq. apply (sorted_between a j (i - 1) i); auto; lia. }
      destruct (Z.eq_dec s i) as [->|Hne']; [exfalso|lia].
      destruct Hl as [Hl|Hl]; [lia|]. apply Hl. exact Hprev.
Qed.

(** C8.  On a sorted array, [find_duplicates] returns one index group for
    each maximal run of at least two equal values, in ascending order of
    position, each group holding the indices of its run, and an index is
    yielded exactly when its value occurs more than once.  On the test
    arrays: the array [1, 2.001, 2.003, 1.999, 3] rounded to two decimals is
    [1, 2, 2, 2, 3] and gives the one group [1, 2, 3]; the array
    [1, 1, 2, 2, 3, 4, 4] gives [0, 1], [2, 3] and [5, 6]; a strictly
    increasing array gives no group. *)
Theorem find_duplicates_yields_runs :
  (forall a, Sorted Qle a ->
     exists gs, find_duplicates a = Ret gs /\ duplicate_groups a gs) /\
  (map (fun x => round x 2) [1; 2.001; 2.003; 1.999; 3]%Q = [1; 2; 2; 2; 3]%Q
   /\ find_duplicates [1; 2; 2; 2; 3]%Q = Ret [[1; 2; 3]]) /\
  find_duplicates [1; 1; 2; 2; 3; 4; 4]%Q = Ret [[0; 1]; [2; 3]; [5; 6]] /\
  (forall a, Sorted Qlt a -> find_duplicates a = Ret []).
Proof.
  split; [exact find_duplicates_sorted|].
  split; [split; vm_compute; reflexivity|].
  split; [vm_compute; reflexivity|].
  intros a Hlt.
  destruct (find_duplicates_sorted a (Sorted_Qlt_Qle a Hlt))
    as [gs [Hfd [Hgroups _]]].
  rewrite Hfd. f_equal. destruct gs as [|g gs]; [reflexivity|exfalso].
  destruct (proj1 (Hgroups g) (or_introl eq_refl))
    as [s [e [_ [[Hse [He [Hvals _]]] Hl]]]].
  apply Sorted_StronglySorted in Hlt; [|exact Qlt_trans].
  assert (Hstrict : (value a s < value a (s + 1))%Q).
  { unfold value. apply StronglySorted_nth; [exact Hlt|].
    unfold len in He. lia. }
  apply (Qlt_not_eq _ _ Hstrict). symmetry. apply Hvals. lia.
Qed.

Lemma find_duplicates_yields_runs_witness :
  Sorted Qle [0; 0; 0; 1; 2; 2; 3]%Q /\
  exists gs, find_duplicates [0; 0; 0; 1; 2; 2; 3]%Q = Ret gs /\
             duplicate_groups [0; 0; 0; 1; 2; 2; 3]%Q gs.
Proof.
  assert (Hs : Sorted Qle [0; 0; 0; 1; 2; 2; 3]%Q)
    by (repeat constructor; discriminate).
  split; [exact Hs|].
  exact (proj1 find_duplicates_yields_runs _ Hs).
Defined.

(** ** The edges of the zone *)

Lemma value_head (x : Q) (a : list Q) : value (x :: a) 0 = x.
Proof. reflexivity. Qed.

Lemma value_tail (x : Q) (a : list Q) (k : Z) :
  0 < k -> value (x :: a) k = value a (k - 1).
Proof.
  intros Hk. unfold value.
  replace (Z.to_nat k) with (S (Z.to_nat (k - 1))) by lia. reflexivity.
Qed.

Lemma getitem_value (a : list Q) (i : Z) :
  0 <= i < len a -> getitem a i = Ret (value a i).
Proof. intros Hi. apply getitem_nth. exact Hi. Qed.

Lemma in_value (a : list Q) (v : Q) :
  In v a -> exists k, 0 <= k < len a /\ value a k = v.
Proof.
  intros Hin. apply (In_nth _ _ 0%Q) in Hin. destruct Hin as [n [Hn Hv]].
  exists (Z.of_nat n). split; [unfold len; lia|].
  unfold value. rewrite Nat2Z.id. exact Hv.
Qed.

Lemma searchsorted_left_bounds (a : list Q) (v : Q) :
  0 <= Np.searchsorted_left a v <= len a.
Proof.
  induction a as [|x a IH]; cbn [Np.searchsorted_left].
  - rewrite len_nil. lia.
  - rewrite len_cons. destruct (Qle_bool v x); lia.
Qed.

Lemma searchsorted_right_bounds (a : list Q) (v : Q) :
  0 <= Np.searchsorted_right a v <= len a.
Proof.
  induction a as [|x a IH]; cbn [Np.searchsorted_right].
  - rewrite len_nil. lia.
  - rewrite len_cons. destruct (Qle_bool x v); lia.
Qed.

Lemma searchsorted_left_below (a : list Q) (v : Q) (k : Z) :
  0 <= k < Np.searchsorted_left a v -> (value a k < v)%Q.
Proof.
  revert k. induction a as [|x a IH]; intros k Hk;
    cbn [Np.searchsorted_left] in Hk; [lia|].
  destruct (Qle_bool v x) eqn:Hle; [lia|].
  destruct (Z.eq_dec k 0) as [->|Hne].
  - rewrite value_head. apply Qnot_le_lt. intros Hc.
    apply Qle_bool_iff in Hc. congruence.
  - rewrite value_tail by lia. apply IH. lia.
Qed.

Lemma searchsorted_right_below (a : list Q) (v : Q) (k : Z) :
  0 <= k < Np.searchsorted_right a v -> (value a k <= v)%Q.
Proof.
  revert k. induction a as [|x a IH]; intros k Hk;
    cbn [Np.searchsorted_right] in Hk; [lia|].
  destruct (Qle_bool x v) eqn:Hle; [|lia].
  destruct (Z.eq_dec k 0) as [->|Hne].
  - rewrite value_head. apply Qle_bool_iff. exact Hle.
  - rewrite value_tail by lia. apply IH. lia.
Qed.

Lemma searchsorted_left_above (a : list Q) (v : Q) (k : Z) :
  Sorted Qle a -> Np.searchsorted_left a v <= k < len a ->
  (v <= value a k)%Q.
Proof.
  intros Hs. revert k. induction a as [|x a IH]; intros k Hk;
    cbn [Np.searchsorted_left] in Hk; [rewrite len_nil in Hk; lia|].
  pose proof (searchsorted_left_bounds a v) as Hb.
  destruct (Qle_bool v x) eqn:Hle.
  - apply Qle_bool_iff in Hle.
    apply Qle_trans with (y := value (x :: a) 0); [exact Hle|].
    apply sorted_value_le; [exact Hs|lia|lia].
  - rewrite len_cons in Hk. rewrite value_tail by lia.
    apply IH; [apply Sorted_inv in Hs; tauto|lia].
Qed.

Lemma searchsorted_right_above (a : list Q) (v : Q) (k : Z) :
  Sorted Qle a -> Np.searchsorted_right a v <= k < len a ->
  (v < value a k)%Q.
Proof.
  intros Hs. revert k. induction a as [|x a IH]; intros k Hk;
    cbn [Np.searchsorted_right] in Hk; [rewrite len_nil in Hk; lia|].
  pose proof (searchsorted_right_bounds a v) as Hb.
  destruct (Qle_bool x v) eqn:Hle.
  - rewrite len_cons in Hk. rewrite value_tail by lia.
    apply IH; [apply Sorted_inv in Hs; tauto|lia].
  - apply Qlt_le_trans with (y := value (x :: a) 0).
    + apply Qnot_le_lt. intros Hc. apply Qle_bool_iff in Hc.
      rewrite value_head in Hc. congruence.
    + apply sorted_value_le; [exact Hs|lia|lia].
Qed.

(** The lower loop stops at or before a position that holds another value
    than [-edge], and reads nothing outside the positions up to there. *)
Lemma lower_edge_loop_stops (ev : list Q) (edge : Q) (lower p : Z) :
  p < len ev -> ~ (value ev p == - edge)%Q ->
  forall fuel n,
    0 <= lower + n <= p -> (Z.to_nat (p - (lower + n)) < fuel)%nat ->
    exists m,
      n <= m /\ lower + m <= p /\
      snd (lower_edge_loop fuel ev edge lower n) = Ret m /\
      Forall (fun i => lower + n <= i <= p)
             (fst (lower_edge_loop fuel ev edge lower n)).
Proof.
  intros Hp Hstop. induction fuel as [|fuel IH]; intros n Hn Hfuel; [lia|].
  cbn [lower_edge_loop]. rewrite getitem_value by lia.
  destruct (Qeq_bool (value ev (lower + n)) (- edge)) eqn:Heq.
  - apply Qeq_bool_iff in Heq.
    assert (Hne : lower + n <> p)
      by (intros Hc; apply Hstop; rewrite <- Hc; exact Heq).
    destruct (IH (n + 1)) as [m [Hnm [Hm [Hr Hreads]]]]; [lia|lia|].
    destruct (lower_edge_loop fuel ev edge lower (n + 1)) as [reads r].
    cbn [fst snd] in *. exists m. split; [lia|]. split; [exact Hm|].
    split; [exact Hr|]. constructor; [lia|].
    eapply Forall_impl; [|exact Hreads]. cbv beta. intros i Hi. lia.
  - exists n. cbn [fst snd]. split; [lia|]. split; [lia|].
    split; [reflexivity|]. constructor; [lia|constructor].
Qed.

(** The upper loop, likewise, going down. *)
Lemma upper_edge_loop_stops (ev : list Q) (edge : Q) (upper p : Z) :
  0 <= p -> ~ (value ev p == edge)%Q ->
  forall fuel n,
    p <= upper - n - 1 < len ev ->
    (Z.to_nat (upper - n - 1 - p) < fuel)%nat ->
    exists m,
      n <= m /\ p <= upper - m - 1 /\
      snd (upper_edge_loop fuel ev edge upper n) = Ret m /\
      Forall (fun i => p <= i <= upper - n - 1)
             (fst (upper_edge_loop fuel ev edge upper n)).
Proof.
  intros Hp Hstop. induction fuel as [|fuel IH]; intros n Hn Hfuel; [lia|].
  cbn [upper_edge_loop]. rewrite getitem_value by lia.
  destruct (Qeq_bool (value ev (upper - n - 1)) edge) eqn:Heq.
  - apply Qeq_bool_iff in Heq.
    assert (Hne : upper - n - 1 <> p)
      by (intros Hc; apply Hstop; rewrite <- Hc; exact Heq).
    destruct (IH (n + 1)) as [m [Hnm [Hm [Hr Hreads]]]]; [lia|lia|].
    destruct (upper_edge_loop fuel ev edge upper (n + 1)) as [reads r].
    cbn [fst snd] in *. exists m. split; [lia|]. split; [exact Hm|].
    split; [exact Hr|]. constructor; [lia|].
    eapply Forall_impl; [|exact Hreads]. cbv beta. intros i Hi. lia.
  - exists n. cbn [fst snd]. split; [lia|]. split; [lia|].
    split; [reflexivity|]. constructor; [lia|constructor].
Qed.

Lemma first_brillouin_zone_sorted_input (V : Type) (ev : list Q)
    (vecs : list V) (n_values : Z) (edge : Q) :
  Sorted Qle ev -> (length ev <= length vecs)%nat ->
  first_brillouin_zone ev vecs n_values edge
  = (let vecs := firstn (length ev) vecs in
     let lower := Np.searchsorted_left ev (- edge) in
     let upper := Np.searchsorted_right ev edge in
     let fuel := edge_fuel ev in
     n_lower_edge <- snd (lower_edge_loop fuel ev edge lower 0) ;;
     n_upper_edge <- snd (upper_edge_loop fuel ev edge upper 0) ;;
     let n_not_on_edge := (upper - n_upper_edge) - (lower + n_lower_edge) in
     '(lower, upper) <-
       (if n_not_on_edge =? n_values then
          Ret (lower + n_lower_edge, upper - n_upper_edge)
        else if n_not_on_edge + n_lower_edge =? n_values then
          Ret (lower, upper - n_upper_edge)
        else if n_not_on_edge + n_upper_edge =? n_values then
          Ret (lower + n_lower_edge, upper)
        else Exc RuntimeError) ;;
     Ret (slice ev (Some lower) (Some upper),
          slice vecs (Some lower) (Some upper))).
Proof.
  intros Hs Hlen. unfold first_brillouin_zone.
  rewrite argsort_sorted by exact Hs. rewrite take_all. cbn [bind].
  unfold len at 1. rewrite take_prefix by exact Hlen. reflexivity.
Qed.

(** C9.  When the sorted, non-empty array holds a value above [-edge] and a
    value below [edge], every index that the two edge-counting loops read
    lies within the array, and the function returns a selection or raises
    the zone-resolution error, nothing else. *)
Theorem edge_loops_stay_in_bounds (V : Type) (eigenvalues : list Q)
    (eigenvectors : list V) (n_values : Z) (edge : Q) :
  eigenvalues <> [] -> Sorted Qle eigenvalues ->
  (length eigenvalues <= length eigenvectors)%nat ->
  (exists v, In v eigenvalues /\ (- edge < v)%Q) ->
  (exists v, In v eigenvalues /\ (v < edge)%Q) ->
  take eigenvalues (Np.argsort eigenvalues) = Ret eigenvalues /\
  Forall (fun i => 0 <= i < len eigenvalues) (edge_reads eigenvalues edge) /\
  (first_brillouin_zone eigenvalues eigenvectors n_values edge
     = Exc RuntimeError \/
   exists selection,
     first_brillouin_zone eigenvalues eigenvectors n_values edge
     = Ret selection).
Proof.
  intros _ Hs Hlen [v1 [Hin1 Hv1]] [v2 [Hin2 Hv2]].
  split; [rewrite argsort_sorted by exact Hs; apply take_all|].
  apply in_value in Hin1. destruct Hin1 as [p1 [Hp1 <-]].
  apply in_value in Hin2. destruct Hin2 as [p2 [Hp2 <-]].
  set (lower := Np.searchsorted_left eigenvalues (- edge)).
  set (upper := Np.searchsorted_right eigenvalues edge).
  pose proof (searchsorted_left_bounds eigenvalues (- edge)) as Hlo.
  pose proof (searchsorted_right_bounds eigenvalues edge) as Hup.
  fold lower in Hlo. fold upper in Hup.
  assert (Hlp : lower <= p1).
  { destruct (Z_lt_le_dec p1 lower) as [Hc|]; [exfalso|assumption].
    apply (Qlt_irrefl (- edge)).
    apply Qlt_trans with (y := value eigenvalues p1); [exact Hv1|].
    apply searchsorted_left_below. fold lower. lia. }
  assert (Hpu : p2 < upper).
  { destruct (Z_lt_le_dec p2 upper) as [|Hc]; [assumption|exfalso].
    apply (Qlt_irrefl edge).
    apply Qlt_trans with (y := value eigenvalues p2); [|exact Hv2].
    apply searchsorted_right_above; [exact Hs|]. fold upper. lia. }
  destruct (lower_edge_loop_stops eigenvalues edge lower p1)
    with (fuel := edge_fuel eigenvalues) (n := 0)
    as [nl [Hnl [Hnlp [Hrl Hreadl]]]].
  { lia. }
  { intros Hc. rewrite Hc in Hv1. exact (Qlt_irrefl _ Hv1). }
  { lia. }
  { unfold edge_fuel. unfold len in *. lia. }
  destruct (upper_edge_loop_stops eigenvalues edge upper p2)
    with (fuel := edge_fuel eigenvalues) (n := 0)
    as [nu [Hnu [Hnup [Hru Hreadu]]]].
  { lia. }
  { intros Hc. rewrite Hc in Hv2. exact (Qlt_irrefl _ Hv2). }
  { lia. }
  { unfold edge_fuel. unfold len in *. lia. }
  split.
  - unfold edge_reads. fold lower upper. apply Forall_app. split.
    + eapply Forall_impl; [|exact Hreadl]. cbv beta. intros i Hi. lia.
    + eapply Forall_impl; [|exact Hreadu]. cbv beta. intros i Hi. lia.
  - rewrite first_brillouin_zone_sorted_input by assumption.
    cbv zeta. fold lower upper. rewrite Hrl, Hru. cbn [bind].
    destruct (_ =? n_values); [right; eexists; reflexivity|].
    destruct (_ =? n_values); [right; eexists; reflexivity|].
    destruct (_ =? n_values); [right; eexists; reflexivity|].
    left. reflexivity.
Qed.

Lemma edge_loops_stay_in_bounds_witness :
  let ev := [-2; -1; 0; 1; 1; 3]%Q in
  let vecs := [7; 8; 9; 10; 11; 12] in
  take ev (Np.argsort ev) = Ret ev /\
  Forall (fun i => 0 <= i < len ev) (edge_reads ev 1) /\
  (first_brillouin_zone ev vecs 3 1 = Exc RuntimeError \/
   exists selection, first_brillouin_zone ev vecs 3 1 = Ret selection).
Proof.
  apply (edge_loops_stay_in_bounds Z [-2; -1; 0; 1; 1; 3]%Q
           [7; 8; 9; 10; 11; 12] 3 1%Q).
  - discriminate.
  - repeat constructor; discriminate.
  - cbn [length]. lia.
  - exists 0%Q. split; [cbn [In]; tauto|reflexivity].
  - exists 0%Q. split; [cbn [In]; tauto|reflexivity].
Defined.

(** C2.  An array whose only eigenvalue sits on the lower edge: the policy
    selects it (no interior value, one value on the lower edge, one value
    asked for), and the function raises [IndexError] from the loop that
    counts the lower edge, which reads one position past the end. *)
Theorem first_brillouin_zone_lower_edge_at_end (V : Type) (v : V) :
  zone_policy [-1]%Q [v] 1 1%Q = Ret ([-1]%Q, [v]) /\
  first_brillouin_zone [-1]%Q [v] 1 1%Q = Exc IndexError /\
  lower_edge_loop (edge_fuel [-1]%Q) [-1]%Q 1%Q 0 0
  = ([0; 1], Exc IndexError).
Proof. repeat split. Qed.

(** ** Results *)

Lemma bind_ret_inv (A B : Type) (m : result A) (k : A -> result B) (b : B) :
  bind m k = Ret b -> exists a, m = Ret a /\ k a = Ret b.
Proof. destruct m as [a| |]; cbn [bind]; try discriminate. eauto. Qed.

Lemma bind_total (A B : Type) (m : result A) (k : A -> result B) :
  m <> OutOfFuel -> (forall a, k a <> OutOfFuel) -> bind m k <> OutOfFuel.
Proof. destruct m; cbn [bind]; auto; discriminate. Qed.

Lemma mapM_total (A B : Type) (f : A -> result B) (l : list A) :
  (forall x, f x <> OutOfFuel) -> mapM f l <> OutOfFuel.
Proof.
  intros Hf. induction l as [|x l IH]; cbn [mapM]; [discriminate|].
  apply bind_total; [apply Hf|]. intros y.
  apply bind_total; [exact IH|]. discriminate.
Qed.

Lemma foldM_total (A S : Type) (body : S -> A -> result S) (l : list A) :
  (forall s x, body s x <> OutOfFuel) ->
  forall acc, foldM body l acc <> OutOfFuel.
Proof.
  intros Hb. induction l as [|x l IH]; intros acc; cbn [foldM];
    [discriminate|].
  apply bind_total; [apply Hb|]. exact IH.
Qed.

Lemma mapM_ret_inv (A B : Type) (f : A -> result B) (l : list A)
    (r : list B) :
  mapM f l = Ret r -> Forall2 (fun x y => f x = Ret y) l r.
Proof.
  revert r. induction l as [|x l IH]; intros r Hr; cbn [mapM] in Hr.
  - inversion Hr. constructor.
  - apply bind_ret_inv in Hr. destruct Hr as [y [Hy Hr]].
    apply bind_ret_inv in Hr. destruct Hr as [ys [Hys Hr]].
    inversion Hr. constructor; [exact Hy|]. apply IH. exact Hys.
Qed.

Lemma mapM_ret_intro (A B : Type) (f : A -> result B) (l : list A)
    (r : list B) :
  Forall2 (fun x y => f x = Ret y) l r -> mapM f l = Ret r.
Proof.
  induction 1 as [|x y l r Hxy Hlr IH]; cbn [mapM]; [reflexivity|].
  rewrite Hxy. cbn [bind]. rewrite IH. reflexivity.
Qed.

(** ** Sorting *)

Lemma insert_key_perm (x : Q * Z) (l : list (Q * Z)) :
  Permutation (Np.insert_key x l) (x :: l).
Proof.
  induction l as [|y l IH]; cbn [Np.insert_key]; [reflexivity|].
  destruct (Qle_bool (fst x) (fst y)); [reflexivity|].
  rewrite IH. apply perm_swap.
Qed.

Lemma sort_keys_perm (l : list (Q * Z)) : Permutation (Np.sort_keys l) l.
Proof.
  induction l as [|x l IH]; [reflexivity|].
  unfold Np.sort_keys in *. cbn [fold_right].
  rewrite insert_key_perm. apply perm_skip. exact IH.
Qed.

Lemma insert_key_sorted (x : Q * Z) (l : list (Q * Z)) :
  StronglySorted key_le l -> StronglySorted key_le (Np.insert_key x l).
Proof.
  induction 1 as [|y l Hs IH Hall]; cbn [Np.insert_key].
  - constructor; constructor.
  - destruct (Qle_bool (fst x) (fst y)) eqn:Hle.
    + apply Qle_bool_iff in Hle. constructor; [constructor; assumption|].
      constructor; [exact Hle|].
      eapply Forall_impl; [|exact Hall]. intros z Hz. unfold key_le in *.
      apply Qle_trans with (y := fst y); assumption.
    + constructor; [exact IH|].
      assert (Hyx : key_le y x).
      { unfold key_le. apply Qlt_le_weak. apply Qnot_le_lt. intros Hc.
        apply Qle_bool_iff in Hc. congruence. }
      rewrite Forall_forall. intros z Hz.
      apply (Permutation_in _ (insert_key_perm x l)) in Hz.
      destruct Hz as [<-|Hz]; [exact Hyx|].
      rewrite Forall_forall in Hall. apply Hall. exact Hz.
Qed.

Lemma sort_keys_sorted_keys (l : list (Q * Z)) :
  StronglySorted key_le (Np.sort_keys l).
Proof.
  induction l as [|x l IH]; [constructor|].
  unfold Np.sort_keys in *. cbn [fold_right].
  apply insert_key_sorted. exact IH.
Qed.

Lemma in_combine_range (pre a : list Q) (v : Q) (i : Z) :
  In (v, i) (combine a (range (len pre) (len pre + len a))) ->
  len pre <= i < len pre + len a /\
  getitem (pre ++ a) i = Ret v.
Proof.
  revert pre. induction a as [|x a IH]; intros pre Hin; [destruct Hin|].
  pose proof (len_nonneg _ a) as Ha. pose proof (len_nonneg _ pre) as Hp.
  rewrite len_cons in *. rewrite range_cons in Hin by lia.
  cbn [combine In] in Hin. destruct Hin as [Heq|Hin].
  - inversion Heq; subst. split; [lia|].
    apply getitem_nth_error; [lia|].
    unfold len. rewrite Nat2Z.id, nth_error_app2 by lia.
    rewrite Nat.sub_diag. reflexivity.
  - specialize (IH (pre ++ [x])).
    rewrite len_app, len_cons, len_nil, <- app_assoc in IH. cbn [app] in IH.
    replace (len pre + (1 + 0)) with (len pre + 1) in IH by lia.
    replace (len pre + 1 + len a) with (len pre + (1 + len a)) in IH by lia.
    destruct (IH Hin) as [H1 H2]. split; [lia|exact H2].
Qed.

Lemma sorted_map_fst (l : list (Q * Z)) :
  StronglySorted key_le l -> Sorted Qle (map fst l).
Proof.
  intros Hs. apply StronglySorted_Sorted.
  induction Hs as [|x l Hs IH Hall]; cbn [map]; constructor; [exact IH|].
  rewrite Forall_forall in *. intros v Hv. apply in_map_iff in Hv.
  destruct Hv as [y [<- Hy]]. apply Hall. exact Hy.
Qed.

Lemma NoDup_range (lo hi : Z) : NoDup (range lo hi).
Proof.
  remember (Z.to_nat (hi - lo)) as n eqn:Hn. revert lo Hn.
  induction n as [|n IH]; intros lo Hn.
  - rewrite range_empty by lia. constructor.
  - rewrite range_cons by lia. constructor; [|apply IH; lia].
    rewrite in_range. lia.
Qed.

(** What [argsort] and the two reorderings of [first_brillouin_zone] give. *)
Lemma argsort_spec (ev : list Q) :
  exists evs,
    take ev (Np.argsort ev) = Ret evs /\
    Sorted Qle evs /\
    NoDup (Np.argsort ev) /\
    Forall (fun i => 0 <= i < len ev) (Np.argsort ev) /\
    len (Np.argsort ev) = len ev.
Proof.
  unfold Np.argsort.
  set (pairs := Np.sort_keys (combine ev (range 0 (len ev)))).
  assert (Hperm : Permutation pairs (combine ev (range 0 (len ev))))
    by apply sort_keys_perm.
  assert (Hsnd : Permutation (map snd pairs) (range 0 (len ev))).
  { rewrite Hperm. rewrite map_snd_combine_eq; [reflexivity|].
    rewrite length_range. unfold len. lia. }
  assert (Hin : forall v i, In (v, i) pairs ->
                  0 <= i < len ev /\ getitem ev i = Ret v).
  { intros v i Hvi. apply (Permutation_in _ Hperm) in Hvi.
    apply (in_combine_range [] ev v i) in Hvi. rewrite len_nil in Hvi.
    cbn [app] in Hvi. split; [lia|tauto]. }
  exists (map fst pairs). split; [|split; [|split; [|split]]].
  - unfold take. apply mapM_ret_intro.
    clear Hperm Hsnd. induction pairs as [|[v i] l IH]; cbn [map];
      constructor.
    + apply (Hin v i). left. reflexivity.
    + apply IH. intros v' i' H'. apply Hin. right. exact H'.
  - apply sorted_map_fst. apply sort_keys_sorted_keys.
  - apply (Permutation_NoDup (Permutation_sym Hsnd)).
    apply NoDup_range.
  - rewrite Forall_forall. intros i Hi.
    apply (Permutation_in _ Hsnd) in Hi. apply in_range in Hi. lia.
  - unfold len at 1. rewrite (Permutation_length Hsnd), length_range.
    unfold len. lia.
Qed.

(** ** Slices *)

Lemma slice_inside (A : Type) (a : list A) (lo hi : Z) :
  0 <= lo <= len a -> 0 <= hi <= len a ->
  slice a (Some lo) (Some hi)
  = firstn (Z.to_nat (hi - lo)) (skipn (Z.to_nat lo) a).
Proof.
  intros Hlo Hhi. unfold slice, lo_bound, hi_bound, clip.
  replace (lo <? 0) with false by (symmetry; apply Z.ltb_ge; lia).
  replace (hi <? 0) with false by (symmetry; apply Z.ltb_ge; lia).
  rewrite !Z.min_l by lia. reflexivity.
Qed.

Lemma len_slice_inside (A : Type) (a : list A) (lo hi : Z) :
  0 <= lo <= len a -> 0 <= hi <= len a ->
  len (slice a (Some lo) (Some hi)) = Z.max 0 (hi - lo).
Proof.
  intros Hlo Hhi. rewrite slice_inside by assumption.
  unfold len in *. rewrite length_firstn, length_skipn. lia.
Qed.

Lemma in_slice_inside (a : list Q) (lo hi : Z) (v : Q) :
  0 <= lo <= len a -> 0 <= hi <= len a ->
  In v (slice a (Some lo) (Some hi)) ->
  exists k, lo <= k < hi /\ value a k = v.
Proof.
  intros Hlo Hhi Hin. rewrite slice_inside in Hin by assumption.
  apply (In_nth _ _ 0%Q) in Hin. destruct Hin as [n [Hn Hv]].
  rewrite length_firstn, length_skipn in Hn. unfold len in *.
  rewrite nth_firstn in Hv.
  destruct (Nat.ltb_spec n (Z.to_nat (hi - lo))) as [Hlt|Hge]; [|lia].
  rewrite nth_skipn in Hv.
  exists (lo + Z.of_nat n). split; [lia|].
  unfold value. rewrite <- Hv. f_equal. lia.
Qed.

Lemma Forall2_firstn (A B : Type) (R : A -> B -> Prop) (n : nat)
    (l : list A) (m : list B) :
  Forall2 R l m -> Forall2 R (firstn n l) (firstn n m).
Proof.
  intros H. revert n. induction H as [|x y l m Hxy Hlm IH]; intros n.
  - rewrite !firstn_nil. constructor.
  - destruct n as [|n]; cbn [firstn]; constructor; auto.
Qed.

Lemma Forall2_skipn (A B : Type) (R : A -> B -> Prop) (n : nat)
    (l : list A) (m : list B) :
  Forall2 R l m -> Forall2 R (skipn n l) (skipn n m).
Proof.
  intros H. revert n. induction H as [|x y l m Hxy Hlm IH]; intros n.
  - rewrite !skipn_nil. constructor.
  - destruct n as [|n]; cbn [skipn]; [constructor; assumption|auto].
Qed.

Lemma Forall2_slice (A B : Type) (R : A -> B -> Prop) (lo hi : option Z)
    (l : list A) (m : list B) :
  Forall2 R l m -> Forall2 R (slice l lo hi) (slice m lo hi).
Proof.
  intros H. unfold slice, len. rewrite <- (Forall2_length H).
  apply Forall2_firstn, Forall2_skipn. exact H.
Qed.

Lemma NoDup_firstn (A : Type) (n : nat) (l : list A) :
  NoDup l -> NoDup (firstn n l).
Proof.
  intros H. revert n. induction H as [|x l Hx Hl IH]; intros n.
  - rewrite firstn_nil. constructor.
  - destruct n as [|n]; cbn [firstn]; constructor; [|apply IH].
    intros Hin. apply Hx. rewrite <- (firstn_skipn n l).
    apply in_or_app. left. exact Hin.
Qed.

Lemma NoDup_skipn (A : Type) (n : nat) (l : list A) :
  NoDup l -> NoDup (skipn n l).
Proof.
  intros H. revert n. induction H as [|x l Hx Hl IH]; intros n.
  - rewrite skipn_nil. constructor.
  - destruct n as [|n]; cbn [skipn]; [constructor; assumption|apply IH].
Qed.

Lemma NoDup_slice (A : Type) (lo hi : option Z) (l : list A) :
  NoDup l -> NoDup (slice l lo hi).
Proof. intros H. unfold slice. apply NoDup_firstn, NoDup_skipn, H. Qed.

Lemma incl_slice (A : Type) (lo hi : option Z) (l : list A) (x : A) :
  In x (slice l lo hi) -> In x l.
Proof.
  unfold slice. intros H.
  rewrite <- (firstn_skipn (Z.to_nat (lo_bound (len l) lo)) l).
  apply in_or_app. right.
  set (t := skipn _ l) in *. set (n := Z.to_nat _) in H.
  rewrite <- (firstn_skipn n t). apply in_or_app. left. exact H.
Qed.

Lemma StronglySorted_slice (A : Type) (R : A -> A -> Prop) (lo hi : option Z)
    (l : list A) :
  StronglySorted R l -> StronglySorted R (slice l lo hi).
Proof.
  intros H. unfold slice.
  set (n := Z.to_nat (lo_bound (len l) lo)).
  set (c := Z.to_nat _).
  rewrite <- (firstn_skipn n l) in H.
  apply StronglySorted_app_iff in H. destruct H as [_ [H _]].
  rewrite <- (firstn_skipn c (skipn n l)) in H.
  apply StronglySorted_app_iff in H. tauto.
Qed.

Lemma Sorted_slice (lo hi : option Z) (l : list Q) :
  Sorted Qle l -> Sorted Qle (slice l lo hi).
Proof.
  intros H. apply StronglySorted_Sorted, StronglySorted_slice.
  apply Sorted_StronglySorted; [exact Qle_trans|exact H].
Qed.

(** ** What the edge loops return *)

Lemma lower_edge_loop_ret (ev : list Q) (edge : Q) (lower : Z) :
  forall fuel n m,
    snd (lower_edge_loop fuel ev edge lower n) = Ret m ->
    n <= m /\ exists v, getitem ev (lower + m) = Ret v.
Proof.
  induction fuel as [|fuel IH]; intros n m Hr; cbn [lower_edge_loop] in Hr;
    [discriminate|].
  destruct (getitem ev (lower + n)) as [x| |] eqn:Hget; try discriminate.
  destruct (Qeq_bool x (- edge)).
  - destruct (lower_edge_loop fuel ev edge lower (n + 1)) as [reads r] eqn:Hl.
    cbn [snd] in Hr. subst r.
    specialize (IH (n + 1) m). rewrite Hl in IH.
    destruct (IH eq_refl) as [H1 H2]. split; [lia|exact H2].
  - cbn [snd] in Hr. inversion Hr; subst. split; [lia|]. eauto.
Qed.

Lemma upper_edge_loop_ret (ev : list Q) (edge : Q) (upper : Z) :
  forall fuel n m,
    snd (upper_edge_loop fuel ev edge upper n) = Ret m ->
    n <= m /\
    (forall k, n <= k < m ->
       exists v, getitem ev (upper - k - 1) = Ret v /\ (v == edge)%Q) /\
    exists v, getitem ev (upper - m - 1) = Ret v /\ ~ (v == edge)%Q.
Proof.
  induction fuel as [|fuel IH]; intros n m Hr; cbn [upper_edge_loop] in Hr;
    [discriminate|].
  destruct (getitem ev (upper - n - 1)) as [x| |] eqn:Hget; try discriminate.
  destruct (Qeq_bool x edge) eqn:Heq.
  - destruct (upper_edge_loop fuel ev edge upper (n + 1)) as [reads r] eqn:Hl.
    cbn [snd] in Hr. subst r.
    specialize (IH (n + 1) m). rewrite Hl in IH.
    destruct (IH eq_refl) as [H1 [H2 H3]]. split; [lia|]. split; [|exact H3].
    intros k Hk. destruct (Z.eq_dec k n) as [->|Hne].
    + exists x. split; [exact Hget|]. apply Qeq_bool_iff. exact Heq.
    + apply H2. lia.
  - cbn [snd] in Hr. inversion Hr; subst. split; [lia|].
    split; [intros k Hk; lia|]. exists x. split; [exact Hget|].
    apply Qeq_bool_neq. exact Heq.
Qed.

Lemma getitem_in_value (a : list Q) (i : Z) (v : Q) :
  getitem a i = Ret v -> exists j, 0 <= j < len a /\ value a j = v.
Proof.
  intros H. apply getitem_inv in H. destruct H as [Hi Hnth].
  apply in_value. eapply nth_error_In. exact Hnth.
Qed.

(** On an ascending array the upper loop counts no more entries than lie
    in front of [upper]: had it gone on past the start of the array, every
    entry would equal [edge] and the loop would have ended in an
    [IndexError]. *)
Lemma upper_edge_count_le (ev : list Q) (edge : Q) (fuel : nat) (m : Z) :
  Sorted Qle ev ->
  snd (upper_edge_loop fuel ev edge (Np.searchsorted_right ev edge) 0)
  = Ret m ->
  0 <= m <= Np.searchsorted_right ev edge.
Proof.
  intros Hs Hr. set (upper := Np.searchsorted_right ev edge) in *.
  pose proof (searchsorted_right_bounds ev edge) as Hup. fold upper in Hup.
  apply upper_edge_loop_ret in Hr. destruct Hr as [Hm [Hreads [v [Hv Hne]]]].
  split; [exact Hm|].
  destruct (Z_le_gt_dec m upper) as [|Hgt]; [assumption|exfalso].
  destruct (Hreads upper) as [w [Hw Hwe]]; [lia|].
  replace (upper - upper - 1) with (-1) in Hw by lia.
  pose proof (getitem_inv _ _ _ _ Hw) as [Hlen Hnth].
  change (-1 <? 0) with true in Hnth. cbv iota in Hnth.
  assert (Hlast : value ev (len ev - 1) = w).
  { unfold value. apply nth_error_nth.
    replace (len ev - 1) with (-1 + len ev) by lia. exact Hnth. }
  assert (Hfull : upper = len ev).
  { destruct (Z.eq_dec upper (len ev)) as [|Hc]; [assumption|exfalso].
    apply (Qlt_irrefl edge). rewrite <- Hwe at 2. rewrite <- Hlast.
    apply searchsorted_right_above; [exact Hs|]. fold upper. lia. }
  assert (Hall : forall j, 0 <= j < len ev -> (value ev j == edge)%Q).
  { intros j Hj. destruct (Hreads (upper - 1 - j)) as [u [Hu Hue]]; [lia|].
    replace (upper - (upper - 1 - j) - 1) with j in Hu by lia.
    rewrite getitem_value in Hu by lia. inversion Hu; subst. exact Hue. }
  apply getitem_in_value in Hv. destruct Hv as [j [Hj Hvj]].
  apply Hne. rewrite <- Hvj. apply Hall. exact Hj.
Qed.

(** ** What [first_brillouin_zone] returns *)

Lemma first_brillouin_zone_returns (V : Type) (ev : list Q) (vecs : list V)
    (n_values : Z) (edge : Q) (vals : list Q) (svecs : list V) :
  first_brillouin_zone ev vecs n_values edge = Ret (vals, svecs) ->
  0 <= n_values ->
  len vals = n_values /\ len svecs = n_values /\
  Sorted Qle vals /\
  Forall (fun v => (- edge <= v <= edge)%Q) vals /\
  exists sel,
    NoDup sel /\
    Forall (fun i => 0 <= i < len ev) sel /\
    Forall2 (fun i v => getitem ev i = Ret v) sel vals /\
    Forall2 (fun i w => getitem vecs i = Ret w) sel svecs.
Proof.
  intros Hret Hn. unfold first_brillouin_zone in Hret.
  destruct (argsort_spec ev) as [evs [Htake [Hsorted [Hnodup [Hrange Hlen]]]]].
  rewrite Htake in Hret. cbn [bind] in Hret.
  apply bind_ret_inv in Hret. destruct Hret as [vecs' [Hvecs Hret]].
  apply bind_ret_inv in Hret. destruct Hret as [nl [Hnl Hret]].
  apply bind_ret_inv in Hret. destruct Hret as [nu [Hnu Hret]].
  apply bind_ret_inv in Hret. destruct Hret as [[lo hi] [Hbranch Hret]].
  inversion Hret; subst vals svecs; clear Hret.
  set (lower := Np.searchsorted_left evs (- edge)) in *.
  set (upper := Np.searchsorted_right evs edge) in *.
  pose proof (searchsorted_left_bounds evs (- edge)) as Hlo.
  pose proof (searchsorted_right_bounds evs edge) as Hup.
  fold lower in Hlo. fold upper in Hup.
  apply mapM_ret_inv in Htake. apply mapM_ret_inv in Hvecs.
  pose proof (Forall2_length Htake) as Hl1.
  pose proof (Forall2_length Hvecs) as Hl2.
  assert (Hlen' : len vecs' = len evs) by (unfold len; lia).
  apply lower_edge_loop_ret in Hnl. destruct Hnl as [Hnl0 [v Hv]].
  apply getitem_inv in Hv. destruct Hv as [Hnl1 _].
  apply upper_edge_count_le in Hnu; [|exact Hsorted]. fold upper in Hnu.
  assert (Hbounds : lower <= lo /\ lo <= len evs /\ 0 <= hi <= upper /\
                    hi - lo = n_values).
  { destruct (_ =? n_values) eqn:H1 in Hbranch.
    { apply Z.eqb_eq in H1. inversion Hbranch; subst. lia. }
    destruct (_ =? n_values) eqn:H2 in Hbranch.
    { apply Z.eqb_eq in H2. inversion Hbranch; subst. lia. }
    destruct (_ =? n_values) eqn:H3 in Hbranch; [|discriminate].
    apply Z.eqb_eq in H3. inversion Hbranch; subst. lia. }
  destruct Hbounds as [Hb1 [Hb2 [Hb3 Hb4]]].
  split; [rewrite len_slice_inside by lia; lia|].
  split; [rewrite len_slice_inside by lia; lia|].
  split; [apply Sorted_slice; exact Hsorted|].
  split.
  - rewrite Forall_forall. intros x Hx.
    apply in_slice_inside in Hx; [|lia|lia].
    destruct Hx as [k [Hk <-]]. split.
    + apply searchsorted_left_above; [exact Hsorted|]. fold lower. lia.
    + apply searchsorted_right_below. fold upper. lia.
  - exists (slice (Np.argsort ev) (Some lo) (Some hi)).
    split; [apply NoDup_slice; exact Hnodup|].
    split.
    { rewrite Forall_forall. intros x Hx. rewrite Forall_forall in Hrange.
      apply Hrange. exact (incl_slice _ _ _ _ _ Hx). }
    split; apply Forall2_slice; assumption.
Qed.

Lemma lower_edge_loop_total (ev : list Q) (edge : Q) (lower : Z) :
  forall fuel n,
    0 <= lower + n -> (Z.to_nat (len ev - (lower + n)) < fuel)%nat ->
    snd (lower_edge_loop fuel ev edge lower n) <> OutOfFuel.
Proof.
  induction fuel as [|fuel IH]; intros n Hn Hfuel; [lia|].
  cbn [lower_edge_loop].
  destruct (Z_lt_le_dec (lower + n) (len ev)) as [Hin|Hout].
  - rewrite getitem_value by lia. destruct (Qeq_bool _ _).
    + specialize (IH (n + 1)).
      destruct (lower_edge_loop fuel ev edge lower (n + 1)) as [reads r].
      cbn [snd] in *. apply IH; lia.
    + discriminate.
  - rewrite getitem_out_of_range by lia. discriminate.
Qed.

Lemma upper_edge_loop_total (ev : list Q) (edge : Q) (upper : Z) :
  forall fuel n,
    upper - n - 1 < len ev ->
    (Z.to_nat (upper - n + len ev) < fuel)%nat ->
    snd (upper_edge_loop fuel ev edge upper n) <> OutOfFuel.
Proof.
  induction fuel as [|fuel IH]; intros n Hn Hfuel; [lia|].
  cbn [upper_edge_loop].
  destruct (getitem ev (upper - n - 1)) as [x| |] eqn:Hget;
    [|discriminate|exfalso; exact (getitem_total _ _ _ Hget)].
  apply getitem_inv in Hget. destruct Hget as [Hi _].
  destruct (Qeq_bool _ _); [|discriminate].
  specialize (IH (n + 1)).
  destruct (upper_edge_loop fuel ev edge upper (n + 1)) as [reads r].
  cbn [snd] in *. apply IH; lia.
Qed.

(** The counter of iterations given to the edge loops is never exhausted:
    [first_brillouin_zone] returns or raises. *)
Lemma first_brillouin_zone_total (V : Type) (ev : list Q) (vecs : list V)
    (n_values : Z) (edge : Q) :
  first_brillouin_zone ev vecs n_values edge <> OutOfFuel.
Proof.
  unfold first_brillouin_zone.
  apply bind_total; [apply mapM_total, getitem_total|]. intros evs.
  apply bind_total; [apply mapM_total, getitem_total|]. intros vecs'.
  pose proof (searchsorted_left_bounds evs (- edge)) as Hlo.
  pose proof (searchsorted_right_bounds evs edge) as Hup.
  apply bind_total.
  { apply lower_edge_loop_total; [lia|]. unfold edge_fuel, len in *. lia. }
  intros nl. apply bind_total.
  { apply upper_edge_loop_total; [lia|]. unfold edge_fuel, len in *. lia. }
  intros nu. apply bind_total.
  - repeat (destruct (_ =? n_values); [discriminate|]). discriminate.
  - intros [lo hi]. discriminate.
Qed.

(** ** Updates *)


Lemma nth_error_upd_eq (A : Type) (l : list A) (n : nat) (v : A) :
  (n < length l)%nat -> nth_error (upd l n v) n = Some v.
Proof.
  revert n. induction l as [|x l IH]; intros [|n] Hn; cbn [length] in Hn;
    try lia; cbn [upd nth_error]; [reflexivity|]. apply IH. lia.
Qed.

Lemma nth_error_upd_neq (A : Type) (l : list A) (n p : nat) (v : A) :
  p <> n -> nth_error (upd l n v) p = nth_error l p.
Proof.
  revert n p. induction l as [|x l IH]; intros [|n] [|p] Hp;
    cbn [upd nth_error]; try reflexivity; try lia. apply IH. lia.
Qed.

Lemma setitem_inside (A : Type) (a : list A) (i : Z) (v : A) :
  0 <= i < len a -> setitem a i v = Ret (upd a (Z.to_nat i) v).
Proof.
  intros Hi. unfold setitem. cbv zeta.
  assert (Hneg : (i <? 0) = false) by (apply Z.ltb_ge; lia).
  assert (Hle : (len a <=? i) = false) by (apply Z.leb_gt; lia).
  rewrite Hneg. cbv iota. rewrite Hneg, Hle. reflexivity.
Qed.

Lemma setitem_total (A : Type) (a : list A) (i : Z) (v : A) :
  setitem a i v <> OutOfFuel.
Proof. unfold setitem. destruct (_ || _); discriminate. Qed.


Lemma nth_error_slice_inside (A : Type) (a : list A) (s e : Z) (k : nat) :
  0 <= s <= len a -> 0 <= e <= len a ->
  nth_error (slice a (Some s) (Some e)) k
  = if (k <? Z.to_nat (e - s))%nat then nth_error a (Z.to_nat s + k)
    else None.
Proof.
  intros Hs He. rewrite slice_inside by assumption.
  rewrite nth_error_firstn. destruct (Nat.ltb_spec k (Z.to_nat (e - s)));
    [|reflexivity].
  apply nth_error_skipn.
Qed.



(** ** Orthogonalising the degenerate eigenvectors *)





(** ** What [diagonalise] returns *)


Lemma length_chunks (A : Type) (n count : nat) (l : list A) :
  length (chunks n count l) = count.
Proof.
  revert l. induction count as [|count IH]; intros l; cbn [chunks length];
    [reflexivity|]. rewrite IH. reflexivity.
Qed.

Lemma reshape3_ret (A : Type) (m : list (list A)) (d0 d1 d2 : Z)
    (t : list (list (list A))) :
  reshape3 m d0 d1 d2 = Ret t ->
  0 <= d0 /\ 0 <= d1 /\ 0 <= d2 /\ len t = d0 /\
  Forall (fun v => len v = d1) t.
Proof.
  unfold reshape3. destruct (_ || _) eqn:Hneg; [discriminate|].
  apply orb_false_iff in Hneg. destruct Hneg as [Hneg H2].
  apply orb_false_iff in Hneg. destruct Hneg as [H0 H1].
  apply Z.ltb_ge in H0, H1, H2.
  destruct (_ =? _); [|discriminate]. intros H. inversion H; subst t.
  repeat split; try assumption.
  - unfold len. rewrite length_map, length_chunks. lia.
  - rewrite Forall_forall. intros v Hv. apply in_map_iff in Hv.
    destruct Hv as [x [<- _]]. unfold len. rewrite length_chunks. lia.
Qed.

Lemma floordiv_ret (a b q : Z) :
  floordiv a b = Ret q -> b <> 0 /\ q = a / b.
Proof.
  unfold floordiv. destruct (Z.eqb_spec b 0); [discriminate|].
  intros H. inversion H. auto.
Qed.







(** ** Matrices as tables *)

Lemma zip_with_map_same (A B D : Type) (f : A -> B -> D) (g : A -> B)
    (l : list A) :
  zip_with f l (map g l) = map (fun x => f x (g x)) l.
Proof.
  induction l as [|x l IH]; cbn [zip_with map]; [reflexivity|].
  rewrite IH. reflexivity.
Qed.

Lemma range_len_range (n : Z) : range 0 (len (range 0 n)) = range 0 n.
Proof.
  destruct (Z_le_gt_dec 0 n) as [Hn|Hn].
  - rewrite len_range by lia. f_equal. lia.
  - rewrite (range_empty 0 n) by lia. reflexivity.
Qed.

Lemma mapi_map_range (A B : Type) (f : Z -> A -> B) (g : Z -> A) (n : Z) :
  mapi f (map g (range 0 n)) = map (fun r => f r (g r)) (range 0 n).
Proof.
  unfold mapi. replace (len (map g (range 0 n))) with (len (range 0 n))
    by (unfold len; rewrite length_map; reflexivity).
  rewrite range_len_range. apply zip_with_map_same.
Qed.

Lemma map_ext_range (A : Type) (f g : Z -> A) (lo hi : Z) :
  (forall x, lo <= x < hi -> f x = g x) ->
  map f (range lo hi) = map g (range lo hi).
Proof.
  intros H. apply map_ext_in. intros x Hx. apply H. apply in_range. exact Hx.
Qed.

Lemma tab_ext (K : Type) (n m : Z) (f g : Z -> Z -> K) :
  (forall r c, 0 <= r < n -> 0 <= c < m -> f r c = g r c) ->
  tab n m f = tab n m g.
Proof.
  intros H. unfold tab. apply map_ext_range. intros r Hr.
  apply map_ext_range. intros c Hc. apply H; assumption.
Qed.

Lemma set_block_tab (K : Type) (block : list (list K)) (n m : Z)
    (f : Z -> Z -> K) (dim nz row col : Z) :
  set_block block (tab n m f) dim nz row col
  = tab n m (fun r c =>
      if (row * dim <=? r) && (r <? (row + 1) * dim)
         && (col * dim <=? c) && (c <? (col + 1) * dim)
      then nth (Z.to_nat (c - col * dim))
               (nth (Z.to_nat (r - row * dim)) block []) (f r c)
      else f r c).
Proof.
  unfold set_block, tab. rewrite mapi_map_range.
  apply map_ext. intros r. rewrite mapi_map_range. reflexivity.
Qed.

Lemma slice_map (A B : Type) (g : A -> B) (l : list A) (lo hi : option Z) :
  slice (map g l) lo hi = map g (slice l lo hi).
Proof.
  unfold slice. replace (len (map g l)) with (len l)
    by (unfold len; rewrite length_map; reflexivity).
  rewrite skipn_map, firstn_map. reflexivity.
Qed.

Lemma range_shift (lo d : Z) :
  range lo (lo + d) = map (fun a => lo + a) (range 0 d).
Proof.
  unfold range. rewrite map_map.
  replace (Z.to_nat (lo + d - lo)) with (Z.to_nat (d - 0)) by lia.
  apply map_ext. intros k. lia.
Qed.

Lemma get_block_tab (K : Type) (n m : Z) (f : Z -> Z -> K) (dim row col : Z) :
  0 <= row * dim -> (row + 1) * dim <= n ->
  0 <= col * dim -> (col + 1) * dim <= m -> 0 <= dim ->
  get_block (tab n m f) dim row col
  = tab dim dim (fun a b => f (row * dim + a) (col * dim + b)).
Proof.
  intros H1 H2 H3 H4 Hd. unfold get_block, tab.
  rewrite slice_map, slice_range by lia. rewrite map_map.
  replace ((row + 1) * dim) with (row * dim + dim) by lia.
  rewrite range_shift, map_map. apply map_ext. intros a.
  rewrite slice_map, slice_range by lia.
  replace ((col + 1) * dim) with (col * dim + dim) by lia.
  rewrite range_shift, map_map. reflexivity.
Qed.

Lemma list_as_map (A : Type) (d : A) (pre l : list A) :
  map (fun i => nth (Z.to_nat i) (pre ++ l) d)
      (range (len pre) (len pre + len l)) = l.
Proof.
  revert pre. induction l as [|x l IH]; intros pre.
  - rewrite range_empty by (rewrite len_nil; lia). reflexivity.
  - pose proof (len_nonneg _ l) as Hl. rewrite len_cons.
    rewrite range_cons by lia. cbn [map]. f_equal.
    + unfold len. rewrite Nat2Z.id, app_nth2 by lia.
      rewrite Nat.sub_diag. reflexivity.
    + specialize (IH (pre ++ [x])). rewrite <- app_assoc in IH.
      cbn [app] in IH. rewrite len_app, len_cons, len_nil in IH.
      replace (len pre + (1 + 0)) with (len pre + 1) in IH by lia.
      replace (len pre + 1 + len l) with (len pre + (1 + len l)) in IH by lia.
      exact IH.
Qed.

Lemma block_as_tab (K : Type) (d : K) (dim : Z) (b : list (list K)) :
  len b = dim -> Forall (fun r => len r = dim) b ->
  tab dim dim (fun a c => nth (Z.to_nat c) (nth (Z.to_nat a) b []) d) = b.
Proof.
  intros Hb Hrows. unfold tab.
  pose proof (list_as_map _ [] [] b) as Hrowsmap.
  rewrite len_nil, Z.add_0_l, Hb in Hrowsmap. cbn [app] in Hrowsmap.
  etransitivity; [|exact Hrowsmap]. apply map_ext_range. intros a Ha.
  set (line := nth (Z.to_nat a) b []).
  assert (Hline : len line = dim).
  { rewrite Forall_forall in Hrows. apply Hrows. apply nth_In.
    unfold len in Hb. lia. }
  pose proof (list_as_map _ d [] line) as Hcols.
  rewrite len_nil, Z.add_0_l, Hline in Hcols. cbn [app] in Hcols.
  exact Hcols.
Qed.

Lemma zeros2_tab (K : Type) `{Scalar K} (n m : Z) :
  0 <= n -> 0 <= m -> zeros2 n m = Ret (tab n m (fun _ _ => zero)).
Proof.
  intros Hn Hm. unfold zeros2.
  replace (n <? 0) with false by (symmetry; apply Z.ltb_ge; lia).
  replace (m <? 0) with false by (symmetry; apply Z.ltb_ge; lia).
  cbn [orb]. f_equal. unfold tab, range.
  rewrite !Z.sub_0_r, !map_map.
  assert (Hrep : forall (A : Type) (x : A) k,
             repeat x k = map (fun _ => x) (seq 0 k)).
  { intros A x k. generalize 0%nat. induction k as [|k IH]; intros s;
      cbn [repeat seq map]; [reflexivity|]. rewrite (IH (S s)). reflexivity. }
  rewrite !Hrep. apply map_ext. intros _. reflexivity.
Qed.

Lemma in_block_iff (dim row R a : Z) :
  0 <= a < dim ->
  ((row * dim <=? R * dim + a) && (R * dim + a <? (row + 1) * dim))
  = (R =? row).
Proof.
  intros Ha. destruct (Z.eqb_spec R row) as [->|Hne].
  - apply andb_true_iff. split; [apply Z.leb_le|apply Z.ltb_lt]; nia.
  - apply andb_false_iff.
    destruct (Z_lt_le_dec R row); [left; apply Z.leb_gt|right; apply Z.ltb_ge];
      nia.
Qed.

(** ** The blocks of the Floquet matrix *)

Lemma nth_error_range (lo hi : Z) (p : nat) :
  nth_error (range lo hi) p
  = if Z.of_nat p <? hi - lo then Some (lo + Z.of_nat p) else None.
Proof.
  revert lo. induction p as [|p IH]; intros lo.
  - destruct (Z.ltb_spec (Z.of_nat 0) (hi - lo)).
    + rewrite range_cons by lia. cbn [nth_error]. f_equal. lia.
    + rewrite range_empty by lia. reflexivity.
  - destruct (Z_lt_le_dec lo hi) as [Hlt|Hge].
    + rewrite range_cons by lia. cbn [nth_error]. rewrite IH.
      destruct (Z.ltb_spec (Z.of_nat p) (hi - (lo + 1)));
        destruct (Z.ltb_spec (Z.of_nat (S p)) (hi - lo)); try lia;
        [f_equal; lia|reflexivity].
    + rewrite range_empty by lia.
      destruct (Z.ltb_spec (Z.of_nat (S p)) (hi - lo)); [lia|reflexivity].
Qed.

Lemma nth_map_range (A : Type) (f : Z -> A) (d : A) (n i : Z) :
  0 <= i < n -> nth (Z.to_nat i) (map f (range 0 n)) d = f i.
Proof.
  intros Hi. apply nth_error_nth.
  rewrite nth_error_map, nth_error_range.
  destruct (Z.ltb_spec (Z.of_nat (Z.to_nat i)) (n - 0)); [|lia].
  cbn [option_map]. f_equal. f_equal. lia.
Qed.

Lemma nth_zip_with (A B D : Type) (f : A -> B -> D) (l : list A)
    (m : list B) (n : nat) (da : A) (db : B) (d : D) :
  (n < length l)%nat -> (n < length m)%nat ->
  nth n (zip_with f l m) d = f (nth n l da) (nth n m db).
Proof.
  revert m n. induction l as [|x l IH]; intros [|y m] [|n] Hl Hm;
    cbn [length] in *; try lia; cbn [zip_with nth]; [reflexivity|].
  apply IH; lia.
Qed.

Section AssemblerFacts.

Context {K : Type} `{Scalar K}.

Lemma len_map (A B : Type) (f : A -> B) (l : list A) : len (map f l) = len l.
Proof. unfold len. rewrite length_map. reflexivity. Qed.

Lemma length_zip_with (A B D : Type) (f : A -> B -> D) (l : list A)
    (m : list B) :
  length (zip_with f l m) = Nat.min (length l) (length m).
Proof.
  revert m. induction l as [|x l IH]; intros [|y m]; cbn [zip_with length];
    try reflexivity. rewrite IH. reflexivity.
Qed.

Lemma len_zip_with (A B D : Type) (f : A -> B -> D) (l : list A)
    (m : list B) :
  len l = len m -> len (zip_with f l m) = len l.
Proof. unfold len. rewrite length_zip_with. lia. Qed.

Lemma in_zip_with (A B D : Type) (f : A -> B -> D) (l : list A) (m : list B)
    (z : D) :
  In z (zip_with f l m) -> exists x y, In x l /\ In y m /\ z = f x y.
Proof.
  revert m. induction l as [|x l IH]; intros [|y m] Hin;
    cbn [zip_with In] in Hin; try contradiction.
  destruct Hin as [<-|Hin].
  - exists x, y. cbn [In]. auto.
  - destruct (IH m Hin) as [x' [y' [Hx [Hy Hz]]]].
    exists x', y'. cbn [In]. auto.
Qed.

Lemma square_eye_scaled (dim : Z) (x y : K) :
  0 <= dim -> square dim (mscale (mscale (eye dim) x) y).
Proof.
  intros Hd. unfold square, mscale, eye.
  rewrite !len_map, len_range by lia. split; [lia|].
  rewrite Forall_forall. intros r Hr.
  apply in_map_iff in Hr. destruct Hr as [r1 [<- Hr1]].
  apply in_map_iff in Hr1. destruct Hr1 as [r2 [<- Hr2]].
  apply in_map_iff in Hr2. destruct Hr2 as [r3 [<- _]].
  rewrite !len_map, len_range by lia. lia.
Qed.

Lemma square_madd (dim : Z) (a b : list (list K)) :
  square dim a -> square dim b -> square dim (madd a b).
Proof.
  intros [Ha Hra] [Hb Hrb]. unfold square, madd.
  split; [rewrite len_zip_with; lia|].
  rewrite Forall_forall in *. intros r Hr.
  apply in_zip_with in Hr. destruct Hr as [x [y [Hx [Hy ->]]]].
  rewrite len_zip_with; [apply Hra; exact Hx|].
  rewrite (Hra x Hx), (Hrb y Hy). reflexivity.
Qed.

Lemma square_zero_block (dim : Z) : 0 <= dim -> square dim (zero_block dim).
Proof.
  intros Hd. unfold square, zero_block, len. rewrite repeat_length.
  split; [lia|]. apply Forall_forall. intros r Hr.
  apply repeat_spec in Hr. subst r. rewrite repeat_length. lia.
Qed.

Lemma square_harmonic_block (current : list (list K)) (n dim nz : Z)
    (omega : K) (row : Z) :
  0 <= dim -> square dim current ->
  square dim (harmonic_block current n dim nz omega row).
Proof.
  intros Hd Hc. unfold harmonic_block. destruct (n =? 0); [|exact Hc].
  apply square_madd; [exact Hc|]. apply square_eye_scaled. exact Hd.
Qed.

Lemma square_nth_default (dim : Z) (b : list (list K)) (x y : Z) (d d' : K) :
  square dim b -> 0 <= x < dim -> 0 <= y < dim ->
  nth (Z.to_nat y) (nth (Z.to_nat x) b []) d
  = nth (Z.to_nat y) (nth (Z.to_nat x) b []) d'.
Proof.
  intros [Hb Hrows] Hx Hy. apply nth_indep.
  rewrite Forall_forall in Hrows.
  assert (Hin : In (nth (Z.to_nat x) b []) b)
    by (apply nth_In; unfold len in Hb; lia).
  specialize (Hrows _ Hin). unfold len in Hrows. lia.
Qed.

Lemma square_row (dim : Z) (m : list (list K)) (a : Z) :
  square dim m -> 0 <= a < dim -> len (nth (Z.to_nat a) m []) = dim.
Proof.
  intros [Hm Hrows] Ha. rewrite Forall_forall in Hrows. apply Hrows.
  apply nth_In. unfold len in Hm. lia.
Qed.

(** The entries of a sum of two square matrices. *)
Lemma madd_entry (dim : Z) (m1 m2 : list (list K)) (a b : Z) :
  square dim m1 -> square dim m2 -> 0 <= a < dim -> 0 <= b < dim ->
  nth (Z.to_nat b) (nth (Z.to_nat a) (madd m1 m2) []) zero
  = add (nth (Z.to_nat b) (nth (Z.to_nat a) m1 []) zero)
        (nth (Z.to_nat b) (nth (Z.to_nat a) m2 []) zero).
Proof.
  intros H1 H2 Ha Hb. unfold madd.
  pose proof (square_row dim m1 a H1 Ha) as Hr1.
  pose proof (square_row dim m2 a H2 Ha) as Hr2.
  destruct H1 as [Hl1 _], H2 as [Hl2 _]. unfold len in *.
  rewrite (nth_zip_with _ _ _ _ _ _ _ [] [] []) by lia.
  apply nth_zip_with; lia.
Qed.

(** The entries of [np.eye(dim) * x * y]. *)
Lemma scaled_eye_entry (dim : Z) (x y : K) (a b : Z) :
  0 <= a < dim -> 0 <= b < dim ->
  nth (Z.to_nat b) (nth (Z.to_nat a) (mscale (mscale (eye dim) x) y) []) zero
  = mul (mul (if a =? b then one else zero) x) y.
Proof.
  intros Ha Hb. unfold mscale, eye. rewrite !map_map.
  rewrite (nth_map_range _ _ _ dim a Ha). rewrite !map_map.
  exact (nth_map_range K
           (fun c => mul (mul (if a =? c then one else zero) x) y)
           zero dim b Hb).
Qed.

(** The loop over the blocks of one harmonic writes its block wherever the
    block row and column advance together from where they start up to
    where they stop, and leaves the other blocks as they are. *)
Lemma place_blocks_tab (current : list (list K)) (n dim nz : Z) (omega : K)
    (stop_row stop_col size : Z) :
  forall fuel row col f,
    (Z.to_nat (stop_row + 1 - row) < fuel)%nat ->
    exists f',
      place_blocks fuel current n dim nz omega stop_row stop_col row col
        (tab size size f) = Ret (tab size size f') /\
      forall R Cc a b, 0 <= a < dim -> 0 <= b < dim ->
        f' (R * dim + a) (Cc * dim + b)
        = if (row <=? R) && (R <=? stop_row) && (Cc <=? stop_col)
             && (R - row =? Cc - col)
          then nth (Z.to_nat b)
                 (nth (Z.to_nat a)
                    (harmonic_block current n dim nz omega R) [])
                 (f (R * dim + a) (Cc * dim + b))
          else f (R * dim + a) (Cc * dim + b).
Proof.
  induction fuel as [|fuel IH]; intros row col f Hfuel; [lia|].
  cbn [place_blocks].
  destruct ((row <=? stop_row) && (col <=? stop_col)) eqn:Hgo.
  - apply andb_true_iff in Hgo. destruct Hgo as [Hr Hc].
    apply Z.leb_le in Hr, Hc.
    replace (if n =? 0
             then set_block
                    (madd current
                       (mscale (mscale (eye dim) omega)
                          (of_int (i_to_n row nz))))
                    (tab size size f) dim nz row col
             else set_block current (tab size size f) dim nz row col)
      with (set_block (harmonic_block current n dim nz omega row)
              (tab size size f) dim nz row col)
      by (unfold harmonic_block; destruct (n =? 0); reflexivity).
    rewrite set_block_tab.
    match goal with
    | |- context [tab size size ?g] =>
        destruct (IH (row + 1) (col + 1) g) as [f' [Hf' Hent]]; [lia|]
    end.
    exists f'. split; [exact Hf'|].
    intros R Cc a b Ha Hb. rewrite (Hent R Cc a b Ha Hb). cbv beta.
    rewrite <- !andb_assoc.
    rewrite (andb_assoc (row * dim <=? R * dim + a)).
    rewrite (in_block_iff dim row R a Ha), (in_block_iff dim col Cc b Hb).
    replace (R * dim + a - row * dim) with ((R - row) * dim + a) by lia.
    replace (Cc * dim + b - col * dim) with ((Cc - col) * dim + b) by lia.
    destruct (Z.eqb_spec R row) as [->|HR];
      destruct (Z.eqb_spec Cc col) as [->|HC]; cbn [andb];
      repeat match goal with
             | |- context [?x <=? ?y] => destruct (Z.leb_spec x y)
             | |- context [?x =? ?y] => destruct (Z.eqb_spec x y)
             end; cbn [andb]; try lia; try reflexivity.
    rewrite !Z.sub_diag, !Z.mul_0_l, !Z.add_0_l. reflexivity.
  - exists f. split; [reflexivity|]. intros R Cc a b Ha Hb.
    apply andb_false_iff in Hgo.
    repeat match goal with
           | |- context [?x <=? ?y] => destruct (Z.leb_spec x y)
           | |- context [?x =? ?y] => destruct (Z.eqb_spec x y)
           end; cbn [andb]; try reflexivity.
    exfalso. destruct Hgo as [Hgo|Hgo]; apply Z.leb_gt in Hgo; lia.
Qed.

End AssemblerFacts.

Section AssemblerBlocks.

Context {K : Type} `{Scalar K}.

Variable hf : list (list (list K)).
Variable nz : Z.
Variable omega : K.

#[local] Abbreviation nc := (shape0 hf).
#[local] Abbreviation dim := (shape1 hf).
#[local] Abbreviation hf_max := ((shape0 hf - 1) / 2).

Hypothesis Hsquare : square_components hf.
Hypothesis Hnz : 0 <= nz.

Lemma dim_nonneg : 0 <= dim.
Proof. apply len_nonneg. Qed.

Lemma component_square (n : Z) :
  - hf_max <= n <= hf_max -> square dim (component hf n).
Proof.
  intros Hn. unfold component, n_to_i. 
  assert (Hnc : 0 <= nc) by apply len_nonneg.
  assert (Hidx : 0 <= n + hf_max < nc).
  {     pose proof (Z.mul_div_le (nc - 1) 2 ltac:(lia)).
    destruct (Z.eq_dec nc 0) as [Hz|Hz]; [|lia].
    rewrite Hz in *. change ((0 - 1) / 2) with (-1) in *. lia. }
  unfold square_components in Hsquare. rewrite Forall_forall in Hsquare.
  apply Hsquare. apply nth_In. unfold shape0, len in *. lia.
Qed.

Lemma getitem_component (n : Z) :
  - hf_max <= n <= hf_max -> getitem hf (n_to_i n nc) = Ret (component hf n).
Proof.
  intros Hn. unfold component. apply getitem_nth.
  assert (Hnc : 0 <= nc) by apply len_nonneg.
  unfold n_to_i, shape0 in *.
  pose proof (Z.mul_div_le (len hf - 1) 2 ltac:(lia)).
  destruct (Z.eq_dec (len hf) 0) as [Hz|Hz]; [|lia].
  rewrite Hz in *. change ((0 - 1) / 2) with (-1) in *. lia.
Qed.

Lemma fold_harmonics (size : Z) :
  forall count lo hi f,
    Z.to_nat (hi - lo) = count ->
    - hf_max <= lo -> hi <= hf_max + 1 ->
    placed_below hf nz omega lo f ->
    exists f',
      foldM (fun k n =>
          current <- getitem hf (n_to_i n nc) ;;
          let row := Z.max 0 n in
          let col := Z.max 0 (- n) in
          let stop_row := Z.min (nz - 1 + n) (nz - 1) in
          let stop_col := Z.min (nz - 1 - n) (nz - 1) in
          place_blocks (S (Z.to_nat nz)) current n dim nz omega
            stop_row stop_col row col k)
        (range lo hi) (tab size size f) = Ret (tab size size f') /\
      placed_below hf nz omega (Z.max lo hi) f'.
Proof.
  induction count as [|count IH]; intros lo hi f Hcount Hlo Hhi Hinv.
  - rewrite range_empty by lia. exists f. split; [reflexivity|].
    rewrite Z.max_l by lia. exact Hinv.
  - rewrite range_cons by lia. cbn [foldM].
    rewrite getitem_component by lia. cbn [bind]. cbv zeta.
    destruct (place_blocks_tab (component hf lo) lo dim nz omega
                (Z.min (nz - 1 + lo) (nz - 1)) (Z.min (nz - 1 - lo) (nz - 1))
                size (S (Z.to_nat nz)) (Z.max 0 lo) (Z.max 0 (- lo)) f)
      as [f1 [Hf1 Hent]]; [lia|].
    rewrite Hf1.
    destruct (IH (lo + 1) hi f1) as [f' [Hf' Hinv']]; [lia|lia|lia| |].
    + intros R Cc a b HR HC Ha Hb. rewrite (Hent R Cc a b Ha Hb).
      destruct (Z.eq_dec (R - Cc) lo) as [Heq|Hne].
      * replace ((Z.max 0 lo <=? R)
                 && (R <=? Z.min (nz - 1 + lo) (nz - 1))
                 && (Cc <=? Z.min (nz - 1 - lo) (nz - 1))
                 && (R - Z.max 0 lo =? Cc - Z.max 0 (- lo))) with true.
        2:{ symmetry. repeat (apply andb_true_iff; split);
              [apply Z.leb_le|apply Z.leb_le|apply Z.leb_le|apply Z.eqb_eq];
              lia. }
        replace ((- hf_max <=? R - Cc) && (R - Cc <? lo + 1)) with true.
        2:{ symmetry. apply andb_true_iff.
            split; [apply Z.leb_le|apply Z.ltb_lt]; lia. }
        rewrite Heq. apply square_nth_default with (dim := dim); auto.
        apply square_harmonic_block; [apply dim_nonneg|].
        apply component_square. lia.
      * replace ((Z.max 0 lo <=? R)
                 && (R <=? Z.min (nz - 1 + lo) (nz - 1))
                 && (Cc <=? Z.min (nz - 1 - lo) (nz - 1))
                 && (R - Z.max 0 lo =? Cc - Z.max 0 (- lo))) with false.
        2:{ symmetry. apply andb_false_iff. right. apply Z.eqb_neq. lia. }
        rewrite (Hinv R Cc a b HR HC Ha Hb).
        replace (R - Cc <? lo + 1) with (R - Cc <? lo); [reflexivity|].
        destruct (Z.ltb_spec (R - Cc) lo); destruct (Z.ltb_spec (R - Cc) (lo + 1));
          try reflexivity; lia.
    + exists f'. split; [exact Hf'|].
      replace (Z.max lo hi) with (Z.max (lo + 1) hi) by lia. exact Hinv'.
Qed.

(** [assemble_k] returns for every number of zones that is not negative,
    and every block of the matrix is the one that [expected_block] gives. *)
Lemma assemble_k_blocks :
  exists k,
    assemble_k hf nz omega = Ret k /\
    square (dim * nz) k /\
    forall row col, 0 <= row < nz -> 0 <= col < nz ->
      get_block k dim row col = expected_block hf nz omega row col.
Proof.
  pose proof dim_nonneg as Hd.
  assert (Hsize : 0 <= dim * nz) by nia.
  unfold assemble_k. 
  rewrite zeros2_tab by assumption. cbn [bind].
  assert (Hmax : -1 <= hf_max).
  { assert (0 <= nc) by apply len_nonneg.
    apply Z.div_le_lower_bound; lia. }
  destruct (fold_harmonics (dim * nz) (Z.to_nat (hf_max + 1 - - hf_max))
              (- hf_max) (hf_max + 1) (fun _ _ => zero))
    as [f [Hf Hinv]]; [reflexivity|lia|lia| |].
  { intros R Cc a b HR HC Ha Hb.
    replace (R - Cc <? - hf_max) with (negb (- hf_max <=? R - Cc))
      by (destruct (Z.leb_spec (- hf_max) (R - Cc));
          destruct (Z.ltb_spec (R - Cc) (- hf_max)); try reflexivity; lia).
    rewrite andb_negb_r. unfold zero_block.
    assert (Ha' : (Z.to_nat a < Z.to_nat dim)%nat) by lia.
    assert (Hb' : (Z.to_nat b < Z.to_nat dim)%nat) by lia.
    rewrite (nth_indep _ [] (repeat zero (Z.to_nat dim)))
      by (rewrite repeat_length; exact Ha').
    rewrite nth_repeat, nth_repeat. reflexivity. }
  exists (tab (dim * nz) (dim * nz) f). split; [exact Hf|]. split.
  { unfold square, tab. rewrite len_map, len_range by lia.
    split; [lia|]. rewrite Forall_forall. intros r Hr.
    apply in_map_iff in Hr. destruct Hr as [x [<- _]].
    rewrite len_map, len_range by lia. lia. }
  intros row col Hrow Hcol.
  assert (Hr0 : 0 <= row * dim) by (apply Z.mul_nonneg_nonneg; lia).
  assert (Hc0 : 0 <= col * dim) by (apply Z.mul_nonneg_nonneg; lia).
  assert (Hr1 : (row + 1) * dim <= dim * nz)
    by (rewrite (Z.mul_comm dim nz); apply Z.mul_le_mono_nonneg_r; lia).
  assert (Hc1 : (col + 1) * dim <= dim * nz)
    by (rewrite (Z.mul_comm dim nz); apply Z.mul_le_mono_nonneg_r; lia).
  rewrite get_block_tab by assumption.
  set (x := Z.max (- hf_max) (hf_max + 1)) in Hinv.
  assert (Hexp : expected_block hf nz omega row col
                 = if (- hf_max <=? row - col) && (row - col <? x)
                   then harmonic_block (component hf (row - col)) (row - col)
                          dim nz omega row
                   else zero_block dim).
  { unfold expected_block, harmonic_block. 
    replace (Z.abs (row - col) <=? hf_max)
      with ((- hf_max <=? row - col) && (row - col <? x))
      by (destruct (Z.leb_spec (- hf_max) (row - col));
          destruct (Z.ltb_spec (row - col) x);
          destruct (Z.leb_spec (Z.abs (row - col)) hf_max);
          cbn [andb]; try reflexivity; lia).
    destruct (_ && _); [|reflexivity].
    destruct (Z.eqb_spec row col) as [->|Hne].
    - rewrite Z.sub_diag. reflexivity.
    - destruct (Z.eqb_spec (row - col) 0); [lia|reflexivity]. }
  rewrite Hexp.
  rewrite (tab_ext _ dim dim _
             (fun a b =>
                nth (Z.to_nat b)
                  (nth (Z.to_nat a)
                     (if (- hf_max <=? row - col) && (row - col <? x)
                      then harmonic_block (component hf (row - col))
                             (row - col) dim nz omega row
                      else zero_block dim) []) zero)).
  2:{ intros a b Ha Hb. apply Hinv; assumption. }
  assert (Hsq : square dim
                  (if (- hf_max <=? row - col) && (row - col <? x)
                   then harmonic_block (component hf (row - col))
                          (row - col) dim nz omega row
                   else zero_block dim)).
  { destruct (_ && _) eqn:Hin.
    - apply andb_true_iff in Hin. destruct Hin as [H1 H2].
      apply Z.leb_le in H1. apply Z.ltb_lt in H2.
      apply square_harmonic_block; [exact Hd|apply component_square; lia].
    - apply square_zero_block. exact Hd. }
  destruct Hsq as [Hs1 Hs2]. apply block_as_tab; assumption.
Qed.

End AssemblerBlocks.

(** The blocks of the matrix that [assemble_k] returns, for a number of
    zones that is not negative: off the diagonal the component for the
    harmonic [row - col], or zero; on the diagonal, entry by entry, the
    component for the harmonic zero plus the identity times [omega] times
    [row - (nz - 1) // 2]. *)
Lemma assemble_k_block_entries (K : Type) `{Scalar K}
    (hf : list (list (list K))) (max_harmonic nz : Z) (omega : K) :
  shape0 hf = 2 * max_harmonic + 1 -> square_components hf -> 0 <= nz ->
  exists k,
    assemble_k hf nz omega = Ret k /\
    square (shape1 hf * nz) k /\
    forall row col, 0 <= row < nz -> 0 <= col < nz ->
      (row <> col ->
       get_block k (shape1 hf) row col
       = if Z.abs (row - col) <=? max_harmonic
         then component hf (row - col)
         else zero_block (shape1 hf)) /\
      (forall a b, 0 <= a < shape1 hf -> 0 <= b < shape1 hf ->
         nth (Z.to_nat b)
             (nth (Z.to_nat a) (get_block k (shape1 hf) row row) []) zero
         = add (nth (Z.to_nat b)
                    (nth (Z.to_nat a) (component hf 0) []) zero)
               (mul (mul (if a =? b then one else zero) omega)
                    (of_int (row - (nz - 1) / 2)))) /\
      component hf (row - col)
      = nth (Z.to_nat (row - col + max_harmonic)) hf [].
Proof.
  intros Hnc Hsq Hnz.
  assert (Hmax : (shape0 hf - 1) / 2 = max_harmonic).
  { rewrite Hnc. replace (2 * max_harmonic + 1 - 1) with (max_harmonic * 2)
      by lia. apply Z.div_mul. lia. }
  assert (Hpos : 0 <= max_harmonic)
    by (pose proof (len_nonneg _ hf); unfold shape0 in *; lia).
  destruct (assemble_k_blocks hf nz omega Hsq Hnz) as [k [Hk [Hside Hblocks]]].
  exists k. split; [exact Hk|]. split; [exact Hside|].
  intros row col Hrow Hcol. split; [|split].
  - intros Hne. rewrite (Hblocks row col Hrow Hcol). unfold expected_block.
    rewrite Hmax. destruct (Z.eqb_spec row col); [contradiction|reflexivity].
  - intros a b Ha Hb. rewrite (Hblocks row row Hrow Hrow).
    unfold expected_block. rewrite Hmax, Z.sub_diag, Z.eqb_refl.
    destruct (Z.leb_spec (Z.abs 0) max_harmonic) as [_|Habs];
      [|cbn [Z.abs] in Habs; lia].
    rewrite (madd_entry (shape1 hf)); try assumption.
    + rewrite scaled_eye_entry by assumption. reflexivity.
    + apply component_square; [exact Hsq|]. rewrite Hmax. lia.
    + apply square_eye_scaled. apply len_nonneg.
  - unfold component, n_to_i. rewrite Hmax. reflexivity.
Qed.

(** C4.  For a tensor of [2 * max_harmonic + 1] square components and an odd
    number of zones not below the number of components, the matrix that
    [assemble_k] returns has at block [(row, col)] the component for harmonic
    [row - col] when [|row - col| <= max_harmonic], and the zero block
    otherwise; on the diagonal, entry [(a, b)] of block [(row, row)] is that
    of the component for the harmonic zero plus [omega] times the harmonic
    offset [row - (nz - 1) // 2] when [a = b] (the identity, entry by
    entry).  The harmonic offsets are centred at zero, [row - 2] for five
    zones. *)
Theorem assemble_k_places_components (K : Type) `{Scalar K}
    (hf : list (list (list K))) (max_harmonic nz : Z) (omega : K) :
  shape0 hf = 2 * max_harmonic + 1 -> square_components hf ->
  Z.odd nz = true -> shape0 hf <= nz ->
  exists k,
    assemble_k hf nz omega = Ret k /\
    forall row col, 0 <= row < nz -> 0 <= col < nz ->
      (row <> col ->
       get_block k (shape1 hf) row col
       = if Z.abs (row - col) <=? max_harmonic
         then component hf (row - col)
         else zero_block (shape1 hf)) /\
      (forall a b, 0 <= a < shape1 hf -> 0 <= b < shape1 hf ->
         nth (Z.to_nat b)
             (nth (Z.to_nat a) (get_block k (shape1 hf) row row) []) zero
         = add (nth (Z.to_nat b)
                    (nth (Z.to_nat a) (component hf 0) []) zero)
               (mul (mul (if a =? b then one else zero) omega)
                    (of_int (row - (nz - 1) / 2)))) /\
      component hf (row - col)
      = nth (Z.to_nat (row - col + max_harmonic)) hf [] /\
      (row - (nz - 1) / 2) + ((nz - 1 - row) - (nz - 1) / 2) = 0 /\
      i_to_n row nz = row - (nz - 1) / 2 /\
      i_to_n row 5 = row - 2.
Proof.
  intros Hnc Hsq Hodd Hle.
  assert (Hnz : 0 <= nz)
    by (pose proof (len_nonneg _ hf); unfold shape0 in *; lia).
  destruct (assemble_k_block_entries K hf max_harmonic nz omega Hnc Hsq Hnz)
    as [k [Hk [_ Hblocks]]].
  exists k. split; [exact Hk|]. intros row col Hrow Hcol.
  destruct (Hblocks row col Hrow Hcol) as [Hoff [Hdiag Hcomp]].
  split; [exact Hoff|]. split; [exact Hdiag|]. split; [exact Hcomp|].
  split; [|split; reflexivity].
  apply Z.odd_spec in Hodd. destruct Hodd as [q ->].
  replace (2 * q + 1 - 1) with (q * 2) by lia. rewrite Z.div_mul by lia.
  lia.
Qed.

(** The tensor of the assembler's test: harmonics -1, 0 and 1 of a two-level
    system. *)
Lemma assemble_k_places_components_witness :
  let hf := [[[-1; -1]; [-1; -1]]; [[0; 0]; [0; 0]]; [[1; 1]; [1; 1]]] in
  exists k,
    assemble_k hf 5 1 = Ret k /\
    forall row col, 0 <= row < 5 -> 0 <= col < 5 ->
      (row <> col ->
       get_block k 2 row col
       = if Z.abs (row - col) <=? 1
         then component hf (row - col)
         else zero_block 2) /\
      (forall a b, 0 <= a < 2 -> 0 <= b < 2 ->
         nth (Z.to_nat b) (nth (Z.to_nat a) (get_block k 2 row row) []) 0
         = nth (Z.to_nat b) (nth (Z.to_nat a) (component hf 0) []) 0
           + (if a =? b then 1 else 0) * 1 * (row - (5 - 1) / 2)) /\
      component hf (row - col) = nth (Z.to_nat (row - col + 1)) hf [] /\
      (row - (5 - 1) / 2) + ((5 - 1 - row) - (5 - 1) / 2) = 0 /\
      i_to_n row 5 = row - (5 - 1) / 2 /\
      i_to_n row 5 = row - 2.
Proof.
  intros hf.
  assert (H1 : shape0 hf = 2 * 1 + 1) by reflexivity.
  assert (H2 : square_components hf)
    by (unfold square_components; repeat constructor).
  assert (H3 : Z.odd 5 = true) by reflexivity.
  assert (H4 : shape0 hf <= 5) by (unfold shape0, len; cbn [length hf]; lia).
  exact (assemble_k_places_components Z hf 1 5 1 H1 H2 H3 H4).
Defined.

(** The assembler's test: two levels, three components, five zones and
    frequency one give the 10 by 10 matrix written in the test. *)
Example assemble_k_test_matrix :
  assemble_k [[[-1; -1]; [-1; -1]]; [[0; 0]; [0; 0]]; [[1; 1]; [1; 1]]] 5 1
  = Ret [[-2;  0; -1; -1;  0;  0;  0;  0;  0;  0];
         [ 0; -2; -1; -1;  0;  0;  0;  0;  0;  0];
         [ 1;  1; -1;  0; -1; -1;  0;  0;  0;  0];
         [ 1;  1;  0; -1; -1; -1;  0;  0;  0;  0];
         [ 0;  0;  1;  1;  0;  0; -1; -1;  0;  0];
         [ 0;  0;  1;  1;  0;  0; -1; -1;  0;  0];
         [ 0;  0;  0;  0;  1;  1;  1;  0; -1; -1];
         [ 0;  0;  0;  0;  1;  1;  0;  1; -1; -1];
         [ 0;  0;  0;  0;  0;  0;  1;  1;  2;  0];
         [ 0;  0;  0;  0;  0;  0;  1;  1;  0;  2]].
Proof. vm_compute. reflexivity. Qed.

(** C5, as the spec has it, fails: with one zone, fewer than the three
    components of the tensor, [assemble_k] returns a matrix, the component
    for the harmonic zero, and [eigensystem] goes on to build a bundle. *)
Lemma assemble_k_one_zone_counterexample :
  let hf := [[[5]]; [[7]]; [[9]]] in
  1 < shape0 hf /\
  assemble_k hf 1 1 = Ret [[7]] /\
  exists L bundle,
    eigensystem L [[[C1]]; [[C0]]; [[C1]]] None 1 1 8 false = Ret bundle.
Proof.
  intros hf. split; [reflexivity|].
  split; [vm_compute; reflexivity|].
  exists {| np_linalg_eig := fun _ => Ret ([(0, 0)]%Q, [[C1]]);
            sparse_eigs := fun _ _ => Exc SolverError;
            gram_schmidt := fun m => m |}.
  eexists. reflexivity.
Qed.

(** C5, amended.  [assemble_k] does not check that the number of zones
    reaches the number of components: for an odd number of zones below it,
    and every tensor of [2 * max_harmonic + 1] square components, it returns
    the square matrix of [dim * nz] rows whose blocks follow the rule of
    the spec, with the components of the harmonics from [nz] on, which fit
    in no block, left out. *)
Theorem assemble_k_accepts_few_zones (K : Type) `{Scalar K}
    (hf : list (list (list K))) (max_harmonic nz : Z) (omega : K) :
  shape0 hf = 2 * max_harmonic + 1 -> square_components hf ->
  Z.odd nz = true -> 1 <= nz < shape0 hf ->
  exists k,
    assemble_k hf nz omega = Ret k /\
    square (shape1 hf * nz) k /\
    forall row col, 0 <= row < nz -> 0 <= col < nz ->
      Z.abs (row - col) < nz /\
      (row <> col ->
       get_block k (shape1 hf) row col
       = if Z.abs (row - col) <=? max_harmonic
         then component hf (row - col)
         else zero_block (shape1 hf)) /\
      (forall a b, 0 <= a < shape1 hf -> 0 <= b < shape1 hf ->
         nth (Z.to_nat b)
             (nth (Z.to_nat a) (get_block k (shape1 hf) row row) []) zero
         = add (nth (Z.to_nat b)
                    (nth (Z.to_nat a) (component hf 0) []) zero)
               (mul (mul (if a =? b then one else zero) omega)
                    (of_int (row - (nz - 1) / 2)))) /\
      (row - (nz - 1) / 2) + ((nz - 1 - row) - (nz - 1) / 2) = 0.
Proof.
  intros Hnc Hsq Hodd Hnz.
  destruct (assemble_k_block_entries K hf max_harmonic nz omega Hnc Hsq)
    as [k [Hk [Hside Hblocks]]]; [lia|].
  exists k. split; [exact Hk|]. split; [exact Hside|].
  intros row col Hrow Hcol.
  destruct (Hblocks row col Hrow Hcol) as [Hoff [Hdiag _]].
  split; [lia|]. split; [exact Hoff|]. split; [exact Hdiag|].
  apply Z.odd_spec in Hodd. destruct Hodd as [q ->].
  replace (2 * q + 1 - 1) with (q * 2) by lia. rewrite Z.div_mul by lia.
  lia.
Qed.

Lemma assemble_k_accepts_few_zones_witness :
  let hf := [[[5]]; [[7]]; [[9]]] in
  exists k,
    assemble_k hf 1 2 = Ret k /\
    square (1 * 1) k /\
    forall row col, 0 <= row < 1 -> 0 <= col < 1 ->
      Z.abs (row - col) < 1 /\
      (row <> col ->
       get_block k 1 row col
       = if Z.abs (row - col) <=? 1
         then component hf (row - col)
         else zero_block 1) /\
      (forall a b, 0 <= a < 1 -> 0 <= b < 1 ->
         nth (Z.to_nat b) (nth (Z.to_nat a) (get_block k 1 row row) []) 0
         = nth (Z.to_nat b) (nth (Z.to_nat a) (component hf 0) []) 0
           + (if a =? b then 1 else 0) * 2 * (row - (1 - 1) / 2)) /\
      (row - (1 - 1) / 2) + ((1 - 1 - row) - (1 - 1) / 2) = 0.
Proof.
  intros hf.
  assert (H1 : shape0 hf = 2 * 1 + 1) by reflexivity.
  assert (H2 : square_components hf)
    by (unfold square_components; repeat constructor).
  assert (H3 : Z.odd 1 = true) by reflexivity.
  assert (H4 : 1 <= 1 < shape0 hf)
    by (unfold shape0, len; cbn [length hf]; lia).
  exact (assemble_k_accepts_few_zones Z hf 1 1 2 H1 H2 H3 H4).
Defined.


(** ** Rotation with conjugation *)

(** C7.  Two blocks rotated by three: [np.roll] takes the amount modulo the
    length and swaps the blocks, as a rotation by one does;
    [conjugate_rotate_into] clips its slices at the ends of the array and
    leaves the blocks where they are. *)
Theorem conjugate_rotate_into_past_length :
  let input := [[C0]; [C1]] in
  let out := [[C0]; [C0]] in
  conjugate_rotate_into out input 3 = Ret (conj2 input) /\
  conj2 (roll input 3) = conj2 [[C1]; [C0]] /\
  conjugate_rotate_into out input 3 <> Ret (conj2 (roll input 3)).
Proof.
  intros input out. split; [reflexivity|]. split; [reflexivity|].
  intros Heq. change (conjugate_rotate_into out input 3)
    with (Ret (conj2 input)) in Heq.
  change (conj2 (roll input 3)) with (conj2 [[C1]; [C0]]) in Heq.
  inversion Heq as [Hre]. lra.
Qed.

Lemma setslice_exact (A : Type) (a v : list A) (lo hi : option Z) (l h : Z) :
  lo_bound (len a) lo = l -> hi_bound (len a) hi = h ->
  length v = Z.to_nat (h - l) ->
  setslice a lo hi v
  = Ret (firstn (Z.to_nat l) a ++ v
         ++ skipn (Z.to_nat l + Z.to_nat (h - l)) a).
Proof.
  intros Hl Hh Hv. unfold setslice. rewrite Hl, Hh, Hv, Nat.eqb_refl.
  reflexivity.
Qed.

Lemma slice_exact (A : Type) (a : list A) (lo hi : option Z) (l h : Z) :
  lo_bound (len a) lo = l -> hi_bound (len a) hi = h ->
  slice a lo hi = firstn (Z.to_nat (h - l)) (skipn (Z.to_nat l) a).
Proof. intros Hl Hh. unfold slice. rewrite Hl, Hh. reflexivity. Qed.

Lemma clip_nonneg (n b : Z) : 0 <= b <= n -> clip n b = b.
Proof.
  intros Hb. unfold clip. destruct (Z.ltb_spec b 0); lia.
Qed.

Lemma clip_neg (n b : Z) : - n <= b < 0 -> clip n b = b + n.
Proof.
  intros Hb. unfold clip. destruct (Z.ltb_spec b 0); lia.
Qed.

Lemma length_conj2 (m : list (list C)) : length (conj2 m) = length m.
Proof. unfold conj2. apply length_map. Qed.

Lemma conj2_app (m1 m2 : list (list C)) :
  conj2 (m1 ++ m2) = conj2 m1 ++ conj2 m2.
Proof. unfold conj2. apply map_app. Qed.

Lemma roll_split (A : Type) (a : list A) (shift : Z) (s : nat) :
  0 < len a -> Z.of_nat s = len a - shift mod len a ->
  roll a shift = skipn s a ++ firstn s a.
Proof.
  intros Hpos Hs. unfold roll.
  destruct (Z.eqb_spec (len a) 0); [lia|].
  replace (Z.to_nat (len a - shift mod len a)) with s by lia. reflexivity.
Qed.

Lemma firstn_app_exact (A : Type) (k : nat) (l1 l2 : list A) :
  length l1 = k -> firstn k (l1 ++ l2) = l1.
Proof.
  intros <-. rewrite firstn_app, Nat.sub_diag, firstn_all. cbn [firstn].
  apply app_nil_r.
Qed.

Lemma skipn_app_exact (A : Type) (k : nat) (l1 l2 : list A) :
  length l1 = k -> skipn k (l1 ++ l2) = l2.
Proof.
  intros <-. rewrite skipn_app, Nat.sub_diag, skipn_all. reflexivity.
Qed.

Lemma Forall_firstn (A : Type) (P : A -> Prop) (n : nat) (l : list A) :
  Forall P l -> Forall P (firstn n l).
Proof.
  revert n. induction l as [|x l IH]; intros [|n] H; cbn [firstn];
    try constructor.
  - exact (Forall_inv H).
  - apply IH. exact (Forall_inv_tail H).
Qed.

Lemma Forall_skipn (A : Type) (P : A -> Prop) (n : nat) (l : list A) :
  Forall P l -> Forall P (skipn n l).
Proof.
  revert n. induction l as [|x l IH]; intros [|n] H; cbn [skipn];
    try assumption.
  apply IH. exact (Forall_inv_tail H).
Qed.

Lemma Forall_roll (A : Type) (P : A -> Prop) (a : list A) (shift : Z) :
  Forall P a -> Forall P (roll a shift).
Proof.
  intros H. unfold roll. destruct (len a =? 0); [exact H|].
  apply Forall_app. split; [apply Forall_skipn|apply Forall_firstn];
    exact H.
Qed.

Lemma Forall_conj2 (w : Z) (m : list (list C)) :
  Forall (fun r => len r = w) m -> Forall (fun r => len r = w) (conj2 m).
Proof.
  intros Hall. unfold conj2. rewrite Forall_map.
  eapply Forall_impl; [|exact Hall]. cbv beta. intros r Hr.
  unfold conj1, len. rewrite length_map. exact Hr.
Qed.

Lemma mapM_broadcast1_same (w : Z) (v : list (list C)) :
  Forall (fun r => len r = w) v -> mapM (broadcast1 w) v = Ret v.
Proof.
  induction v as [|r v IH]; intros Hall; [reflexivity|].
  cbn [mapM]. unfold broadcast1 at 1.
  rewrite (Forall_inv Hall), Z.eqb_refl. cbn [bind].
  rewrite (IH (Forall_inv_tail Hall)). reflexivity.
Qed.

Lemma shape1_rows (w : Z) (m : list (list C)) :
  1 <= len m -> Forall (fun r => len r = w) m -> shape1 m = w.
Proof.
  destruct m as [|r m]; intros Hlen Hall; [cbn in Hlen; lia|].
  exact (Forall_inv Hall).
Qed.

(** Between arrays of one width, of at least one row, the assignment to a
    slice needs no broadcasting of the rows. *)
Lemma setslice2_same_width (out value : list (list C)) (lo hi : option Z)
    (w : Z) :
  1 <= len out ->
  Forall (fun r => len r = w) out -> Forall (fun r => len r = w) value ->
  setslice2 out lo hi value w = setslice out lo hi value.
Proof.
  intros Hlen Hout Hvalue. unfold setslice2.
  rewrite (shape1_rows w out Hlen Hout), Z.eqb_refl. cbn [orb bind].
  rewrite mapM_broadcast1_same by exact Hvalue. reflexivity.
Qed.

(** Within one turn either way, and between arrays of one shape,
    [conjugate_rotate_into] is the conjugate of [np.roll], as its docstring
    says: the amounts that [combined_factors] passes, [1 - n_zones], ...,
    [n_zones - 1], are of this kind. *)
Lemma conjugate_rotate_into_within_length (out input : list (list C))
    (amount w : Z) :
  len out = len input ->
  Forall (fun r => len r = w) out -> Forall (fun r => len r = w) input ->
  - len input <= amount <= len input ->
  conjugate_rotate_into out input amount = Ret (conj2 (roll input amount)).
Proof.
  intros Hlen Hwout Hwin Hamount. set (n := len input) in *.
  assert (Hn : n = Z.of_nat (length input)) by reflexivity.
  assert (Hout : Z.of_nat (length out) = n) by exact Hlen.
  destruct (Z.eq_dec n 0) as [Hz|Hnz].
  { destruct input; [|cbn [length] in Hn; lia].
    destruct out; [|cbn [length] in Hout; lia].
    replace amount with 0 by lia. reflexivity. }
  unfold conjugate_rotate_into. cbv zeta.
  rewrite (shape1_rows w input) by (first [exact Hwin|unfold len; lia]).
  assert (Hrows : 1 <= len out) by (unfold len; lia).
  destruct (Z.ltb_spec amount 0) as [Hneg|Hnonneg].
  - (* a rotation towards lower indices *)
    set (a := - amount). assert (Ha : 0 < a <= n) by lia.
    replace (Z.abs amount) with a by lia.
    rewrite (slice_exact _ input (Some a) None a n);
      [|apply clip_nonneg; fold n; lia|reflexivity].
    rewrite (slice_exact _ input None (Some a) 0 a);
      [|reflexivity|apply clip_nonneg; fold n; lia].
    rewrite (firstn_all2 (skipn (Z.to_nat a) input))
      by (rewrite length_skipn; lia).
    rewrite Z.sub_0_r. change (skipn (Z.to_nat 0) input) with input.
    set (front := conj2 (skipn (Z.to_nat a) input)).
    set (back := conj2 (firstn (Z.to_nat a) input)).
    assert (Hfront : length front = Z.to_nat (n - a)).
    { unfold front. rewrite length_conj2, length_skipn. lia. }
    assert (Hback : length back = Z.to_nat a).
    { unfold back. rewrite length_conj2, length_firstn. lia. }
    assert (Hwfront : Forall (fun r => len r = w) front)
      by (apply Forall_conj2, Forall_skipn; exact Hwin).
    assert (Hwback : Forall (fun r => len r = w) back)
      by (apply Forall_conj2, Forall_firstn; exact Hwin).
    rewrite (setslice2_same_width out front None (Some amount) w)
      by assumption.
    rewrite (setslice_exact _ out front None (Some amount) 0 (n - a)).
    2:{ reflexivity. }
    2:{ cbn [hi_bound]. rewrite Hlen. fold n. rewrite clip_neg by lia. lia. }
    2:{ rewrite Hfront. f_equal. lia. }
    cbn [bind]. cbn [Z.to_nat firstn app Nat.add].
    set (out1 := front ++ skipn (Z.to_nat (n - a - 0)) out).
    assert (Hlen1 : len out1 = n).
    { unfold out1, len. rewrite length_app, length_skipn. lia. }
    rewrite (setslice2_same_width out1 back (Some amount) None w);
      [|lia|apply Forall_app; split; [exact Hwfront|
                                      apply Forall_skipn; exact Hwout]|
       exact Hwback].
    rewrite (setslice_exact _ out1 back (Some amount) None (n - a) n).
    2:{ cbn [lo_bound]. rewrite Hlen1. rewrite clip_neg by lia. lia. }
    2:{ cbn [hi_bound]. exact Hlen1. }
    2:{ rewrite Hback. f_equal. lia. }
    f_equal. unfold out1.
    rewrite firstn_app_exact by exact Hfront.
    rewrite skipn_all2
      by (rewrite length_app, length_skipn; lia).
    rewrite app_nil_r.
    rewrite (roll_split _ input amount (Z.to_nat a)); [|lia|].
    2:{ fold n. destruct (Z.eq_dec a n) as [Hfull|Hpart].
        - replace amount with (- 1 * n) by lia.
          rewrite Z.mod_mul by lia. lia.
        - replace amount with (n - a + - 1 * n) by lia.
          rewrite Z.mod_add, Z.mod_small by lia. lia. }
    rewrite conj2_app. reflexivity.
  - destruct (Z.ltb_spec 0 amount) as [Hpos|Hzero].
    + (* a rotation towards higher indices *)
      set (a := amount) in *. assert (Ha : 0 < a <= n) by lia.
      rewrite (slice_exact _ input None (Some (- a)) 0 (n - a));
        [|reflexivity|cbn [hi_bound]; fold n; rewrite clip_neg by lia; lia].
      rewrite (slice_exact _ input (Some (- a)) None (n - a) n);
        [|cbn [lo_bound]; fold n; rewrite clip_neg by lia; lia|reflexivity].
      rewrite (firstn_all2 (skipn (Z.to_nat (n - a)) input))
        by (rewrite length_skipn; lia).
      rewrite Z.sub_0_r. change (skipn (Z.to_nat 0) input) with input.
      set (front := conj2 (skipn (Z.to_nat (n - a)) input)).
      set (back := conj2 (firstn (Z.to_nat (n - a)) input)).
      assert (Hfront : length front = Z.to_nat a).
      { unfold front. rewrite length_conj2, length_skipn. lia. }
      assert (Hback : length back = Z.to_nat (n - a)).
      { unfold back. rewrite length_conj2, length_firstn. lia. }
      assert (Hwfront : Forall (fun r => len r = w) front)
        by (apply Forall_conj2, Forall_skipn; exact Hwin).
      assert (Hwback : Forall (fun r => len r = w) back)
        by (apply Forall_conj2, Forall_firstn; exact Hwin).
      rewrite (setslice2_same_width out back (Some a) None w)
        by assumption.
      rewrite (setslice_exact _ out back (Some a) None a n).
      2:{ cbn [lo_bound]. rewrite Hlen. fold n. apply clip_nonneg. lia. }
      2:{ cbn [hi_bound]. exact Hlen. }
      2:{ exact Hback. }
      cbn [bind].
      set (out1 := firstn (Z.to_nat a) out ++ back
                   ++ skipn (Z.to_nat a + Z.to_nat (n - a)) out).
      assert (Hlen1 : len out1 = n).
      { unfold out1, len. rewrite !length_app, length_firstn, length_skipn.
        lia. }
      rewrite (setslice2_same_width out1 front None (Some a) w);
        [|lia|repeat (apply Forall_app; split);
              [apply Forall_firstn; exact Hwout|exact Hwback|
               apply Forall_skipn; exact Hwout]|
         exact Hwfront].
      rewrite (setslice_exact _ out1 front None (Some a) 0 a).
      2:{ reflexivity. }
      2:{ cbn [hi_bound]. rewrite Hlen1. apply clip_nonneg. lia. }
      2:{ rewrite Hfront. f_equal. lia. }
      f_equal. cbn [Z.to_nat firstn app Nat.add]. rewrite Z.sub_0_r.
      unfold out1.
      rewrite skipn_app_exact by (rewrite length_firstn; lia).
      rewrite (skipn_all2 out) by lia. rewrite app_nil_r.
      destruct (Z.eq_dec a n) as [Hfull|Hpart].
      * rewrite (roll_split _ input a (length input));
          [|lia|fold n; rewrite Hfull, Z_mod_same_full; lia].
        rewrite skipn_all, firstn_all. unfold front, back.
        replace (Z.to_nat (n - a)) with 0%nat by lia.
        cbn [skipn firstn conj2 map app]. apply app_nil_r.
      * rewrite (roll_split _ input a (Z.to_nat (n - a)));
          [|lia|fold n; rewrite Z.mod_small by lia; lia].
        rewrite conj2_app. reflexivity.
    + (* no rotation *)
      replace amount with 0 by lia.
      rewrite (setslice2_same_width out (conj2 input) None None w);
        [|exact Hrows|exact Hwout|apply Forall_conj2; exact Hwin].
      rewrite (setslice_exact _ out _ None None 0 n);
        [|reflexivity|exact Hlen|rewrite length_conj2; lia].
      f_equal. cbn [Z.to_nat firstn app Nat.add].
      rewrite skipn_all2 by lia. rewrite app_nil_r.
      rewrite (roll_split _ input 0 (length input));
        [|lia|fold n; rewrite Z.mod_0_l by lia; lia].
      rewrite skipn_all, firstn_all. reflexivity.
Qed.

(** ** Complex numbers *)

Lemma Cconj_involutive (x : C) : Cconj (Cconj x) = x.
Proof. destruct x as [a b]. unfold Cconj. cbn [fst snd]. f_equal. lra. Qed.

Lemma conj2_involutive (m : list (list C)) : conj2 (conj2 m) = m.
Proof.
  unfold conj2, conj1. rewrite map_map. rewrite <- (map_id m) at 2.
  apply map_ext. intros v. rewrite map_map. rewrite <- (map_id v) at 2.
  apply map_ext. exact Cconj_involutive.
Qed.

Lemma Cmult_1_l (x : C) : Cmult C1 x = x.
Proof.
  destruct x as [a b]. unfold Cmult, C1, RtoC. cbn [fst snd]. f_equal; lra.
Qed.

Lemma Cexp_0_times (c : C) : Cexp (Cmult (RtoC 0) c) = C1.
Proof.
  destruct c as [a b]. unfold Cexp, Cmult, C1, RtoC. cbn [fst snd].
  replace (0 * a - 0 * b)%R with 0%R by lra.
  replace (0 * b + 0 * a)%R with 0%R by lra.
  rewrite exp_0, cos_0, sin_0. f_equal; lra.
Qed.

Lemma vscale_1 (v : list C) : vscale C1 v = v.
Proof.
  unfold vscale. rewrite <- (map_id v) at 2. apply map_ext. exact Cmult_1_l.
Qed.

Lemma zip_with_vscale_ones (weights : list C) (blocks : list (list C)) :
  Forall (fun w => w = C1) weights -> length weights = length blocks ->
  zip_with vscale weights blocks = blocks.
Proof.
  intros Hall. revert blocks.
  induction Hall as [|w weights Hw Hall IH]; intros [|b blocks] Hlen;
    cbn [length] in Hlen; try discriminate; cbn [zip_with]; [reflexivity|].
  subst w. rewrite vscale_1, IH by lia. reflexivity.
Qed.

(** ** The shape of the Floquet matrix *)

Lemma foldM_ret_inv (A S : Type) (body : S -> A -> result S) (P : S -> Prop)
    (l : list A) :
  (forall s x s', P s -> body s x = Ret s' -> P s') ->
  forall s s', P s -> foldM body l s = Ret s' -> P s'.
Proof.
  intros Hbody. induction l as [|x l IH]; intros s s' Hs Hret;
    cbn [foldM] in Hret.
  - inversion Hret; subst. exact Hs.
  - apply bind_ret_inv in Hret. destruct Hret as [s1 [H1 H2]].
    apply (IH s1 s'); [|exact H2]. exact (Hbody s x s1 Hs H1).
Qed.

Lemma len_mapi (A B : Type) (f : Z -> A -> B) (l : list A) :
  len (mapi f l) = len l.
Proof.
  unfold mapi, len at 1. rewrite length_zip_with, length_range.
  unfold len. lia.
Qed.

Lemma len_set_block (K : Type) (block k : list (list K))
    (dim nz row col : Z) :
  len (set_block block k dim nz row col) = len k.
Proof. unfold set_block. apply len_mapi. Qed.

Lemma len_place_blocks (K : Type) `{Scalar K} (current : list (list K))
    (n dim nz : Z) (omega : K) (stop_row stop_col : Z) :
  forall fuel row col k k',
    place_blocks fuel current n dim nz omega stop_row stop_col row col k
    = Ret k' ->
    len k' = len k.
Proof.
  induction fuel as [|fuel IH]; intros row col k k' Hret;
    cbn [place_blocks] in Hret; [discriminate|].
  destruct (_ && _).
  - apply IH in Hret. rewrite Hret.
    destruct (n =? 0); apply len_set_block.
  - inversion Hret. reflexivity.
Qed.

Lemma len_assemble_k (K : Type) `{Scalar K} (hf : list (list (list K)))
    (nz : Z) (omega : K) (k : list (list K)) :
  assemble_k hf nz omega = Ret k -> len k = shape1 hf * nz.
Proof.
  unfold assemble_k. intros Hret.
  apply bind_ret_inv in Hret. destruct Hret as [k0 [Hz Hfold]].
  assert (Hk0 : len k0 = shape1 hf * nz).
  { unfold zeros2 in Hz. destruct (_ || _) eqn:Hneg; [discriminate|].
    apply orb_false_iff in Hneg. destruct Hneg as [Hneg _].
    apply Z.ltb_ge in Hneg. inversion Hz. unfold len.
    rewrite repeat_length. lia. }
  refine (foldM_ret_inv _ _ _ (fun s => len s = shape1 hf * nz) _ _
            k0 k Hk0 Hfold).
  intros s n s' Hs Hbody. apply bind_ret_inv in Hbody.
  destruct Hbody as [current [_ Hplace]]. cbv zeta in Hplace.
  apply len_place_blocks in Hplace. lia.
Qed.

Lemma place_blocks_total (K : Type) `{Scalar K} (current : list (list K))
    (n dim nz : Z) (omega : K) (stop_row stop_col : Z) :
  forall fuel row col k,
    (Z.to_nat (stop_row + 1 - row) < fuel)%nat ->
    place_blocks fuel current n dim nz omega stop_row stop_col row col k
    <> OutOfFuel.
Proof.
  induction fuel as [|fuel IH]; intros row col k Hfuel; [lia|].
  cbn [place_blocks]. destruct (_ && _) eqn:Hgo; [|discriminate].
  apply andb_true_iff in Hgo. destruct Hgo as [Hr _]. apply Z.leb_le in Hr.
  apply IH. lia.
Qed.

(** The counter of iterations given to the block loop is never exhausted:
    [assemble_k] returns or raises. *)
Lemma assemble_k_total (K : Type) `{Scalar K} (hf : list (list (list K)))
    (nz : Z) (omega : K) :
  assemble_k hf nz omega <> OutOfFuel.
Proof.
  unfold assemble_k. apply bind_total.
  - unfold zeros2. destruct (_ || _); discriminate.
  - intros k. apply foldM_total. intros s n.
    apply bind_total; [apply getitem_total|]. intros current. cbv zeta.
    apply place_blocks_total. lia.
Qed.

(** ** Bundles *)

(** What [eigensystem] puts in the bundle it returns. *)
Lemma eigensystem_ret (L : Library) (hamiltonian : list (list (list C)))
    (dhamiltonian : option (list (list (list (list C))))) (n_zones : Z)
    (freq : Q) (decimals : Z) (sparse : bool) (bundle : Eigensystem) :
  eigensystem L hamiltonian dhamiltonian n_zones freq decimals sparse
  = Ret bundle ->
  exists k,
    assemble_k hamiltonian n_zones (QtoC freq) = Ret k /\
    diagonalise L (if sparse then Sparse k else Dense k)
      (shape1 hamiltonian) freq decimals
    = Ret (quasienergies bundle, k_eigenvectors bundle) /\
    frequency bundle = freq /\
    initial_floquet_bras bundle
    = conj2 (sum_axis1 (k_eigenvectors bundle)) /\
    abstract_ket_coefficients bundle
    = map (fun m => Cmult (Cmult Ci (QtoC freq)) (ZtoC m))
          (range ((1 - n_zones) / 2) (1 + n_zones / 2)) /\
    (dhamiltonian = None -> k_derivatives bundle = None).
Proof.
  unfold eigensystem. intros Hret.
  apply bind_ret_inv in Hret. destruct Hret as [k [Hk Hret]].
  apply bind_ret_inv in Hret. destruct Hret as [[vals kv] [Hd Hret]].
  apply bind_ret_inv in Hret. destruct Hret as [dk [Hdk Hret]].
  inversion Hret; subst bundle; clear Hret. cbn [quasienergies
    k_eigenvectors frequency initial_floquet_bras abstract_ket_coefficients
    k_derivatives].
  exists k. repeat split; try assumption; try reflexivity.
  intros ->. inversion Hdk. reflexivity.
Qed.

(** The eigenvectors of a bundle come in as many blocks as there are
    zones. *)
Lemma eigensystem_blocks (L : Library) (hamiltonian : list (list (list C)))
    (dhamiltonian : option (list (list (list (list C))))) (n_zones : Z)
    (freq : Q) (decimals : Z) (sparse : bool) (bundle : Eigensystem) :
  eigensystem L hamiltonian dhamiltonian n_zones freq decimals sparse
  = Ret bundle ->
  0 <= n_zones /\
  shape1 (k_eigenvectors bundle) = n_zones /\
  Forall (fun v => len v = n_zones) (k_eigenvectors bundle).
Proof.
  intros Hret. apply eigensystem_ret in Hret.
  destruct Hret as [k [Hk [Hd _]]].
  apply len_assemble_k in Hk.
  unfold diagonalise in Hd.
  apply bind_ret_inv in Hd. destruct Hd as [[evals evecs] [_ Hd]].
  apply bind_ret_inv in Hd. destruct Hd as [[vals rows0] [_ Hd]].
  apply bind_ret_inv in Hd. destruct Hd as [groups [_ Hd]].
  apply bind_ret_inv in Hd. destruct Hd as [rows [_ Hd]].
  apply bind_ret_inv in Hd. destruct Hd as [nz [Hdiv Hd]].
  apply bind_ret_inv in Hd. destruct Hd as [vectors [Hshape Hd]].
  inversion Hd as [[Hvals Hvecs]]; clear Hd.
  apply floordiv_ret in Hdiv. destruct Hdiv as [Hh Hnz].
  assert (Hnz' : nz = n_zones).
  { rewrite Hnz. replace (shape0 (k_array (if sparse then Sparse k else Dense k)))
      with (len k) by (destruct sparse; reflexivity).
    rewrite Hk, Z.mul_comm. apply Z.div_mul. exact Hh. }
  apply reshape3_ret in Hshape.
  destruct Hshape as [Hh0 [Hnz0 [_ [Hlen Hall]]]].
  rewrite Hnz' in Hnz0, Hall. rewrite <- Hvecs.
  split; [exact Hnz0|]. split; [|exact Hall].
  unfold shape1. destruct vectors as [|v vectors].
  - rewrite len_nil in Hlen. lia.
  - cbn [hd]. apply Forall_inv in Hall. exact Hall.
Qed.

Lemma len_fourier_modes (n_zones : Z) :
  0 <= n_zones -> Z.odd n_zones = true ->
  len (range ((1 - n_zones) / 2) (1 + n_zones / 2)) = n_zones.
Proof.
  intros Hnz Hodd. apply Z.odd_spec in Hodd. destruct Hodd as [q ->].
  replace (1 - (2 * q + 1)) with (- q * 2) by lia. rewrite Z.div_mul by lia.
  replace (2 * q + 1) with (1 + q * 2) by lia.
  rewrite Z.div_add by lia. change (1 / 2) with 0.
  rewrite len_range by lia. lia.
Qed.

(** C10, as it stands, fails: [eigensystem] also builds a bundle for two
    zones, with three coefficients for the two blocks of each eigenvector,
    and [current_floquet_kets] cannot pair them. *)
Lemma current_floquet_kets_even_zones_counterexample :
  let L := {| np_linalg_eig := fun _ =>
                Ret ([(0, 0); (1, 0)]%Q, [[C1; C0]; [C0; C1]]);
              sparse_eigs := fun _ _ => Exc SolverError;
              gram_schmidt := fun m => m |} in
  exists bundle,
    eigensystem L [[[C0]]; [[C0]]; [[C0]]] None 2 1 8 false = Ret bundle /\
    current_floquet_kets bundle 0 = Exc ValueError /\
    current_floquet_kets bundle 0
    <> Ret (conj2 (initial_floquet_bras bundle)).
Proof.
  intros L. eexists. split; [reflexivity|]. split; [reflexivity|].
  discriminate.
Qed.

(** C10, amended.  For a bundle that [eigensystem] builds for an odd number
    of zones, [current_floquet_kets] at time zero returns the entrywise
    conjugate of the bundle's initial bras: the weights are all one, so each
    ket is the sum of the blocks of its eigenvector. *)
Theorem current_floquet_kets_at_zero (L : Library)
    (hamiltonian : list (list (list C)))
    (dhamiltonian : option (list (list (list (list C))))) (n_zones : Z)
    (freq : Q) (decimals : Z) (sparse : bool) (bundle : Eigensystem) :
  Z.odd n_zones = true ->
  eigensystem L hamiltonian dhamiltonian n_zones freq decimals sparse
  = Ret bundle ->
  current_floquet_kets bundle 0 = Ret (conj2 (initial_floquet_bras bundle)).
Proof.
  intros Hodd Hret.
  destruct (eigensystem_blocks _ _ _ _ _ _ _ _ Hret) as [Hnz [Hshape Hall]].
  apply eigensystem_ret in Hret.
  destruct Hret as [k [_ [_ [_ [Hbras [Hcoeff _]]]]]].
  unfold current_floquet_kets. rewrite Hbras, conj2_involutive, Hcoeff.
  set (kv := k_eigenvectors bundle) in *.
  set (weights := map _ (map _ _)).
  assert (Hlen : len weights = n_zones).
  { unfold weights. rewrite !len_map. apply len_fourier_modes; assumption. }
  assert (Hones : Forall (fun w => w = C1) weights).
  { unfold weights. rewrite Forall_forall. intros w Hw.
    apply in_map_iff in Hw. destruct Hw as [c [<- _]]. apply Cexp_0_times. }
  unfold times_axis1. rewrite Hlen, Hshape, Z.eqb_refl. cbn [bind].
  do 2 f_equal. rewrite <- (map_id kv) at 2. apply map_ext_in.
  intros blocks Hin. apply zip_with_vscale_ones; [exact Hones|].
  rewrite Forall_forall in Hall. specialize (Hall blocks Hin).
  unfold len in Hlen, Hall. lia.
Qed.

Lemma current_floquet_kets_at_zero_witness :
  let L := {| np_linalg_eig := fun _ =>
                Ret ([(-1, 0); (0, 0); (1, 0)]%Q,
                     [[C1; C0; C0]; [C0; C1; C0]; [C0; C0; C1]]);
              sparse_eigs := fun _ _ => Exc SolverError;
              gram_schmidt := fun m => m |} in
  exists bundle,
    eigensystem L [[[C0]]] None 3 1 8 false = Ret bundle /\
    current_floquet_kets bundle 0 = Ret (conj2 (initial_floquet_bras bundle)).
Proof.
  intros L. eexists. split; [reflexivity|].
  apply (current_floquet_kets_at_zero L [[[C0]]] None 3 1 8 false);
    reflexivity.
Defined.

(** ** The control gradient *)

Lemma du_dcontrols_none (uninit : C) (bundle : Eigensystem) (time : R) :
  k_derivatives bundle = None ->
  du_dcontrols uninit bundle time = Exc AttributeError.
Proof.
  intros Hnone. unfold du_dcontrols, n_parameters_of. rewrite Hnone.
  reflexivity.
Qed.

Lemma du_dcontrols_no_parameters (uninit : C) (bundle : Eigensystem)
    (time : R) :
  k_derivatives bundle = Some [] ->
  du_dcontrols uninit bundle time = Ret [].
Proof.
  intros Hsome. unfold du_dcontrols, n_parameters_of. rewrite Hsome.
  cbn [bind shape0]. rewrite len_nil. unfold full3.
  replace (shape2 (k_eigenvectors bundle) <? 0) with false
    by (symmetry; apply Z.ltb_ge, len_nonneg).
  reflexivity.
Qed.

(** C6.  A bundle built without the derivative of the Hamiltonian has no
    derivative matrices, and [du_dcontrols] on it raises (an
    [AttributeError], from reading the shape of [None]) and returns
    nothing, at every time; the tensor without entries is what it returns
    for a bundle that has derivative data for no parameter. *)
Theorem du_dcontrols_without_derivatives (uninit : C) (L : Library)
    (hamiltonian : list (list (list C))) (n_zones : Z) (freq : Q)
    (decimals : Z) (sparse : bool) (bundle : Eigensystem) (time : R) :
  eigensystem L hamiltonian None n_zones freq decimals sparse = Ret bundle ->
  k_derivatives bundle = None /\
  du_dcontrols uninit bundle time = Exc AttributeError /\
  (forall out, du_dcontrols uninit bundle time <> Ret out) /\
  (forall other, k_derivatives other = Some [] ->
                 du_dcontrols uninit other time = Ret []).
Proof.
  intros Hret. apply eigensystem_ret in Hret.
  destruct Hret as [k [_ [_ [_ [_ [_ Hnone]]]]]].
  specialize (Hnone eq_refl).
  split; [exact Hnone|]. split; [apply du_dcontrols_none; exact Hnone|].
  split.
  - intros out. rewrite du_dcontrols_none by exact Hnone. discriminate.
  - intros other. apply du_dcontrols_no_parameters.
Qed.

Lemma du_dcontrols_without_derivatives_witness :
  let L := {| np_linalg_eig := fun _ =>
                Ret ([(-1, 0); (0, 0); (1, 0)]%Q,
                     [[C1; C0; C0]; [C0; C1; C0]; [C0; C0; C1]]);
              sparse_eigs := fun _ _ => Exc SolverError;
              gram_schmidt := fun m => m |} in
  exists bundle,
    eigensystem L [[[C0]]] None 3 1 8 false = Ret bundle /\
    du_dcontrols C0 bundle 1 = Exc AttributeError.
Proof.
  intros L. eexists. split; [reflexivity|].
  refine (proj1 (proj2 (du_dcontrols_without_derivatives C0 L [[[C0]]] 3 1 8
                          false _ 1%R _))).
  reflexivity.
Defined.

(** ** Arrays with three axes *)

Lemma getitem_map_range (A : Type) (g : Z -> A) (d i : Z) :
  0 <= i < d -> getitem (map g (range 0 d)) i = Ret (g i).
Proof.
  intros Hi. apply getitem_nth_error; [lia|].
  rewrite nth_error_map, nth_error_range.
  destruct (Z.ltb_spec (Z.of_nat (Z.to_nat i)) (d - 0)); [|lia].
  cbn [option_map]. do 2 f_equal. lia.
Qed.

Lemma setitem_map_range (A : Type) (g : Z -> A) (d i : Z) (v : A) :
  0 <= i < d ->
  setitem (map g (range 0 d)) i v
  = Ret (map (fun k => if k =? i then v else g k) (range 0 d)).
Proof.
  intros Hi. rewrite setitem_inside
    by (rewrite len_map, len_range; lia).
  f_equal. apply nth_error_ext. intros p.
  rewrite nth_error_map, nth_error_range.
  destruct (Nat.eq_dec p (Z.to_nat i)) as [->|Hne].
  - rewrite nth_error_upd_eq
      by (rewrite length_map, length_range; lia).
    destruct (Z.ltb_spec (Z.of_nat (Z.to_nat i)) (d - 0)); [|lia].
    cbn [option_map]. replace (0 + Z.of_nat (Z.to_nat i)) with i by lia.
    rewrite Z.eqb_refl. reflexivity.
  - rewrite nth_error_upd_neq by exact Hne.
    rewrite nth_error_map, nth_error_range.
    destruct (Z.ltb_spec (Z.of_nat p) (d - 0)); [|reflexivity].
    cbn [option_map]. destruct (Z.eqb_spec (0 + Z.of_nat p) i); [lia|].
    reflexivity.
Qed.

Lemma getitem3_tab3 (A : Type) (d0 d1 d2 : Z) (f : Z -> Z -> Z -> A)
    (n i j : Z) :
  0 <= n < d0 -> 0 <= i < d1 -> 0 <= j < d2 ->
  getitem3 (tab3 d0 d1 d2 f) n i j = Ret (f n i j).
Proof.
  intros Hn Hi Hj. unfold getitem3, tab3.
  rewrite getitem_map_range by exact Hn. cbn [bind].
  rewrite getitem_map_range by exact Hi. cbn [bind].
  apply getitem_map_range. exact Hj.
Qed.

Lemma setitem3_tab3 (A : Type) (d0 d1 d2 : Z) (f : Z -> Z -> Z -> A)
    (n i j : Z) (v : A) :
  0 <= n < d0 -> 0 <= i < d1 -> 0 <= j < d2 ->
  setitem3 (tab3 d0 d1 d2 f) n i j v
  = Ret (tab3 d0 d1 d2
           (fun n' i' j' =>
              if (n' =? n) && (i' =? i) && (j' =? j) then v else f n' i' j')).
Proof.
  intros Hn Hi Hj. unfold setitem3, tab3.
  rewrite getitem_map_range by exact Hn. cbn [bind].
  rewrite getitem_map_range by exact Hi. cbn [bind].
  rewrite setitem_map_range by exact Hj. cbn [bind].
  rewrite setitem_map_range by exact Hi. cbn [bind].
  rewrite setitem_map_range by exact Hn. f_equal.
  apply map_ext. intros n'. destruct (Z.eqb_spec n' n) as [->|]; [|reflexivity].
  apply map_ext. intros i'. destruct (Z.eqb_spec i' i) as [->|]; reflexivity.
Qed.

Lemma setrow3_tab3 (A : Type) (d : A) (d0 d1 d2 : Z)
    (f : Z -> Z -> Z -> A) (n i : Z) (row : list A) :
  0 <= n < d0 -> 0 <= i < d1 -> len row = d2 ->
  setrow3 (tab3 d0 d1 d2 f) n i row
  = Ret (tab3 d0 d1 d2
           (fun n' i' j' =>
              if (n' =? n) && (i' =? i) then nth (Z.to_nat j') row d
              else f n' i' j')).
Proof.
  intros Hn Hi Hrow. unfold setrow3, tab3.
  rewrite getitem_map_range by exact Hn. cbn [bind].
  rewrite getitem_map_range by exact Hi. cbn [bind].
  assert (Hd2 : 0 <= d2) by (rewrite <- Hrow; apply len_nonneg).
  rewrite (setslice_exact _ _ row None None 0 d2);
    [|reflexivity|cbn [hi_bound]; rewrite len_map, len_range; lia
     |unfold len in Hrow; lia].
  cbn [bind Z.to_nat firstn app Nat.add].
  rewrite skipn_all2 by (rewrite length_map, length_range; lia).
  rewrite app_nil_r.
  rewrite setitem_map_range by exact Hi. cbn [bind].
  rewrite setitem_map_range by exact Hn. f_equal.
  apply map_ext. intros n'. destruct (Z.eqb_spec n' n) as [->|]; [|reflexivity].
  apply map_ext. intros i'. destruct (Z.eqb_spec i' i) as [->|]; [|reflexivity].
  cbn [andb]. pose proof (list_as_map _ d [] row) as Hmap.
  rewrite len_nil, Z.add_0_l, Hrow in Hmap. cbn [app] in Hmap.
  symmetry. exact Hmap.
Qed.

Lemma full3_tab3 (A : Type) (x : A) (d0 d1 d2 : Z) :
  0 <= d0 -> 0 <= d1 -> 0 <= d2 ->
  full3 x d0 d1 d2 = Ret (tab3 d0 d1 d2 (fun _ _ _ => x)).
Proof.
  intros H0 H1 H2. unfold full3.
  replace (d0 <? 0) with false by (symmetry; apply Z.ltb_ge; lia).
  replace (d1 <? 0) with false by (symmetry; apply Z.ltb_ge; lia).
  replace (d2 <? 0) with false by (symmetry; apply Z.ltb_ge; lia).
  cbn [orb]. f_equal. unfold tab3.
  assert (Hrep : forall (B : Type) (y : B) d,
             repeat y (Z.to_nat d) = map (fun _ => y) (range 0 d)).
  { intros B y d. unfold range. rewrite map_map, Z.sub_0_r.
    generalize (Z.to_nat d) as k. generalize 0%nat.
    intros s k. revert s. induction k as [|k IH]; intros s;
      cbn [repeat seq map]; [reflexivity|]. rewrite (IH (S s)). reflexivity. }
  rewrite !Hrep. reflexivity.
Qed.

Lemma getitem_map_value (A : Type) (g : Q -> A) (l : list Q) (i : Z) :
  0 <= i < len l -> getitem (map g l) i = Ret (g (value l i)).
Proof.
  intros Hi. apply getitem_nth_error; [lia|].
  rewrite nth_error_map. unfold value.
  rewrite (nth_error_nth' l 0%Q) by (unfold len in Hi; lia). reflexivity.
Qed.

Lemma getitem_range (lo hi k : Z) :
  0 <= k < hi - lo -> getitem (range lo hi) k = Ret (lo + k).
Proof.
  intros Hk. apply getitem_nth_error; [lia|]. rewrite nth_error_range.
  destruct (Z.ltb_spec (Z.of_nat (Z.to_nat k)) (hi - lo)); [|lia].
  f_equal. lia.
Qed.

Lemma zip_with_map_map (A B D E : Type) (f : B -> D -> E) (g : A -> B)
    (h : A -> D) (l : list A) :
  zip_with f (map g l) (map h l) = map (fun x => f (g x) (h x)) l.
Proof.
  induction l as [|x l IH]; cbn [map zip_with]; [reflexivity|].
  rewrite IH. reflexivity.
Qed.

(** A loop over a range, by an invariant. *)
Lemma foldM_range (S : Type) (body : S -> Z -> result S)
    (P : Z -> S -> Prop) (lo hi : Z) :
  lo <= hi ->
  (forall i s, lo <= i < hi -> P i s ->
               exists s', body s i = Ret s' /\ P (i + 1) s') ->
  forall s, P lo s -> exists s', foldM body (range lo hi) s = Ret s' /\ P hi s'.
Proof.
  intros Hle Hstep. remember (Z.to_nat (hi - lo)) as count eqn:Hc.
  revert lo Hle Hstep Hc. induction count as [|count IH];
    intros lo Hle Hstep Hc s Hs.
  - rewrite range_empty by lia. exists s. split; [reflexivity|].
    replace hi with lo by lia. exact Hs.
  - rewrite range_cons by lia. cbn [foldM].
    destruct (Hstep lo s) as [s1 [Hb Hs1]]; [lia|exact Hs|].
    rewrite Hb. cbn [bind]. apply (IH (lo + 1)); [lia| |lia|exact Hs1].
    intros i s' Hi. apply Hstep. lia.
Qed.

(** ** The integral factors *)

Lemma getitem_map_ret (A B : Type) (g : A -> B) (l : list A) (i : Z) (x : A) :
  getitem l i = Ret x -> getitem (map g l) i = Ret (g x).
Proof.
  unfold getitem, len. rewrite length_map, nth_error_map.
  destruct (_ || _); [discriminate|].
  destruct (nth_error l _); [|discriminate].
  intros H. inversion H. reflexivity.
Qed.

Lemma factors_written_weaken (b : Eigensystem) (t : R) (nz d0 d : Z)
    (W W' : Z -> Z -> Z -> Prop) (out : list (list (list C))) :
  (forall n i j, 0 <= n < d0 -> 0 <= i < d -> 0 <= j < d ->
                 W' n i j -> W n i j) ->
  factors_written b t nz d0 d W out -> factors_written b t nz d0 d W' out.
Proof.
  intros Hsub [f [Hout Hf]]. exists f. split; [exact Hout|].
  intros n i j Hn Hi Hj HW. apply Hf; auto.
Qed.

Lemma written_entry (b : Eigensystem) (t : R) (nz d0 d : Z)
    (W W' : Z -> Z -> Z -> Prop) (out : list (list (list C))) (n i j : Z)
    (v : C) :
  factors_written b t nz d0 d W out ->
  0 <= n < d0 -> 0 <= i < d -> 0 <= j < d ->
  v = written_kernel b t nz n i j ->
  (forall n' i' j', 0 <= n' < d0 -> 0 <= i' < d -> 0 <= j' < d ->
     W' n' i' j' -> W n' i' j' \/ (n' = n /\ i' = i /\ j' = j)) ->
  exists out',
    setitem3 out n i j v = Ret out' /\ factors_written b t nz d0 d W' out'.
Proof.
  intros [f [-> Hf]] Hn Hi Hj Hv Hsub.
  rewrite setitem3_tab3 by assumption. eexists. split; [reflexivity|].
  eexists. split; [reflexivity|]. intros n' i' j' Hn' Hi' Hj' HW. cbv beta.
  destruct (Z.eqb_spec n' n) as [->|Hne1];
    destruct (Z.eqb_spec i' i) as [->|Hne2];
    destruct (Z.eqb_spec j' j) as [->|Hne3]; cbn [andb]; try exact Hv;
    (destruct (Hsub _ _ _ Hn' Hi' Hj' HW) as [HW0|[? [? ?]]];
     [apply Hf; assumption|congruence]).
Qed.

Lemma written_row (b : Eigensystem) (t : R) (nz d0 d : Z)
    (W W' : Z -> Z -> Z -> Prop) (out : list (list (list C))) (n i : Z)
    (row : list C) (dflt : C) :
  factors_written b t nz d0 d W out ->
  0 <= n < d0 -> 0 <= i < d -> len row = d ->
  (forall j, 0 <= j < d ->
             nth (Z.to_nat j) row dflt = written_kernel b t nz n i j) ->
  (forall n' i' j', 0 <= n' < d0 -> 0 <= i' < d -> 0 <= j' < d ->
     W' n' i' j' -> W n' i' j' \/ (n' = n /\ i' = i)) ->
  exists out',
    setrow3 out n i row = Ret out' /\ factors_written b t nz d0 d W' out'.
Proof.
  intros [f [-> Hf]] Hn Hi Hrow Hv Hsub.
  rewrite (setrow3_tab3 _ dflt) by assumption. eexists.
  split; [reflexivity|].
  eexists. split; [reflexivity|]. intros n' i' j' Hn' Hi' Hj' HW. cbv beta.
  destruct (Z.eqb_spec n' n) as [->|Hne1];
    destruct (Z.eqb_spec i' i) as [->|Hne2]; cbn [andb];
    try (apply Hv; exact Hj');
    (destruct (Hsub _ _ _ Hn' Hi' Hj' HW) as [HW0|[? ?]];
     [apply Hf; assumption|congruence]).
Qed.

Lemma Q2R_inject_Z (z : Z) : Q2R (inject_Z z) = IZR z.
Proof.
  unfold Q2R, inject_Z. cbn [Qnum Qden]. rewrite Rinv_1. apply Rmult_1_r.
Qed.

Lemma divisor_real (b : Eigensystem) (delta i j : Z) :
  QtoC (divisor b delta i j)
  = RtoC (energy b i + Q2R (frequency b) * IZR delta - energy b j).
Proof.
  unfold QtoC, divisor, energy.
  rewrite Qreals.Q2R_minus, Qreals.Q2R_plus, Qreals.Q2R_mult, Q2R_inject_Z.
  reflexivity.
Qed.

Lemma difference_real (x y : Q) : QtoC (x - y) = RtoC (Q2R x - Q2R y).
Proof. unfold QtoC. rewrite Qreals.Q2R_minus. reflexivity. Qed.

Lemma scalar_div_ret (x : C) (y : Q) :
  ~ (y == 0)%Q -> scalar_div x y = Ret (Cdiv x (QtoC y)).
Proof.
  intros Hy. unfold scalar_div. destruct (Qeq_bool y 0) eqn:E; [|reflexivity].
  apply Qeq_bool_iff in E. contradiction.
Qed.

Lemma scalar_div_zero (x : C) (y : Q) :
  (y == 0)%Q -> scalar_div x y = Exc ZeroDivisionError.
Proof.
  intros Hy. unfold scalar_div. apply Qeq_bool_iff in Hy. rewrite Hy.
  reflexivity.
Qed.

Lemma array_div_ret (numer : list C) (denom : list Q) :
  Forall (fun y => ~ (y == 0)%Q) denom ->
  array_div numer denom
  = Ret (zip_with (fun x y => Cdiv x (QtoC y)) numer denom).
Proof.
  intros Hall. unfold array_div.
  destruct (existsb _ denom) eqn:E; [|reflexivity].
  apply existsb_exists in E. destruct E as [y [Hin Hy]].
  rewrite Forall_forall in Hall. apply Qeq_bool_iff in Hy.
  destruct (Hall y Hin Hy).
Qed.

Lemma divisors_checked_nonzero (b : Eigensystem) (nz : Z) :
  divisors_checked b nz = true -> divisors_nonzero b nz.
Proof.
  unfold divisors_checked. intros H delta i j Hdelta Hi Hj Hne Hz.
  assert (Hin : In delta (range (1 - nz) nz)) by (apply in_range; lia).
  rewrite forallb_forall in H. specialize (H delta Hin).
  rewrite forallb_forall in H.
  specialize (H i (proj2 (in_range _ _ _) Hi)).
  rewrite forallb_forall in H.
  specialize (H j (proj2 (in_range _ _ _) Hj)).
  apply orb_true_iff in H. destruct H as [H|H].
  - apply andb_true_iff in H. destruct H as [H1 H2].
    apply Z.eqb_eq in H1, H2. lia.
  - apply negb_true_iff in H. apply Qeq_bool_iff in Hz. congruence.
Qed.

Section IntegralFactors.

Variable uninit : C.
Variable b : Eigensystem.
Variable t : R.

#[local] Abbreviation nz := (shape1 (k_eigenvectors b)).
#[local] Abbreviation d := (shape2 (k_eigenvectors b)).
#[local] Abbreviation d0 := (2 * shape1 (k_eigenvectors b) - 1).
#[local] Abbreviation energies := (quasienergies b).
#[local] Abbreviation phase_of :=
  (fun e => Cexp (Cmult (Cmult (Copp Ci) (RtoC t)) (QtoC e))).
#[local] Abbreviation energy_phases := (map phase_of (quasienergies b)).
#[local] Abbreviation differences :=
  (range (1 - shape1 (k_eigenvectors b)) (shape1 (k_eigenvectors b))).
#[local] Abbreviation exponential_of :=
  (fun delta =>
     Cexp (Cmult (Cmult (Cmult Ci (RtoC t)) (QtoC (frequency b)))
                 (ZtoC delta))).
#[local] Abbreviation written := (factors_written b t nz d0 d).

Hypothesis Hnz : 1 <= nz.
Hypothesis Hd : len energies = d.
Hypothesis Hdiv : divisors_nonzero b nz.

(** The loop that fills the diagonal of the plane of difference zero. *)
Lemma diagonal_loop (out : list (list (list C))) :
  written (fun _ _ _ => False) out ->
  exists out',
    foldM (fun out i =>
             x <- getitem
                    (map (fun phase =>
                            Cmult (Cmult (Copp Ci) (RtoC t)) phase)
                         energy_phases) i ;;
             setitem3 out (nz - 1) i i x)
          (range 0 (len energies)) out = Ret out' /\
    written (fun n i j => n = nz - 1 /\ i = j) out'.
Proof.
  intros Hout.
  destruct (foldM_range _
              (fun out i =>
                 x <- getitem
                        (map (fun phase =>
                                Cmult (Cmult (Copp Ci) (RtoC t)) phase)
                             energy_phases) i ;;
                 setitem3 out (nz - 1) i i x)
              (fun k s => written (fun n i j => n = nz - 1 /\ i = j /\ i < k) s)
              0 (len energies)) with (s := out) as [out' [Hf Hw]].
  - apply len_nonneg.
  - intros i s Hi Hs. rewrite map_map.
    rewrite getitem_map_value by exact Hi. cbn [bind].
    apply (written_entry _ _ _ _ _ _ _ _ _ _ _ _ Hs); [lia|lia|lia| |].
    + unfold written_kernel. rewrite !Z.eqb_refl. reflexivity.
    + intros n' i' j' R1 R2 R3 [H1 [H2 H3]]; cbv beta in *.
      destruct (Z.eq_dec i' i); [right|left]; lia.
  - eapply factors_written_weaken; [|exact Hout].
    intros n i j R1 R2 R3 [H1 [H2 H3]]; cbv beta in *. lia.
  - exists out'. split; [exact Hf|].
    eapply factors_written_weaken; [|exact Hw].
    intros n i j R1 R2 R3 [H1 H2]; cbv beta in *. lia.
Qed.

(** The loop that fills the rest of that plane, two entries at a time. *)
Lemma off_diagonal_loop (out : list (list (list C))) :
  written (fun n i j => n = nz - 1 /\ i = j) out ->
  exists out',
    foldM (fun out i =>
             foldM (fun out j =>
                 phase_i <- getitem energy_phases i ;;
                 phase_j <- getitem energy_phases j ;;
                 energy_i <- getitem energies i ;;
                 energy_j <- getitem energies j ;;
                 x <- scalar_div (Cminus phase_i phase_j)
                        (energy_i - energy_j)%Q ;;
                 out <- setitem3 out (nz - 1) i j x ;;
                 setitem3 out (nz - 1) j i x)
               (range 0 i) out)
          (range 0 (len energies)) out = Ret out' /\
    written (fun n i j => n = nz - 1) out'.
Proof.
  intros Hout.
  match goal with
  | |- context [foldM ?body (range 0 ?hi) ?s0] =>
      destruct (foldM_range _ body
                  (fun k s =>
                     written (fun n i j =>
                                n = nz - 1 /\ (i = j \/ (i < k /\ j < k))) s)
                  0 hi) with (s := s0) as [out' [Hf Hw]]
  end.
  - apply len_nonneg.
  - intros i s Hi Hs. cbv beta.
    match goal with
    | |- context [foldM ?body (range 0 ?hi) ?s0] =>
        destruct (foldM_range _ body
                    (fun k s =>
                       written (fun n i' j' =>
                                  n = nz - 1 /\
                                  (i' = j' \/ (i' < i /\ j' < i) \/
                                   (i' = i /\ j' < k) \/
                                   (j' = i /\ i' < k))) s)
                    0 hi) with (s := s0) as [s' [Hf' Hw']]
    end.
    + lia.
    + intros j s1 Hj Hs1. cbv beta.
      rewrite !getitem_map_value by lia.
      rewrite !getitem_value by lia. cbn [bind].
      rewrite scalar_div_ret.
      2:{ intros Hz. apply (Hdiv 0 i j); [lia|lia|lia|right; lia|].
          unfold divisor. rewrite <- Hz. change (inject_Z 0) with 0%Q.
          ring. }
      cbn [bind]. rewrite difference_real.
      destruct (written_entry _ _ _ _ _ _
                  (fun n i' j' =>
                     n = nz - 1 /\
                     (i' = j' \/ (i' < i /\ j' < i) \/
                      (i' = i /\ j' < j + 1) \/ (j' = i /\ i' < j)))
                  _ (nz - 1) i j
                  (Cdiv (Cminus (phase_of (value energies i))
                                (phase_of (value energies j)))
                        (RtoC (Q2R (value energies i)
                               - Q2R (value energies j))))
                  Hs1) as [s2 [Hs2 Hw2]];
        [lia|lia|lia| | |].
      * unfold written_kernel. rewrite Z.eqb_refl.
        destruct (Z.eqb_spec i j); [lia|].
        destruct (Z.ltb_spec j i); [|lia]. reflexivity.
      * intros n' i' j' R1 R2 R3 [H1 H2]; cbv beta in *.
        destruct (Z.eq_dec i' i); destruct (Z.eq_dec j' j);
          [right|left|left|left]; lia.
      * rewrite Hs2. cbn [bind].
        apply (written_entry _ _ _ _ _ _ _ _ _ _ _ _ Hw2);
          [lia|lia|lia| |].
        -- unfold written_kernel. rewrite Z.eqb_refl.
           destruct (Z.eqb_spec j i); [lia|].
           destruct (Z.ltb_spec i j); [lia|]. reflexivity.
        -- intros n' i' j' R1 R2 R3 [H1 H2]; cbv beta in *.
           destruct (Z.eq_dec i' j); destruct (Z.eq_dec j' i);
             [right|left|left|left]; lia.
    + eapply factors_written_weaken; [|exact Hs].
      intros n i' j' R1 R2 R3 [H1 H2]; cbv beta in *. lia.
    + exists s'. split; [exact Hf'|].
      eapply factors_written_weaken; [|exact Hw'].
      intros n i' j' R1 R2 R3 [H1 H2]; cbv beta in *. lia.
  - eapply factors_written_weaken; [|exact Hout].
    intros n i j R1 R2 R3 [H1 H2]; cbv beta in *. lia.
  - exists out'. split; [exact Hf|].
    eapply factors_written_weaken; [|exact Hw].
    intros n i j R1 R2 R3 H1; cbv beta in *. lia.
Qed.

(** The rows of one zone difference other than zero. *)
Lemma difference_rows_written (W : Z -> Z -> Z -> Prop)
    (out : list (list (list C))) (k : Z) :
  0 <= k < d0 -> k <> nz - 1 -> written W out ->
  exists out',
    difference_rows energies energy_phases (frequency b) differences
      (map exponential_of differences) out k = Ret out' /\
    written (fun n i j => W n i j \/ n = k) out'.
Proof.
  intros Hk Hne Hout. unfold difference_rows.
  rewrite (getitem_map_ret _ _ _ _ _ (1 - nz + k))
    by (apply getitem_range; lia).
  rewrite getitem_range by lia. cbn [bind]. cbv zeta.
  match goal with
  | |- context [foldM ?body (range 0 ?hi) ?s0] =>
      destruct (foldM_range _ body
                  (fun i s =>
                     written (fun n i' j => W n i' j \/ (n = k /\ i' < i)) s)
                  0 hi) with (s := s0) as [out' [Hf Hw]]
  end.
  - apply len_nonneg.
  - intros i s Hi Hs. cbv beta.
    rewrite getitem_map_value by exact Hi.
    rewrite getitem_value by exact Hi. cbn [bind].
    rewrite array_div_ret.
    2:{ rewrite Forall_map, Forall_forall. intros e He Hz.
        destruct (In_nth _ _ 0%Q He) as [m [Hm Hnth]].
        apply (Hdiv (1 - nz + k) i (Z.of_nat m));
          [lia|lia|unfold len; lia|left; lia|].
        unfold divisor, value. rewrite Nat2Z.id, Hnth. exact Hz. }
    cbn [bind]. rewrite map_map, zip_with_map_map.
    eapply (written_row _ _ _ _ _ _ _ _ _ _ _
              (Cdiv (Cminus (phase_of (value energies i))
                       (Cmult (phase_of 0%Q) (exponential_of (1 - nz + k))))
                    (QtoC (value energies i
                           + frequency b * inject_Z (1 - nz + k) - 0)%Q))
              Hs); [lia|lia| | |].
    + rewrite len_map. exact Hd.
    + intros j Hj.
      rewrite (map_nth (fun e =>
                 Cdiv (Cminus (phase_of (value energies i))
                         (Cmult (phase_of e) (exponential_of (1 - nz + k))))
                      (QtoC (value energies i
                             + frequency b * inject_Z (1 - nz + k) - e)%Q))).
      unfold written_kernel. destruct (Z.eqb_spec k (nz - 1)); [lia|].
      replace (k - (nz - 1)) with (1 - nz + k) by lia.
      unfold general_term. rewrite <- divisor_real. reflexivity.
    + intros n' i' j' R1 R2 R3 [HW|[H1 H2]]; [left; left; exact HW|].
      destruct (Z.eq_dec i' i); [right|left; right]; lia.
  - eapply factors_written_weaken; [|exact Hout].
    intros n i j R1 R2 R3 [HW|[_ H]]; [exact HW|lia].
  - exists out'. split; [exact Hf|].
    eapply factors_written_weaken; [|exact Hw].
    intros n i j R1 R2 R3 [HW|Hn]; [left; exact HW|right; lia].
Qed.

(** [integral_factors] returns, and every entry of its output is
    written. *)
Lemma integral_factors_written :
  exists out,
    integral_factors uninit b t = Ret out /\ written (fun _ _ _ => True) out.
Proof.
  unfold integral_factors.
  assert (Hdim : 0 <= d) by apply len_nonneg.
  rewrite len_range by lia.
  replace (nz - (1 - nz)) with d0 by lia.
  rewrite full3_tab3 by lia. cbn [bind].
  destruct (diagonal_loop (tab3 d0 d d (fun _ _ _ => uninit)))
    as [out1 [H1 Hw1]].
  { eexists. split; [reflexivity|]. intros n i j R1 R2 R3 []. }
  rewrite H1. cbn [bind].
  destruct (off_diagonal_loop out1 Hw1) as [out2 [H2 Hw2]].
  rewrite H2. cbn [bind].
  destruct (foldM_range _
              (difference_rows energies energy_phases (frequency b)
                 differences (map exponential_of differences))
              (fun k s => written (fun n i j => n = nz - 1 \/ n < k) s)
              0 (nz - 1)) with (s := out2) as [out3 [H3 Hw3]].
  { lia. }
  { intros k s Hk Hs.
    destruct (difference_rows_written _ s k ltac:(lia) ltac:(lia) Hs)
      as [s' [Hs' Hw']].
    exists s'. split; [exact Hs'|].
    eapply factors_written_weaken; [|exact Hw'].
    intros n i j R1 R2 R3 [H|H]; [left; left; exact H|].
    destruct (Z.eq_dec n k); [right|left; right]; lia. }
  { eapply factors_written_weaken; [|exact Hw2].
    intros n i j R1 R2 R3 [H|H]; [exact H|lia]. }
  rewrite H3. cbn [bind].
  destruct (foldM_range _
              (difference_rows energies energy_phases (frequency b)
                 differences (map exponential_of differences))
              (fun k s => written (fun n i j => n < k) s)
              nz d0) with (s := out3) as [out4 [H4 Hw4]].
  { lia. }
  { intros k s Hk Hs.
    destruct (difference_rows_written _ s k ltac:(lia) ltac:(lia) Hs)
      as [s' [Hs' Hw']].
    exists s'. split; [exact Hs'|].
    eapply factors_written_weaken; [|exact Hw'].
    intros n i j R1 R2 R3 H; cbv beta in *.
    destruct (Z.eq_dec n k); [right|left]; lia. }
  { eapply factors_written_weaken; [|exact Hw3].
    intros n i j R1 R2 R3 H; cbv beta in *. lia. }
  exists out4. split; [exact H4|].
  eapply factors_written_weaken; [|exact Hw4].
  intros n i j R1 R2 R3 _; cbv beta in *. lia.
Qed.

End IntegralFactors.

(** ** The kernel of the integral factors *)

Lemma Cdiv_difference_sym (x y : C) (r s : R) :
  Cdiv (Cminus y x) (RtoC (s - r)) = Cdiv (Cminus x y) (RtoC (r - s)).
Proof.
  destruct x as [a1 a2], y as [b1 b2].
  unfold Cdiv, Cminus, Cplus, Copp, Cmult, Cinv, RtoC. cbn [fst snd].
  replace ((s - r) * (s - r) + 0 * 0)%R
    with ((r - s) * (r - s) + 0 * 0)%R by ring.
  unfold Rdiv. f_equal; ring.
Qed.

Lemma written_kernel_integral_kernel (b : Eigensystem) (t : R)
    (nz delta i j : Z) :
  written_kernel b t nz (delta + nz - 1) i j = integral_kernel b t delta i j.
Proof.
  unfold written_kernel, integral_kernel.
  destruct (Z.eqb_spec delta 0) as [->|Hdelta].
  - replace (0 + nz - 1) with (nz - 1) by lia. rewrite Z.eqb_refl.
    destruct (i =? j); [reflexivity|].
    destruct (j <? i); [reflexivity|]. apply Cdiv_difference_sym.
  - destruct (Z.eqb_spec (delta + nz - 1) (nz - 1)); [lia|].
    replace (delta + nz - 1 - (nz - 1)) with delta by lia. reflexivity.
Qed.

Lemma Cdiv_real_cancel (x y : C) (r : R) :
  r <> 0%R -> Cdiv x (RtoC r) = Cdiv y (RtoC r) -> x = y.
Proof.
  destruct x as [a1 a2], y as [b1 b2].
  unfold Cdiv, Cmult, Cinv, RtoC. cbn [fst snd]. intros Hr Heq.
  replace (- 0 / (r * r + 0 * 0))%R with 0%R in Heq
    by (unfold Rdiv; ring).
  replace (r / (r * r + 0 * 0))%R with (/ r)%R in Heq
    by (field; repeat split; first [exact Hr|nra]).
  assert (Hinv : (/ r)%R <> 0%R) by (apply Rinv_neq_0_compat; exact Hr).
  injection Heq as H1 H2.
  f_equal; apply (Rmult_eq_reg_r (/ r)); try exact Hinv; lra.
Qed.

Lemma Cminus_cancel (x y z : C) : Cminus x y = Cminus x z -> y = z.
Proof.
  destruct x as [a1 a2], y as [b1 b2], z as [c1 c2].
  unfold Cminus, Cplus, Copp. cbn [fst snd]. intros Heq.
  injection Heq as H1 H2. f_equal; lra.
Qed.

Lemma Cmult_cancel (x y z : C) :
  (fst z * fst z + snd z * snd z)%R <> 0%R ->
  Cmult x z = Cmult y z -> x = y.
Proof.
  destruct x as [a1 a2], y as [b1 b2], z as [u v].
  unfold Cmult. cbn [fst snd]. intros Hz Heq. injection Heq as H1 H2.
  assert (E1 : ((a1 - b1) * (u * u + v * v))%R = 0%R).
  { replace ((a1 - b1) * (u * u + v * v))%R
      with (u * ((a1 * u - a2 * v) - (b1 * u - b2 * v))
            + v * ((a1 * v + a2 * u) - (b1 * v + b2 * u)))%R by ring.
    rewrite H1, H2. ring. }
  assert (E2 : ((a2 - b2) * (u * u + v * v))%R = 0%R).
  { replace ((a2 - b2) * (u * u + v * v))%R
      with (u * ((a1 * v + a2 * u) - (b1 * v + b2 * u))
            - v * ((a1 * u - a2 * v) - (b1 * u - b2 * v)))%R by ring.
    rewrite H1, H2. ring. }
  apply Rmult_integral in E1, E2.
  destruct E1 as [E1|E1]; [|contradiction].
  destruct E2 as [E2|E2]; [|contradiction].
  f_equal; lra.
Qed.

Lemma Cexp_nonzero (z : C) :
  (fst (Cexp z) * fst (Cexp z) + snd (Cexp z) * snd (Cexp z))%R <> 0%R.
Proof.
  destruct z as [a y]. unfold Cexp. cbn [fst snd].
  pose proof (exp_pos a) as Ha. pose proof (sin2_cos2 y) as Hy.
  unfold Rsqr in Hy.
  replace (exp a * cos y * (exp a * cos y)
           + exp a * sin y * (exp a * sin y))%R
    with (exp a * exp a * (sin y * sin y + cos y * cos y))%R by ring.
  rewrite Hy. nra.
Qed.

Lemma Cexp_imaginary (z : C) (y : R) :
  fst z = 0%R -> snd z = y -> Cexp z = (cos y, sin y).
Proof.
  destruct z as [a c]. cbn [fst snd]. intros -> ->. unfold Cexp.
  cbn [fst snd]. rewrite exp_0. f_equal; ring.
Qed.

Lemma two_state_phases_differ :
  energy_phase two_state_bundle 1 1 <> energy_phase two_state_bundle 1 0.
Proof.
  unfold energy_phase.
  change (value (quasienergies two_state_bundle) 1) with 1%Q.
  change (value (quasienergies two_state_bundle) 0) with 0%Q.
  rewrite (Cexp_imaginary _ (Ropp 1)), (Cexp_imaginary _ 0%R).
  - rewrite cos_neg, sin_neg, cos_0, sin_0. intros Heq.
    injection Heq as _ Hsin.
    pose proof (sin_gt_0 1 ltac:(lra)
                  ltac:(pose proof PI2_1; pose proof PI2_Rlt_PI; lra)).
    lra.
  - cbn. unfold Q2R. cbn. lra.
  - cbn. unfold Q2R. cbn. lra.
  - cbn. unfold Q2R. cbn. lra.
  - cbn. unfold Q2R. cbn. lra.
Qed.

Lemma two_state_bundle_divisors : divisors_nonzero two_state_bundle 3.
Proof. apply divisors_checked_nonzero. reflexivity. Qed.

(** Two quasienergies that coincide, as [diagonalise] returns them for a
    degenerate eigenvalue: the quotient for the zone difference zero raises
    [ZeroDivisionError]. *)
Example integral_factors_equal_quasienergies :
  integral_factors C0 degenerate_bundle 1 = Exc ZeroDivisionError.
Proof. lazy. reflexivity. Qed.

(** C1: the spec's general term has [phase[i]] in both places of the
    numerator, where the code multiplies [phase[j]] by the exponential: for
    the bundle of two states with quasienergies 0 and 1 and frequency 3, at
    time 1, the entry of the zone difference 1 and the pair (0, 1) is the
    code's term and differs from the spec's. *)
Lemma integral_factors_general_term_counterexample :
  exists out entry,
    integral_factors C0 two_state_bundle 1 = Ret out /\
    getitem3 out (1 + 3 - 1) 0 1 = Ret entry /\
    entry = general_term two_state_bundle 1 1 0 1 /\
    entry <> spec_general_term two_state_bundle 1 1 0 1.
Proof.
  destruct (integral_factors_written C0 two_state_bundle 1)
    as [out [Hrun [f [-> Hf]]]];
    [cbn; lia|reflexivity|exact two_state_bundle_divisors|].
  eexists. eexists. split; [exact Hrun|].
  split; [apply getitem3_tab3; cbn; lia|].
  rewrite Hf by (cbn; try lia; exact I).
  split; [reflexivity|]. intros Heq.
  unfold written_kernel in Heq. cbn [Z.eqb] in Heq.
  unfold general_term, spec_general_term in Heq.
  apply Cdiv_real_cancel in Heq.
  - apply Cminus_cancel, Cmult_cancel in Heq.
    + exact (two_state_phases_differ Heq).
    + apply Cexp_nonzero.
  - unfold energy.
    change (value (quasienergies two_state_bundle) 1) with 1%Q.
    change (value (quasienergies two_state_bundle) 0) with 0%Q.
    cbn. unfold Q2R. cbn. lra.
Qed.

(** C1: for a bundle of at least one zone with as many quasienergies as
    its dimension, of which no divisor [energy[i] + frequency delta -
    energy[j]] is zero (for [delta] other than zero, or [i] other than [j]),
    [integral_factors] returns, and its entry for the zone difference
    [delta] and the pair [(i, j)], at index [delta + n_zones - 1] of the
    first axis, is the kernel: for [delta = 0] the closed forms
    [-i t phase[i]] on the diagonal and
    [(phase[i] - phase[j]) / (energy[i] - energy[j])] off it, and otherwise
    [(phase[i] - phase[j] exp(i t frequency delta))
     / (energy[i] + frequency delta - energy[j])]. *)
Theorem integral_factors_entries (uninit : C) (b : Eigensystem) (t : R) :
  1 <= shape1 (k_eigenvectors b) ->
  len (quasienergies b) = shape2 (k_eigenvectors b) ->
  divisors_nonzero b (shape1 (k_eigenvectors b)) ->
  exists out,
    integral_factors uninit b t = Ret out /\
    forall delta i j,
      - shape1 (k_eigenvectors b) < delta < shape1 (k_eigenvectors b) ->
      0 <= i < shape2 (k_eigenvectors b) ->
      0 <= j < shape2 (k_eigenvectors b) ->
      getitem3 out (delta + shape1 (k_eigenvectors b) - 1) i j
      = Ret (integral_kernel b t delta i j).
Proof.
  intros Hnz Hd Hdiv.
  destruct (integral_factors_written uninit b t Hnz Hd Hdiv)
    as [out [Hrun [f [-> Hf]]]].
  eexists. split; [exact Hrun|]. intros delta i j Hdelta Hi Hj.
  rewrite getitem3_tab3 by lia.
  rewrite Hf by (try lia; exact I).
  rewrite written_kernel_integral_kernel. reflexivity.
Qed.

Lemma integral_factors_entries_witness :
  exists out,
    integral_factors C0 two_state_bundle 1 = Ret out /\
    forall delta i j,
      - 3 < delta < 3 -> 0 <= i < 2 -> 0 <= j < 2 ->
      getitem3 out (delta + 3 - 1) i j
      = Ret (integral_kernel two_state_bundle 1 delta i j).
Proof.
  apply (integral_factors_entries C0 two_state_bundle 1);
    [cbn; lia|reflexivity|apply divisors_checked_nonzero; reflexivity].
Defined.

(** ** Rotations within one turn *)

Lemma length_roll (A : Type) (a : list A) (shift : Z) :
  length (roll a shift) = length a.
Proof.
  unfold roll. destruct (len a =? 0); [reflexivity|].
  rewrite length_app, length_skipn, length_firstn. lia.
Qed.

Lemma len_roll (A : Type) (a : list A) (shift : Z) :
  len (roll a shift) = len a.
Proof. unfold len. rewrite length_roll. reflexivity. Qed.

(** The entry at [i] is found at [(i + shift) mod len(a)] after the roll. *)
Lemma roll_entry (A : Type) (a : list A) (shift i : Z) :
  0 <= i < len a ->
  nth_error (roll a shift) (Z.to_nat ((i + shift) mod len a))
  = nth_error a (Z.to_nat i).
Proof.
  intros Hi. set (n := len a) in *.
  assert (Hn : n = Z.of_nat (length a)) by reflexivity.
  pose proof (Z.mod_pos_bound shift n ltac:(lia)) as Hr.
  rewrite (roll_split _ a shift (Z.to_nat (n - shift mod n)))
    by (fold n; lia).
  rewrite <- Zplus_mod_idemp_r. set (r := shift mod n) in *.
  destruct (Z_lt_le_dec (i + r) n) as [Hsmall|Hlarge].
  - rewrite Z.mod_small by lia.
    rewrite nth_error_app2 by (rewrite length_skipn; lia).
    rewrite length_skipn, nth_error_firstn.
    replace (Z.to_nat (i + r) - (length a - Z.to_nat (n - r)))%nat
      with (Z.to_nat i) by lia.
    destruct (Nat.ltb_spec (Z.to_nat i) (Z.to_nat (n - r))); [reflexivity|lia].
  - replace ((i + r) mod n) with (i + r - n).
    2:{ apply (Z.mod_unique (i + r) n 1); lia. }
    rewrite nth_error_app1 by (rewrite length_skipn; lia).
    rewrite nth_error_skipn. f_equal. lia.
Qed.

Lemma roll_roll_back (A : Type) (a : list A) (shift : Z) :
  roll (roll a shift) (- shift) = a.
Proof.
  destruct (Z.eq_dec (len a) 0) as [Hz|Hnz].
  { unfold roll. rewrite Hz. cbn [Z.eqb]. rewrite Hz. reflexivity. }
  pose proof (len_nonneg _ a) as Hlen.
  apply nth_error_ext. intros k.
  destruct (Nat.lt_ge_cases k (length a)) as [Hk|Hk].
  - set (i := Z.of_nat k).
    assert (Hi : 0 <= i < len a) by (unfold len, i; lia).
    pose proof (Z.mod_pos_bound (i + shift) (len a) ltac:(lia)) as Hj.
    rewrite <- (Nat2Z.id k). fold i.
    rewrite <- (roll_entry _ a shift i Hi).
    rewrite <- (roll_entry _ (roll a shift) (- shift)
                  ((i + shift) mod len a))
      by (rewrite len_roll; exact Hj).
    rewrite len_roll. f_equal. f_equal.
    rewrite Zplus_mod_idemp_l.
    replace (i + shift + - shift) with i by lia.
    symmetry. apply Z.mod_small. exact Hi.
  - rewrite (proj2 (nth_error_None _ _))
      by (rewrite !length_roll; exact Hk).
    symmetry. apply nth_error_None. exact Hk.
Qed.

Lemma roll_conj2 (m : list (list C)) (shift : Z) :
  roll (conj2 m) shift = conj2 (roll m shift).
Proof.
  unfold roll, len. rewrite length_conj2.
  destruct (_ =? 0); [reflexivity|].
  rewrite conj2_app. unfold conj2. rewrite skipn_map, firstn_map.
  reflexivity.
Qed.

Lemma setslice_length (A : Type) (a v r : list A) (lo hi : option Z) :
  setslice a lo hi v = Ret r -> length r = length a.
Proof.
  unfold setslice.
  set (l := lo_bound (len a) lo). set (h := hi_bound (len a) hi).
  assert (Hl : 0 <= l <= len a).
  { unfold l, lo_bound, clip. destruct lo as [b|]; [|unfold len; lia].
    destruct (Z.ltb_spec b 0); unfold len; lia. }
  assert (Hput : forall w, length w = Z.to_nat (h - l) -> h <= len a ->
                 length (firstn (Z.to_nat l) a ++ w
                         ++ skipn (Z.to_nat l + Z.to_nat (h - l)) a)
                 = length a).
  { intros w Hw Hh.
    rewrite !length_app, length_firstn, length_skipn, Hw.
    unfold len in *. lia. }
  assert (Hh : h <= len a).
  { unfold h, hi_bound, clip. destruct hi as [b|]; [|lia].
    destruct (Z.ltb_spec b 0); unfold len; lia. }
  destruct (Nat.eqb_spec (length v) (Z.to_nat (h - l))) as [Hv|Hv].
  - intros Hr. inversion Hr. apply Hput; [exact Hv|exact Hh].
  - destruct v as [|x [|y v]]; try discriminate.
    intros Hr. inversion Hr.
    apply Hput; [apply repeat_length|exact Hh].
Qed.

Lemma setslice2_length (a v r : list (list C)) (lo hi : option Z) (w : Z) :
  setslice2 a lo hi v w = Ret r -> length r = length a.
Proof.
  unfold setslice2. destruct (_ || _); [|discriminate]. intros Hret.
  apply bind_ret_inv in Hret. destruct Hret as [v' [_ Hret]].
  exact (setslice_length _ _ _ _ _ _ Hret).
Qed.

(** Blocks of two entries do not go into an array of blocks of three. *)
Example conjugate_rotate_into_other_width :
  conjugate_rotate_into [[C0; C0; C0]; [C0; C0; C0]] [[C0; C1]; [C1; C0]] 1
  = Exc ValueError.
Proof. reflexivity. Qed.

(** X1.  When [out] and [input] are arrays of one shape, as many blocks of
    [w] entries each, and the amount is within one turn either way,
    [conjugate_rotate_into] returns, and the block of [input] at [i] is
    found conjugated at [(i + amount) mod L] of the new [out]: a positive
    amount moves blocks to higher indices, a negative one to lower, and the
    amount zero gives the conjugated copy.  The new [out] is the conjugate
    of [np.roll(input, amount, axis=0)]. *)
Theorem conjugate_rotate_into_within_turn (out input : list (list C))
    (amount w : Z) :
  len out = len input ->
  Forall (fun r => len r = w) out -> Forall (fun r => len r = w) input ->
  - len input <= amount <= len input ->
  exists out',
    conjugate_rotate_into out input amount = Ret out' /\
    out' = conj2 (roll input amount) /\
    len out' = len input /\
    (amount = 0 -> out' = conj2 input) /\
    forall i block,
      0 <= i < len input -> getitem input i = Ret block ->
      getitem out' ((i + amount) mod len input) = Ret (conj1 block).
Proof.
  intros Hlen Hwout Hwin Hamount. exists (conj2 (roll input amount)).
  split; [apply (conjugate_rotate_into_within_length out input amount w);
          assumption|].
  split; [reflexivity|].
  assert (Hsize : len (conj2 (roll input amount)) = len input).
  { unfold len. rewrite length_conj2, length_roll. reflexivity. }
  split; [exact Hsize|]. split.
  { intros ->. unfold roll. destruct (Z.eqb_spec (len input) 0) as [|Hnz];
      [reflexivity|].
    rewrite Z.mod_0_l by exact Hnz. rewrite Z.sub_0_r.
    unfold len. rewrite Nat2Z.id, skipn_all, firstn_all. reflexivity. }
  intros i block Hi Hblock.
  pose proof (Z.mod_pos_bound (i + amount) (len input) ltac:(lia)) as Hj.
  apply getitem_inv in Hblock. destruct Hblock as [_ Hblock].
  destruct (Z.ltb_spec i 0) as [|_]; [lia|].
  apply getitem_nth_error; [lia|].
  unfold conj2. rewrite nth_error_map, roll_entry by exact Hi.
  rewrite Hblock. reflexivity.
Qed.

Lemma conjugate_rotate_into_within_turn_witness :
  exists out',
    conjugate_rotate_into [[C0]; [C0]; [C0]] [[C0]; [C1]; [Ci]] (- 1)
    = Ret out' /\
    out' = conj2 (roll [[C0]; [C1]; [Ci]] (- 1)) /\
    len out' = len [[C0]; [C1]; [Ci]] /\
    (- 1 = 0 -> out' = conj2 [[C0]; [C1]; [Ci]]) /\
    forall i block,
      0 <= i < len [[C0]; [C1]; [Ci]] ->
      getitem [[C0]; [C1]; [Ci]] i = Ret block ->
      getitem out' ((i + - 1) mod len [[C0]; [C1]; [Ci]])
      = Ret (conj1 block).
Proof.
  apply (conjugate_rotate_into_within_turn
           [[C0]; [C0]; [C0]] [[C0]; [C1]; [Ci]] (- 1) 1);
    [reflexivity|repeat constructor|repeat constructor|cbn; lia].
Defined.

(** X2.  Rotating back undoes a rotation: between arrays of one shape, as
    many blocks of [w] entries each, and within one turn, the blocks rotated
    by [amount] and then by [- amount] are the blocks of [input] again, the
    two conjugations cancelling. *)
Theorem conjugate_rotate_into_round_trip (out back input : list (list C))
    (amount w : Z) :
  len out = len input -> len back = len input ->
  Forall (fun r => len r = w) out -> Forall (fun r => len r = w) back ->
  Forall (fun r => len r = w) input ->
  - len input <= amount <= len input ->
  exists rotated,
    conjugate_rotate_into out input amount = Ret rotated /\
    conjugate_rotate_into back rotated (- amount) = Ret input.
Proof.
  intros Hout Hback Hwout Hwback Hwin Hamount.
  exists (conj2 (roll input amount)).
  split; [apply (conjugate_rotate_into_within_length out input amount w);
          assumption|].
  assert (Hsize : len (conj2 (roll input amount)) = len input).
  { unfold len. rewrite length_conj2, length_roll. reflexivity. }
  rewrite (conjugate_rotate_into_within_length back _ (- amount) w);
    [|rewrite Hsize; exact Hback|exact Hwback|
     apply Forall_conj2, Forall_roll; exact Hwin|rewrite Hsize; lia].
  rewrite roll_conj2, conj2_involutive, roll_roll_back. reflexivity.
Qed.

Lemma conjugate_rotate_into_round_trip_witness :
  exists rotated,
    conjugate_rotate_into [[C0]; [C0]; [C0]] [[C0]; [C1]; [Ci]] 2
    = Ret rotated /\
    conjugate_rotate_into [[C1]; [C1]; [C1]] rotated (- 2)
    = Ret [[C0]; [C1]; [Ci]].
Proof.
  apply (conjugate_rotate_into_round_trip
           [[C0]; [C0]; [C0]] [[C1]; [C1]; [C1]] [[C0]; [C1]; [Ci]] 2 1);
    [reflexivity|reflexivity|repeat constructor|repeat constructor|
     repeat constructor|cbn; lia].
Defined.

(** X3.  [conjugate_rotate_into] writes in place: whatever the amount and
    the lengths, when it returns, [out] has as many blocks as before. *)
Theorem conjugate_rotate_into_keeps_length (out input out' : list (list C))
    (amount : Z) :
  conjugate_rotate_into out input amount = Ret out' ->
  len out' = len out.
Proof.
  unfold conjugate_rotate_into, len. cbv zeta. intros Hret.
  destruct (amount <? 0).
  - apply bind_ret_inv in Hret. destruct Hret as [mid [H1 H2]].
    apply setslice2_length in H1, H2. lia.
  - destruct (0 <? amount).
    + apply bind_ret_inv in Hret. destruct Hret as [mid [H1 H2]].
      apply setslice2_length in H1, H2. lia.
    + apply setslice2_length in Hret. lia.
Qed.

Lemma conjugate_rotate_into_keeps_length_witness :
  conjugate_rotate_into [[C0]; [C0]] [[C0]; [C1]] 3
  = Ret (conj2 [[C0]; [C1]]) /\
  len (conj2 [[C0]; [C1]]) = len [[C0]; [C0]].
Proof.
  split; [reflexivity|].
  apply (conjugate_rotate_into_keeps_length
           [[C0]; [C0]] [[C0]; [C1]] (conj2 [[C0]; [C1]]) 3).
  reflexivity.
Defined.

(** ** What the zone selection keeps *)

Lemma lower_edge_loop_run (ev : list Q) (edge : Q) (lower : Z) :
  forall fuel n m,
    snd (lower_edge_loop fuel ev edge lower n) = Ret m ->
    n <= m /\
    (forall k, n <= k < m ->
       exists v, getitem ev (lower + k) = Ret v /\ (v == - edge)%Q) /\
    exists v, getitem ev (lower + m) = Ret v /\ ~ (v == - edge)%Q.
Proof.
  induction fuel as [|fuel IH]; intros n m Hr; cbn [lower_edge_loop] in Hr;
    [discriminate|].
  destruct (getitem ev (lower + n)) as [x| |] eqn:Hget; try discriminate.
  destruct (Qeq_bool x (- edge)) eqn:Heq.
  - destruct (lower_edge_loop fuel ev edge lower (n + 1)) as [reads r] eqn:Hl.
    cbn [snd] in Hr. subst r.
    specialize (IH (n + 1) m). rewrite Hl in IH.
    destruct (IH eq_refl) as [H1 [H2 H3]]. split; [lia|]. split; [|exact H3].
    intros k Hk. destruct (Z.eq_dec k n) as [->|Hne].
    + exists x. split; [exact Hget|]. apply Qeq_bool_iff. exact Heq.
    + apply H2. lia.
  - cbn [snd] in Hr. inversion Hr; subst. split; [lia|].
    split; [intros k Hk; lia|]. exists x. split; [exact Hget|].
    apply Qeq_bool_neq. exact Heq.
Qed.

Lemma map_fst_combine_eq (A B : Type) (l : list A) (m : list B) :
  length l = length m -> map fst (combine l m) = l.
Proof.
  revert m. induction l as [|x l IH]; intros [|y m] Hlen;
    cbn [length] in Hlen; try discriminate; [reflexivity|].
  cbn [combine map fst]. f_equal. apply IH. lia.
Qed.

(** The array that [first_brillouin_zone] makes of its input by
    [eigenvalues[eigenvalues.argsort()]] holds the same values. *)
Lemma argsort_take_perm (ev : list Q) :
  exists evs,
    take ev (Np.argsort ev) = Ret evs /\ Permutation evs ev.
Proof.
  unfold Np.argsort.
  set (pairs := Np.sort_keys (combine ev (range 0 (len ev)))).
  assert (Hperm : Permutation pairs (combine ev (range 0 (len ev))))
    by apply sort_keys_perm.
  assert (Hin : forall v i, In (v, i) pairs -> getitem ev i = Ret v).
  { intros v i Hvi. apply (Permutation_in _ Hperm) in Hvi.
    apply (in_combine_range [] ev v i) in Hvi. tauto. }
  exists (map fst pairs). split.
  - unfold take. apply mapM_ret_intro.
    clear Hperm. induction pairs as [|[v i] l IH]; cbn [map];
      constructor.
    + apply (Hin v i). left. reflexivity.
    + apply IH. intros v' i' H'. apply Hin. right. exact H'.
  - rewrite Hperm. rewrite map_fst_combine_eq; [reflexivity|].
    rewrite length_range. unfold len. lia.
Qed.

Lemma in_slice_value (a : list Q) (lo hi k : Z) :
  0 <= lo -> hi <= len a -> lo <= k < hi ->
  In (value a k) (slice a (Some lo) (Some hi)).
Proof.
  intros Hlo Hhi Hk.
  apply (nth_error_In _ (Z.to_nat (k - lo))).
  rewrite nth_error_slice_inside by lia.
  destruct (Nat.ltb_spec (Z.to_nat (k - lo)) (Z.to_nat (hi - lo))); [|lia].
  replace (Z.to_nat lo + Z.to_nat (k - lo))%nat with (Z.to_nat k) by lia.
  unfold value. apply nth_error_nth'. unfold len in *. lia.
Qed.

(** X4.  Whenever [first_brillouin_zone] returns, every eigenvalue of the
    input strictly between [-edge] and [edge] is among the eigenvalues
    returned, and the eigenvalues returned never hold both a value equal to
    [-edge] and a value equal to [edge]: values are taken from at most one
    edge of the zone. *)
Theorem first_brillouin_zone_one_edge (V : Type) (ev : list Q)
    (vecs : list V) (n_values : Z) (edge : Q) (vals : list Q)
    (svecs : list V) :
  first_brillouin_zone ev vecs n_values edge = Ret (vals, svecs) ->
  (forall v, In v ev -> (- edge < v)%Q -> (v < edge)%Q -> In v vals) /\
  ~ ((exists v, In v vals /\ (v == - edge)%Q) /\
     (exists w, In w vals /\ (w == edge)%Q)).
Proof.
  intros Hret. unfold first_brillouin_zone in Hret.
  destruct (argsort_spec ev) as [evs [Htake [Hsorted _]]].
  destruct (argsort_take_perm ev) as [evs' [Htake' Hperm]].
  rewrite Htake in Htake'. inversion Htake'; subst evs'; clear Htake'.
  rewrite Htake in Hret. cbn [bind] in Hret.
  apply bind_ret_inv in Hret. destruct Hret as [vecs' [Hvecs Hret]].
  apply bind_ret_inv in Hret. destruct Hret as [nl [Hnl Hret]].
  apply bind_ret_inv in Hret. destruct Hret as [nu [Hnu Hret]].
  apply bind_ret_inv in Hret. destruct Hret as [[lo hi] [Hbranch Hret]].
  inversion Hret; subst vals svecs; clear Hret.
  set (lower := Np.searchsorted_left evs (- edge)) in *.
  set (upper := Np.searchsorted_right evs edge) in *.
  pose proof (searchsorted_left_bounds evs (- edge)) as Hlo.
  pose proof (searchsorted_right_bounds evs edge) as Hup.
  fold lower in Hlo. fold upper in Hup.
  pose proof (upper_edge_count_le _ _ _ _ Hsorted Hnu) as Hcount.
  fold upper in Hcount.
  apply lower_edge_loop_run in Hnl.
  destruct Hnl as [Hnl0 [Hlrun [vl [Hvl Hvlne]]]].
  apply upper_edge_loop_ret in Hnu.
  destruct Hnu as [Hnu0 [Hurun [vu [Hvu Hvune]]]].
  pose proof (getitem_inv _ _ _ _ Hvl) as [Hvl1 _].
  rewrite getitem_value in Hvl by lia. inversion Hvl; subst vl; clear Hvl.
  (* an index of a value above the lower edge is past the run on it *)
  assert (Habove : forall k, 0 <= k < len evs ->
            (- edge < value evs k)%Q -> lower + nl <= k).
  { intros k Hk Hv. destruct (Z_le_gt_dec (lower + nl) k) as [|Hc];
      [assumption|exfalso].
    destruct (Z_lt_le_dec k lower) as [Hb|Hb].
    - apply (Qlt_irrefl (- edge)).
      apply Qlt_trans with (y := value evs k); [exact Hv|].
      apply searchsorted_left_below. fold lower. lia.
    - destruct (Hlrun (k - lower)) as [w [Hw Hwe]]; [lia|].
      replace (lower + (k - lower)) with k in Hw by lia.
      rewrite getitem_value in Hw by lia. inversion Hw; subst w.
      rewrite Hwe in Hv. exact (Qlt_irrefl _ Hv). }
  (* and an index of a value below the upper edge is before the run on it *)
  assert (Hbelow : forall k, 0 <= k < len evs ->
            (value evs k < edge)%Q -> k < upper - nu).
  { intros k Hk Hv. destruct (Z_lt_le_dec k (upper - nu)) as [|Hc];
      [assumption|exfalso].
    destruct (Z_lt_le_dec k upper) as [Hb|Hb].
    - destruct (Hurun (upper - 1 - k)) as [w [Hw Hwe]]; [lia|].
      replace (upper - (upper - 1 - k) - 1) with k in Hw by lia.
      rewrite getitem_value in Hw by lia. inversion Hw; subst w.
      rewrite Hwe in Hv. exact (Qlt_irrefl _ Hv).
    - apply (Qlt_irrefl edge).
      apply Qlt_trans with (y := value evs k); [|exact Hv].
      apply searchsorted_right_above; [exact Hsorted|]. fold upper. lia. }
  (* past the run on the lower edge, values are above it *)
  assert (Hno_lower : forall k, lower + nl <= k < len evs ->
            ~ (value evs k == - edge)%Q).
  { intros k Hk Hc. apply Hvlne.
    apply Qle_antisym.
    - rewrite <- Hc. apply sorted_value_le; [exact Hsorted|lia|lia].
    - apply searchsorted_left_above; [exact Hsorted|]. fold lower. lia. }
  (* before the run on the upper edge, values are below it *)
  assert (Hno_upper : forall k, 0 <= k < upper - nu ->
            ~ (value evs k == edge)%Q).
  { intros k Hk Hc.
    rewrite getitem_value in Hvu by lia. inversion Hvu; subst vu.
    apply Hvune. apply Qle_antisym.
    - apply searchsorted_right_below. fold upper. lia.
    - rewrite <- Hc. apply sorted_value_le; [exact Hsorted|lia|lia]. }
  assert (Hbounds : lower <= lo <= lower + nl /\ upper - nu <= hi <= upper /\
                    (lo = lower + nl \/ hi = upper - nu)).
  { destruct (_ =? n_values) in Hbranch.
    { inversion Hbranch; subst. lia. }
    destruct (_ =? n_values) in Hbranch.
    { inversion Hbranch; subst. lia. }
    destruct (_ =? n_values) in Hbranch; [|discriminate].
    inversion Hbranch; subst. lia. }
  destruct Hbounds as [Hb1 [Hb2 Hb3]].
  split.
  - intros v Hin Hv1 Hv2.
    apply (Permutation_in _ (Permutation_sym Hperm)) in Hin.
    apply in_value in Hin. destruct Hin as [k [Hk <-]].
    pose proof (Habove k Hk Hv1). pose proof (Hbelow k Hk Hv2).
    apply in_slice_value; lia.
  - intros [[v [Hv Hve]] [w [Hw Hwe]]].
    apply in_slice_inside in Hv; [|lia|lia].
    apply in_slice_inside in Hw; [|lia|lia].
    destruct Hv as [kv [Hkv <-]]. destruct Hw as [kw [Hkw <-]].
    destruct Hb3 as [Hlo'|Hhi'].
    + apply (Hno_lower kv); [lia|exact Hve].
    + apply (Hno_upper kw); [lia|exact Hwe].
Qed.

Lemma first_brillouin_zone_one_edge_witness :
  first_brillouin_zone [1; -1; 0]%Q [7; 8; 9] 2 1%Q
  = Ret ([-1; 0]%Q, [8; 9]) /\
  (forall v, In v [1; -1; 0]%Q -> (- (1) < v)%Q -> (v < 1)%Q ->
             In v [-1; 0]%Q) /\
  ~ ((exists v, In v [-1; 0]%Q /\ (v == - (1))%Q) /\
     (exists w, In w [-1; 0]%Q /\ (w == 1)%Q)).
Proof.
  split; [reflexivity|].
  apply (first_brillouin_zone_one_edge Z [1; -1; 0]%Q [7; 8; 9] 2 1%Q
           [-1; 0]%Q [8; 9]).
  reflexivity.
Defined.

(** ** The shape of a bundle *)

Lemma chunks_lengths (A : Type) (n : nat) :
  forall count (l : list A),
    length l = (count * n)%nat ->
    Forall (fun c => length c = n) (chunks n count l).
Proof.
  induction count as [|count IH]; intros l Hl; cbn [chunks]; constructor.
  - rewrite length_firstn. lia.
  - apply IH. rewrite length_skipn. lia.
Qed.

Lemma reshape3_shape (A : Type) (m : list (list A)) (d0 d1 d2 : Z)
    (t : list (list (list A))) :
  reshape3 m d0 d1 d2 = Ret t -> has_shape3 d0 d1 d2 t.
Proof.
  unfold reshape3, has_shape3. intros Hret.
  destruct (_ || _) eqn:Hneg in Hret; [discriminate|].
  apply orb_false_iff in Hneg. destruct Hneg as [Hneg H2].
  apply orb_false_iff in Hneg. destruct Hneg as [H0 H1].
  apply Z.ltb_ge in H0, H1, H2.
  destruct (Z.eqb_spec (len (concat m)) (d0 * d1 * d2)) as [Hlen|];
    [|discriminate].
  inversion Hret; subst t; clear Hret. split.
  - unfold len. rewrite length_map, length_chunks. lia.
  - rewrite Forall_map.
    eapply Forall_impl;
      [|apply (chunks_lengths _ (Z.to_nat (d1 * d2)) (Z.to_nat d0))].
    + cbv beta. intros piece Hpiece. split.
      * unfold len. rewrite length_chunks. lia.
      * eapply Forall_impl;
          [|apply (chunks_lengths _ (Z.to_nat d2) (Z.to_nat d1))].
        -- cbv beta. intros blk Hblk. unfold len. lia.
        -- rewrite Hpiece. rewrite Z2Nat.inj_mul by lia. reflexivity.
    + unfold len in Hlen. nia.
Qed.

Lemma diagonalise_shape (L : Library) (k : kmatrix) (h_dimension : Z)
    (freq : Q) (decimals : Z) (vals : list Q)
    (vecs : list (list (list C))) :
  diagonalise L k h_dimension freq decimals = Ret (vals, vecs) ->
  1 <= h_dimension /\
  len vals = h_dimension /\
  has_shape3 h_dimension (shape0 (k_array k) / h_dimension) h_dimension vecs.
Proof.
  intros Hd. unfold diagonalise in Hd.
  apply bind_ret_inv in Hd. destruct Hd as [[evals evecs] [_ Hd]].
  apply bind_ret_inv in Hd. destruct Hd as [[vals0 rows0] [Hzone Hd]].
  apply bind_ret_inv in Hd. destruct Hd as [groups [_ Hd]].
  apply bind_ret_inv in Hd. destruct Hd as [rows [_ Hd]].
  apply bind_ret_inv in Hd. destruct Hd as [nz [Hdiv Hd]].
  apply bind_ret_inv in Hd. destruct Hd as [vectors [Hshape Hd]].
  inversion Hd; subst vals0 vectors; clear Hd.
  apply floordiv_ret in Hdiv. destruct Hdiv as [Hh ->].
  pose proof (reshape3_ret _ _ _ _ _ _ Hshape) as [Hh0 _].
  apply reshape3_shape in Hshape.
  destruct (first_brillouin_zone_returns _ _ _ _ _ _ _ Hzone Hh0)
    as [Hn _].
  split; [lia|]. split; [exact Hn|exact Hshape].
Qed.

Lemma fold_left_vadd_length (blocks : list (list C)) (acc : list C) :
  Forall (fun blk => length blk = length acc) blocks ->
  length (fold_left vadd blocks acc) = length acc.
Proof.
  revert acc. induction blocks as [|blk blocks IH]; intros acc Hall;
    [reflexivity|].
  cbn [fold_left]. inversion Hall as [|? ? Hblk Hrest]; subst.
  assert (Hlen : length (vadd acc blk) = length acc).
  { unfold vadd. rewrite length_zip_with. lia. }
  rewrite IH; [exact Hlen|].
  eapply Forall_impl; [|exact Hrest]. cbv beta. intros b Hb. lia.
Qed.

Lemma has_shape3_shape1 (A : Type) (d0 d1 d2 : Z)
    (t : list (list (list A))) :
  has_shape3 d0 d1 d2 t -> 1 <= d0 -> shape1 t = d1.
Proof.
  intros [Hlen Hall] H0. unfold shape1.
  destruct t as [|v t]; [rewrite len_nil in Hlen; lia|]. cbn [hd].
  apply Forall_inv in Hall. tauto.
Qed.

Lemma has_shape3_shape2 (A : Type) (d0 d1 d2 : Z)
    (t : list (list (list A))) :
  has_shape3 d0 d1 d2 t -> 1 <= d0 -> 1 <= d1 -> shape2 t = d2.
Proof.
  intros [Hlen Hall] H0 H1. unfold shape2.
  destruct t as [|v t]; [rewrite len_nil in Hlen; lia|]. cbn [hd].
  apply Forall_inv in Hall. destruct Hall as [Hv Hblocks].
  destruct v as [|blk v]; [rewrite len_nil in Hv; lia|]. cbn [hd].
  apply Forall_inv in Hblocks. exact Hblocks.
Qed.

Lemma sum_axis1_square (dim nz : Z) (t : list (list (list C))) :
  has_shape3 dim nz dim t -> 1 <= dim -> 1 <= nz ->
  square dim (sum_axis1 t).
Proof.
  intros Ht Hdim Hnz. unfold sum_axis1.
  rewrite (has_shape3_shape2 _ _ _ _ _ Ht Hdim Hnz).
  destruct Ht as [Hlen Hall]. split; [rewrite len_map; exact Hlen|].
  rewrite Forall_map. eapply Forall_impl; [|exact Hall]. cbv beta.
  intros v [_ Hblocks]. unfold len.
  rewrite fold_left_vadd_length; rewrite repeat_length; [lia|].
  eapply Forall_impl; [|exact Hblocks]. cbv beta. unfold len. lia.
Qed.

Lemma square_conj2 (dim : Z) (m : list (list C)) :
  square dim m -> square dim (conj2 m).
Proof.
  intros [Hlen Hall]. unfold conj2. split; [rewrite len_map; exact Hlen|].
  rewrite Forall_map. eapply Forall_impl; [|exact Hall]. cbv beta.
  intros r Hr. unfold conj1. rewrite len_map. exact Hr.
Qed.

Lemma len_fourier_modes_even (n_zones : Z) :
  0 <= n_zones -> Z.even n_zones = true ->
  len (range ((1 - n_zones) / 2) (1 + n_zones / 2)) = n_zones + 1.
Proof.
  intros Hnz Heven. rewrite len_range.
  - apply Z.even_spec in Heven. destruct Heven as [h ->].
    replace (1 - 2 * h) with (1 + (- h) * 2) by lia.
    rewrite Z.div_add by lia. rewrite (Z.mul_comm 2 h), Z.div_mul by lia.
    change (1 / 2) with 0. lia.
  - apply Z.even_spec in Heven. destruct Heven as [h ->].
    replace (1 - 2 * h) with (1 + (- h) * 2) by lia.
    rewrite Z.div_add by lia. rewrite (Z.mul_comm 2 h), Z.div_mul by lia.
    change (1 / 2) with 0. lia.
Qed.




(** ** An even number of zones *)

(** X6.  A bundle that [eigensystem] returns for an even number of zones,
    two or more, cannot be evaluated: it has one coefficient more than it
    has zones, and at every time [current_floquet_kets],
    [d_current_floquet_kets], [u] and [du_dt] raise the error of arrays
    that cannot be broadcast together. *)
Theorem even_zones_cannot_be_evaluated (L : Library)
    (hamiltonian : list (list (list C)))
    (dhamiltonian : option (list (list (list (list C))))) (n_zones : Z)
    (freq : Q) (decimals : Z) (sparse : bool) (bundle : Eigensystem)
    (time : R) :
  Z.even n_zones = true -> 2 <= n_zones ->
  eigensystem L hamiltonian dhamiltonian n_zones freq decimals sparse
  = Ret bundle ->
  current_floquet_kets bundle time = Exc ValueError /\
  d_current_floquet_kets bundle time = Exc ValueError /\
  u bundle time = Exc ValueError /\
  du_dt bundle time = Exc ValueError.
Proof.
  intros Heven Hnz Hret.
  destruct (eigensystem_blocks _ _ _ _ _ _ _ _ Hret) as [_ [Hshape _]].
  apply eigensystem_ret in Hret.
  destruct Hret as [k [_ [_ [_ [_ [Hcoeff _]]]]]].
  assert (Hlen : len (abstract_ket_coefficients bundle) = n_zones + 1).
  { rewrite Hcoeff, len_map. apply len_fourier_modes_even; [lia|exact Heven]. }
  assert (Hbroadcast : forall weights,
            len weights = n_zones + 1 ->
            times_axis1 weights (k_eigenvectors bundle) = Exc ValueError).
  { intros weights Hw. unfold times_axis1. rewrite Hw, Hshape.
    destruct (Z.eqb_spec (n_zones + 1) n_zones); [lia|].
    destruct weights as [|w [|w' weights]].
    - rewrite len_nil in Hw. lia.
    - rewrite len_cons, len_nil in Hw. lia.
    - destruct (Z.eqb_spec n_zones 1); [lia|reflexivity]. }
  assert (Hkets : current_floquet_kets bundle time = Exc ValueError).
  { unfold current_floquet_kets. rewrite Hbroadcast; [reflexivity|].
    rewrite len_map. exact Hlen. }
  assert (Hzeros : forall n, 0 <= n ->
            exists out, @zeros2 C _ n n = Ret out).
  { intros n Hn. rewrite zeros2_tab by exact Hn. eexists. reflexivity. }
  split; [exact Hkets|]. split.
  { unfold d_current_floquet_kets. rewrite Hbroadcast; [reflexivity|].
    rewrite len_zip_with; rewrite len_map; [exact Hlen|reflexivity]. }
  split.
  - unfold u.
    destruct (Hzeros (shape0 (quasienergies bundle)) (len_nonneg _ _))
      as [out ->].
    cbn [bind]. rewrite Hkets. reflexivity.
  - unfold du_dt.
    destruct (Hzeros (shape0 (quasienergies bundle)) (len_nonneg _ _))
      as [out ->].
    cbn [bind]. rewrite Hkets. reflexivity.
Qed.

Lemma even_zones_cannot_be_evaluated_witness :
  let L := {| np_linalg_eig := fun _ =>
                Ret ([(0, 0); (1, 0)]%Q, [[C1; C0]; [C0; C1]]);
              sparse_eigs := fun _ _ => Exc SolverError;
              gram_schmidt := fun m => m |} in
  exists bundle,
    eigensystem L [[[C0]]; [[C0]]; [[C0]]] None 2 1 8 false = Ret bundle /\
    u bundle 1 = Exc ValueError /\
    du_dt bundle 1 = Exc ValueError.
Proof.
  intros L. eexists.
  assert (Hbuilt : eigensystem L [[[C0]]; [[C0]]; [[C0]]] None 2 1 8 false
                   = Ret ?[b])
    by (lazy; reflexivity).
  split; [exact Hbuilt|].
  pose proof (even_zones_cannot_be_evaluated L [[[C0]]; [[C0]]; [[C0]]]
                None 2 1 8 false _ 1%R eq_refl ltac:(lia) Hbuilt) as Hraise.
  split; [exact (proj1 (proj2 (proj2 Hraise)))|].
  exact (proj2 (proj2 (proj2 Hraise))).
Defined.

(** ** Sizes that are refused *)

(** X7.  [diagonalise] never returns for the dimension zero: whatever the
    solver gives and the zone selection keeps, the number of zones
    [k.shape[0] // h_dimension] is a division by zero. *)
Theorem diagonalise_zero_dimension (L : Library) (k : kmatrix) (freq : Q)
    (decimals : Z) (r : list Q * list (list (list C))) :
  diagonalise L k 0 freq decimals <> Ret r.
Proof.
  intros Hd. unfold diagonalise in Hd.
  apply bind_ret_inv in Hd. destruct Hd as [[evals evecs] [_ Hd]].
  apply bind_ret_inv in Hd. destruct Hd as [[vals0 rows0] [_ Hd]].
  apply bind_ret_inv in Hd. destruct Hd as [groups [_ Hd]].
  apply bind_ret_inv in Hd. destruct Hd as [rows [_ Hd]].
  apply bind_ret_inv in Hd. destruct Hd as [nz [Hdiv _]].
  discriminate.
Qed.



(** ** Vectors and matrices as tables *)

Lemma vector_as_map (A : Type) (d : A) (n : Z) (v : list A) :
  len v = n -> v = map (fun a => nth (Z.to_nat a) v d) (range 0 n).
Proof.
  intros <-. symmetry. exact (list_as_map A d [] v).
Qed.

Lemma zip_with_as_map (A B D : Type) (f : A -> B -> D) (da : A) (db : B)
    (n : Z) (l : list A) (m : list B) :
  len l = n -> len m = n ->
  zip_with f l m
  = map (fun i => f (nth (Z.to_nat i) l da) (nth (Z.to_nat i) m db))
        (range 0 n).
Proof.
  intros Hl Hm.
  rewrite (vector_as_map A da n l Hl) at 1.
  rewrite (vector_as_map B db n m Hm) at 1.
  apply zip_with_map_map.
Qed.

Lemma entry_tab (n m : Z) (f : Z -> Z -> C) (a c : Z) :
  0 <= a < n -> 0 <= c < m -> entry (tab n m f) a c = f a c.
Proof.
  intros Ha Hc. unfold entry, tab.
  rewrite (nth_map_range _ _ [] n a Ha).
  apply nth_map_range. exact Hc.
Qed.

Lemma len_tab (K : Type) (n m : Z) (f : Z -> Z -> K) :
  0 <= n -> len (tab n m f) = n.
Proof. intros Hn. unfold tab. rewrite len_map, len_range; lia. Qed.

Lemma square_tab (n : Z) (f : Z -> Z -> C) : 0 <= n -> square n (tab n n f).
Proof.
  intros Hn. split; [apply len_tab; exact Hn|].
  unfold tab. rewrite Forall_map, Forall_forall. intros r _.
  rewrite len_map, len_range; lia.
Qed.

Lemma shape1_tab (K : Type) (n m : Z) (f : Z -> Z -> K) :
  1 <= n -> 0 <= m -> shape1 (tab n m f) = m.
Proof.
  intros Hn Hm. unfold shape1, tab.
  rewrite (range_cons 0 n) by lia. cbn [map hd].
  rewrite len_map, len_range; lia.
Qed.

Lemma vadd_map (f g : Z -> C) (n : Z) :
  vadd (map f (range 0 n)) (map g (range 0 n))
  = map (fun a => Cplus (f a) (g a)) (range 0 n).
Proof. unfold vadd. apply zip_with_map_map. Qed.

Lemma tab_add (n m : Z) (f g : Z -> Z -> C) :
  zip_with vadd (tab n m f) (tab n m g)
  = tab n m (fun a c => Cplus (f a c) (g a c)).
Proof.
  unfold tab. rewrite zip_with_map_map. apply map_ext. intros r.
  apply vadd_map.
Qed.

Lemma outer_tab (f g : Z -> C) (n m : Z) :
  outer (map f (range 0 n)) (map g (range 0 m))
  = tab n m (fun a c => Cmult (f a) (g c)).
Proof.
  unfold outer, tab. rewrite map_map. apply map_ext. intros r.
  rewrite map_map. reflexivity.
Qed.

Lemma vscale_map (x : C) (f : Z -> C) (n : Z) :
  vscale x (map f (range 0 n)) = map (fun a => Cmult x (f a)) (range 0 n).
Proof. unfold vscale. apply map_map. Qed.

Lemma tab_scale (x : C) (n m : Z) (f : Z -> Z -> C) :
  map (vscale x) (tab n m f) = tab n m (fun a c => Cmult x (f a c)).
Proof.
  unfold tab. rewrite map_map. apply map_ext. intros r. apply vscale_map.
Qed.

Lemma broadcast2_tab (n m : Z) (f : Z -> Z -> C) :
  0 <= n -> 0 <= m -> broadcast2 n m (tab n m f) = Ret (tab n m f).
Proof.
  intros Hn Hm. unfold broadcast2.
  assert (Hrows : mapM (broadcast1 m) (tab n m f) = Ret (tab n m f)).
  { apply mapM_ret_intro. unfold tab.
    induction (range 0 n) as [|r l IH]; cbn [map]; constructor;
      [|exact IH].
    unfold broadcast1. rewrite len_map, len_range by lia.
    rewrite Z.sub_0_r, Z.eqb_refl. reflexivity. }
  rewrite Hrows. cbn [bind]. rewrite len_tab by exact Hn.
  rewrite Z.eqb_refl. reflexivity.
Qed.

Lemma iadd2_tab (n m : Z) (f g : Z -> Z -> C) :
  1 <= n -> 0 <= m ->
  iadd2 (tab n m f) (tab n m g)
  = Ret (tab n m (fun a c => Cplus (f a c) (g a c))).
Proof.
  intros Hn Hm. unfold iadd2, shape0.
  rewrite len_tab, shape1_tab by lia.
  rewrite broadcast2_tab by lia. cbn [bind]. rewrite tab_add. reflexivity.
Qed.

Lemma outer_into_tab (n m : Z) (f : Z -> Z -> C) (v w : Z -> C) :
  1 <= n -> 0 <= m ->
  outer_into (tab n m f) (map v (range 0 n)) (map w (range 0 m))
  = Ret (tab n m (fun a c => Cmult (v a) (w c))).
Proof.
  intros Hn Hm. unfold outer_into, shape0.
  rewrite len_tab, shape1_tab by lia.
  rewrite outer_tab. apply broadcast2_tab; lia.
Qed.

(** ** The Floquet kets as sums over the zones *)

Lemma fold_vadd_map (n : Z) (rows : list (list C)) :
  Forall (fun r => len r = n) rows ->
  forall acc : Z -> C,
    fold_left vadd rows (map acc (range 0 n))
    = map (fun a =>
             fold_left Cplus (map (fun r => nth (Z.to_nat a) r C0) rows)
                       (acc a))
          (range 0 n).
Proof.
  induction rows as [|r rows IH]; intros Hall acc; [reflexivity|].
  apply Forall_cons_iff in Hall. destruct Hall as [Hr Hrest].
  cbn [fold_left map].
  rewrite (vector_as_map C C0 n r Hr) at 1. rewrite vadd_map.
  rewrite (IH Hrest). reflexivity.
Qed.

Lemma repeat_as_map (A : Type) (x : A) (n : Z) :
  repeat x (Z.to_nat n) = map (fun _ => x) (range 0 n).
Proof.
  unfold range. rewrite Z.sub_0_r, map_map.
  induction (Z.to_nat n) as [|k IH]; [reflexivity|].
  cbn [repeat]. rewrite <- cons_seq, <- seq_shift. cbn [map].
  rewrite map_map. f_equal. exact IH.
Qed.

(** The sum over the middle axis of the eigenvectors weighted by [W]. *)
Lemma weighted_sum_tab (dim nz : Z) (W : list C)
    (kv : list (list (list C))) :
  1 <= dim -> 1 <= nz -> has_shape3 dim nz dim kv -> len W = nz ->
  bind (times_axis1 W kv) (fun weighted => Ret (sum_axis1 weighted))
  = Ret (tab dim dim (fun m a =>
           csum (fun z =>
                   Cmult (nth (Z.to_nat z) W C0)
                         (nth (Z.to_nat a)
                            (nth (Z.to_nat z) (nth (Z.to_nat m) kv []) [])
                            C0))
                nz)).
Proof.
  intros Hdim Hnz Hkv HW. unfold times_axis1.
  rewrite (has_shape3_shape1 _ _ _ _ _ Hkv Hdim), HW, Z.eqb_refl.
  cbn [bind]. f_equal.
  set (weighted := map (fun blocks => zip_with vscale W blocks) kv).
  assert (Hweighted : has_shape3 dim nz dim weighted).
  { destruct Hkv as [Hlen Hall]. split; [unfold weighted; rewrite len_map;
      exact Hlen|].
    unfold weighted. rewrite Forall_map.
    eapply Forall_impl; [|exact Hall]. cbv beta. intros v [Hv Hblocks].
    split; [rewrite len_zip_with; lia|].
    rewrite Forall_forall. intros blk Hin.
    apply in_zip_with in Hin. destruct Hin as [w [blk0 [_ [Hin ->]]]].
    rewrite Forall_forall in Hblocks. unfold vscale.
    rewrite len_map. apply Hblocks. exact Hin. }
  unfold sum_axis1.
  rewrite (has_shape3_shape2 _ _ _ _ _ Hweighted Hdim Hnz).
  unfold weighted. rewrite map_map.
  destruct Hkv as [Hlen Hall].
  rewrite (vector_as_map _ [] dim kv Hlen) at 1.
  unfold tab. rewrite map_map. apply map_ext_range. intros m Hm.
  assert (Hv : len (nth (Z.to_nat m) kv []) = nz /\
               Forall (fun blk => len blk = dim) (nth (Z.to_nat m) kv [])).
  { rewrite Forall_forall in Hall. apply Hall. apply nth_In.
    unfold len in Hlen. lia. }
  destruct Hv as [Hv Hblocks]. set (v := nth (Z.to_nat m) kv []) in *.
  rewrite (zip_with_as_map _ _ _ vscale C0 [] nz W v HW Hv).
  rewrite repeat_as_map, fold_vadd_map.
  - apply map_ext_range. intros a Ha. unfold csum. f_equal.
    rewrite map_map. apply map_ext_range. intros z Hz.
    unfold vscale.
    rewrite (nth_indep _ C0 (Cmult (nth (Z.to_nat z) W C0) C0)).
    + apply map_nth.
    + rewrite length_map.
      assert (Hblk : len (nth (Z.to_nat z) v []) = dim).
      { rewrite Forall_forall in Hblocks. apply Hblocks. apply nth_In.
        unfold len in Hv. lia. }
      unfold len in Hblk. lia.
  - rewrite Forall_map, Forall_forall. intros z Hz. apply in_range in Hz.
    unfold vscale. rewrite len_map.
    rewrite Forall_forall in Hblocks. apply Hblocks. apply nth_In.
    unfold len in Hv. lia.
Qed.

Lemma zip_with_map_left (A B D : Type) (f : B -> A -> D) (g : A -> B)
    (l : list A) :
  zip_with f (map g l) l = map (fun x => f (g x) x) l.
Proof.
  induction l as [|x l IH]; [reflexivity|]. cbn [map zip_with].
  rewrite IH. reflexivity.
Qed.

Lemma current_floquet_kets_tab (b : Eigensystem) (dim nz : Z) (t : R) :
  1 <= dim -> 1 <= nz -> well_formed b dim nz ->
  current_floquet_kets b t = Ret (tab dim dim (ket_entry b t)).
Proof.
  intros Hdim Hnz [_ [Hkv [_ Hcoeff]]]. unfold current_floquet_kets.
  rewrite (weighted_sum_tab dim nz) by
    (try assumption; rewrite len_map; exact Hcoeff).
  f_equal. apply tab_ext. intros m a Hm Ha. unfold ket_entry.
  rewrite (has_shape3_shape1 _ _ _ _ _ Hkv Hdim). unfold csum. f_equal.
  apply map_ext_range. intros z Hz. unfold coefficient, block_entry.
  f_equal.
  rewrite (nth_indep _ C0 (Cexp (Cmult (RtoC t) C0)))
    by (rewrite length_map; unfold len in Hcoeff; lia).
  apply (map_nth (fun c => Cexp (Cmult (RtoC t) c))).
Qed.

Lemma d_current_floquet_kets_tab (b : Eigensystem) (dim nz : Z) (t : R) :
  1 <= dim -> 1 <= nz -> well_formed b dim nz ->
  d_current_floquet_kets b t = Ret (tab dim dim (dket_entry b t)).
Proof.
  intros Hdim Hnz [_ [Hkv [_ Hcoeff]]]. unfold d_current_floquet_kets.
  rewrite zip_with_map_left.
  rewrite (weighted_sum_tab dim nz) by
    (try assumption; rewrite len_map; exact Hcoeff).
  f_equal. apply tab_ext. intros m a Hm Ha. unfold dket_entry.
  rewrite (has_shape3_shape1 _ _ _ _ _ Hkv Hdim). unfold csum. f_equal.
  apply map_ext_range. intros z Hz. unfold coefficient, block_entry.
  f_equal.
  rewrite (nth_indep _ C0 (Cmult (Cexp (Cmult (RtoC t) C0)) C0))
    by (rewrite length_map; unfold len in Hcoeff; lia).
  apply (map_nth (fun c => Cmult (Cexp (Cmult (RtoC t) c)) c)).
Qed.

(** ** The evolution operator as a sum over the modes *)

Lemma csum_snoc (f : Z -> C) (n : Z) :
  0 <= n -> csum f (n + 1) = Cplus (csum f n) (f n).
Proof.
  intros Hn. unfold csum. rewrite range_snoc by exact Hn.
  rewrite map_app, fold_left_app. reflexivity.
Qed.

Lemma getitem_tab (n m : Z) (f : Z -> Z -> C) (i : Z) :
  0 <= i < n ->
  getitem (tab n m f) i = Ret (map (fun c => f i c) (range 0 m)).
Proof. intros Hi. unfold tab. apply getitem_map_range. exact Hi. Qed.

Lemma getitem_bra (b : Eigensystem) (dim : Z) (m : Z) :
  square dim (initial_floquet_bras b) -> 0 <= m < dim ->
  getitem (initial_floquet_bras b) m
  = Ret (map (fun c => bra_entry b m c) (range 0 dim)).
Proof.
  intros [Hlen Hall] Hm.
  rewrite (getitem_nth _ _ _ []) by lia. f_equal.
  unfold bra_entry, entry. apply vector_as_map.
  rewrite Forall_forall in Hall. apply Hall. apply nth_In.
  unfold len in Hlen. lia.
Qed.

Lemma u_tab (b : Eigensystem) (dim nz : Z) (t : R) :
  1 <= dim -> 1 <= nz -> well_formed b dim nz ->
  u b t = Ret (tab dim dim (u_entry b t)).
Proof.
  intros Hdim Hnz Hb. pose proof Hb as [Hvals [_ [Hbras _]]].
  unfold u, shape0. rewrite Hvals.
  rewrite zeros2_tab by lia. cbn [bind].
  rewrite (current_floquet_kets_tab b dim nz) by assumption. cbn [bind].
  set (term := fun m a c =>
         Cmult (Cmult (energy_phase b t m) (ket_entry b t m a))
               (bra_entry b m c)).
  destruct (foldM_range _
              (fun out mode =>
                 phase <- getitem
                            (map (fun e =>
                                    Cexp (Cmult (Cmult (Copp Ci) (RtoC t))
                                                (QtoC e)))
                                 (quasienergies b)) mode ;;
                 ket <- getitem (tab dim dim (ket_entry b t)) mode ;;
                 bra <- getitem (initial_floquet_bras b) mode ;;
                 iadd2 out (outer (vscale phase ket) bra))
              (fun k out =>
                 out = tab dim dim (fun a c => csum (fun m => term m a c) k))
              0 dim) with (s := tab dim dim (fun _ _ : Z => @zero C _))
    as [out [Hfold Hout]].
  - lia.
  - intros i s Hi ->.
    rewrite getitem_map_value by lia. cbn [bind].
    rewrite getitem_tab by exact Hi. cbn [bind].
    rewrite (getitem_bra b dim) by assumption. cbn [bind].
    rewrite vscale_map, outer_tab, iadd2_tab by lia.
    eexists. split; [reflexivity|].
    apply tab_ext. intros a c Ha Hc. rewrite csum_snoc by lia. reflexivity.
  - reflexivity.
  - rewrite Hfold, Hout. f_equal. apply tab_ext. intros a c _ _.
    unfold u_entry. rewrite Hvals. reflexivity.
Qed.

(** The two terms that a mode adds to [du_dt]. *)
Lemma du_dt_tab (b : Eigensystem) (dim nz : Z) (t : R) :
  1 <= dim -> 1 <= nz -> well_formed b dim nz ->
  du_dt b t = Ret (tab dim dim (du_dt_entry b t)).
Proof.
  intros Hdim Hnz Hb. pose proof Hb as [Hvals [_ [Hbras _]]].
  unfold du_dt, shape0. rewrite Hvals.
  rewrite zeros2_tab by lia. cbn [bind].
  rewrite (current_floquet_kets_tab b dim nz) by assumption. cbn [bind].
  rewrite (d_current_floquet_kets_tab b dim nz) by assumption. cbn [bind].
  rewrite map_map.
  set (step := fun a c acc m =>
         Cplus
           (Cplus acc
              (Cmult (Cmult (factor_phase b t m) (dket_entry b t m a))
                     (bra_entry b m c)))
           (Cmult (energy_factor b m)
              (Cmult (Cmult (factor_phase b t m) (ket_entry b t m a))
                     (bra_entry b m c)))).
  destruct (foldM_range _
              (fun '(out, tmp) mode =>
                 phase <- getitem
                            (map (fun e =>
                                    Cexp (Cmult (RtoC t)
                                            (Cmult (Copp Ci) (QtoC e))))
                                 (quasienergies b)) mode ;;
                 dket <- getitem (tab dim dim (dket_entry b t)) mode ;;
                 bra <- getitem (initial_floquet_bras b) mode ;;
                 tmp <- outer_into tmp (vscale phase dket) bra ;;
                 out <- iadd2 out tmp ;;
                 phase <- getitem
                            (map (fun e =>
                                    Cexp (Cmult (RtoC t)
                                            (Cmult (Copp Ci) (QtoC e))))
                                 (quasienergies b)) mode ;;
                 ket <- getitem (tab dim dim (ket_entry b t)) mode ;;
                 bra <- getitem (initial_floquet_bras b) mode ;;
                 tmp <- outer_into tmp (vscale phase ket) bra ;;
                 factor <- getitem
                             (map (fun e => Cmult (Copp Ci) (QtoC e))
                                  (quasienergies b)) mode ;;
                 out <- iadd2 out (map (vscale factor) tmp) ;;
                 Ret (out, tmp))
              (fun k s =>
                 fst s = tab dim dim
                           (fun a c => fold_left (step a c) (range 0 k) C0) /\
                 exists g, snd s = tab dim dim g)
              0 dim)
    with (s := (tab dim dim (fun _ _ : Z => @zero C _),
                tab dim dim (fun _ _ : Z => @zero C _)))
    as [[out tmp] [Hfold [Hout _]]].
  - lia.
  - intros i [out tmp] Hi [Hout [g Htmp]]. cbn [fst snd] in Hout, Htmp.
    subst out tmp.
    rewrite !getitem_map_value by lia. cbn [bind].
    rewrite !getitem_tab by exact Hi. cbn [bind].
    rewrite (getitem_bra b dim) by assumption. cbn [bind].
    rewrite !vscale_map.
    rewrite outer_into_tab by lia. cbn [bind].
    rewrite iadd2_tab by lia. cbn [bind].
    rewrite outer_into_tab by lia. cbn [bind].
    rewrite tab_scale, iadd2_tab by lia. cbn [bind].
    eexists. split; [reflexivity|]. cbn [fst snd]. split.
    + apply tab_ext. intros a c Ha Hc.
      rewrite range_snoc, fold_left_app by lia. reflexivity.
    + eexists. reflexivity.
  - cbn [fst snd]. split; [reflexivity|]. eexists. reflexivity.
  - rewrite Hfold. cbn [bind fst] in *. rewrite Hout. f_equal.
    apply tab_ext. intros a c _ _. unfold du_dt_entry. rewrite Hvals.
    reflexivity.
Qed.

Lemma eigensystem_well_formed (L : Library)
    (hamiltonian : list (list (list C)))
    (dhamiltonian : option (list (list (list (list C))))) (n_zones : Z)
    (freq : Q) (decimals : Z) (sparse : bool) (bundle : Eigensystem) :
  Z.odd n_zones = true ->
  eigensystem L hamiltonian dhamiltonian n_zones freq decimals sparse
  = Ret bundle ->
  1 <= shape1 hamiltonian /\ 1 <= n_zones /\
  well_formed bundle (shape1 hamiltonian) n_zones.
Proof.
  intros Hodd Hret.
  destruct (eigensystem_blocks _ _ _ _ _ _ _ _ Hret) as [Hnz _].
  assert (Hnz1 : 1 <= n_zones).
  { destruct (Z.eq_dec n_zones 0) as [->|]; [discriminate|lia]. }
  apply eigensystem_ret in Hret.
  destruct Hret as [k [Hk [Hd [_ [Hbras [Hcoeff _]]]]]].
  apply len_assemble_k in Hk.
  apply diagonalise_shape in Hd. destruct Hd as [Hdim [Hvals Hvecs]].
  replace (shape0 (k_array (if sparse then Sparse k else Dense k)))
    with (len k) in Hvecs by (destruct sparse; reflexivity).
  rewrite Hk, Z.mul_comm, Z.div_mul in Hvecs by lia.
  split; [exact Hdim|]. split; [exact Hnz1|].
  split; [exact Hvals|]. split; [exact Hvecs|]. split.
  - rewrite Hbras. apply square_conj2.
    apply (sum_axis1_square _ n_zones); assumption.
  - rewrite Hcoeff, len_map. apply len_fourier_modes; assumption.
Qed.

(** ** Derivatives with respect to time *)

Lemma Cderiv_ext (f g : R -> C) (t : R) (d : C) :
  (forall s, f s = g s) -> Cderiv f t d -> Cderiv g t d.
Proof.
  intros Hfg [H1 H2]. split.
  - apply (derivable_pt_lim_ext (fun s => fst (f s))); [|exact H1].
    intros s. rewrite Hfg. reflexivity.
  - apply (derivable_pt_lim_ext (fun s => snd (f s))); [|exact H2].
    intros s. rewrite Hfg. reflexivity.
Qed.

Lemma Cderiv_value (f : R -> C) (t : R) (d d' : C) :
  d = d' -> Cderiv f t d -> Cderiv f t d'.
Proof. intros <-. exact (fun H => H). Qed.

Lemma derivable_pt_lim_value (f : R -> R) (x l l' : R) :
  derivable_pt_lim f x l -> l = l' -> derivable_pt_lim f x l'.
Proof. intros H <-. exact H. Qed.

Lemma Cderiv_const (c : C) (t : R) : Cderiv (fun _ => c) t C0.
Proof.
  split; [exact (derivable_pt_lim_const (fst c) t)|
          exact (derivable_pt_lim_const (snd c) t)].
Qed.

Lemma Cderiv_plus (f g : R -> C) (t : R) (f' g' : C) :
  Cderiv f t f' -> Cderiv g t g' ->
  Cderiv (fun s => Cplus (f s) (g s)) t (Cplus f' g').
Proof.
  intros [F1 F2] [G1 G2]. split.
  - exact (derivable_pt_lim_plus _ _ _ _ _ F1 G1).
  - exact (derivable_pt_lim_plus _ _ _ _ _ F2 G2).
Qed.

Lemma Cderiv_mult (f g : R -> C) (t : R) (f' g' : C) :
  Cderiv f t f' -> Cderiv g t g' ->
  Cderiv (fun s => Cmult (f s) (g s)) t
         (Cplus (Cmult f' (g t)) (Cmult (f t) g')).
Proof.
  intros [F1 F2] [G1 G2]. split.
  - pose proof (derivable_pt_lim_minus _ _ _ _ _
                  (derivable_pt_lim_mult _ _ _ _ _ F1 G1)
                  (derivable_pt_lim_mult _ _ _ _ _ F2 G2)) as H.
    unfold Cplus, Cmult. cbn [fst snd].
    apply (derivable_pt_lim_value _ _ _ _ H). ring.
  - pose proof (derivable_pt_lim_plus _ _ _ _ _
                  (derivable_pt_lim_mult _ _ _ _ _ F1 G2)
                  (derivable_pt_lim_mult _ _ _ _ _ F2 G1)) as H.
    unfold Cplus, Cmult. cbn [fst snd].
    apply (derivable_pt_lim_value _ _ _ _ H). ring.
Qed.

Lemma Cderiv_mult_const (f : R -> C) (c : C) (t : R) (f' : C) :
  Cderiv f t f' -> Cderiv (fun s => Cmult (f s) c) t (Cmult f' c).
Proof.
  intros Hf.
  apply (Cderiv_value _ _ (Cplus (Cmult f' c) (Cmult (f t) C0))).
  - destruct f' as [a1 a2], (f t) as [b1 b2], c as [c1 c2].
    unfold Cplus, Cmult, C0, RtoC. cbn [fst snd]. f_equal; ring.
  - exact (Cderiv_mult f (fun _ => c) t f' C0 Hf (Cderiv_const c t)).
Qed.

(** [exp(s c)] has the derivative [exp(t c) c] at [t]. *)
Lemma Cderiv_exp (c : C) (t : R) :
  Cderiv (fun s => Cexp (Cmult (RtoC s) c)) t
         (Cmult (Cexp (Cmult (RtoC t) c)) c).
Proof.
  destruct c as [p q].
  assert (Hp : derivable_pt_lim (fun s => s * p - 0 * q)%R t p).
  { pose proof (derivable_pt_lim_minus _ _ _ _ _
                  (derivable_pt_lim_mult _ _ _ _ _
                     (derivable_pt_lim_id t) (derivable_pt_lim_const p t))
                  (derivable_pt_lim_const (0 * q) t)) as H.
    apply (derivable_pt_lim_value _ _ _ _ H). unfold fct_cte, id. ring. }
  assert (Hq : derivable_pt_lim (fun s => s * q + 0 * p)%R t q).
  { pose proof (derivable_pt_lim_plus _ _ _ _ _
                  (derivable_pt_lim_mult _ _ _ _ _
                     (derivable_pt_lim_id t) (derivable_pt_lim_const q t))
                  (derivable_pt_lim_const (0 * p) t)) as H.
    apply (derivable_pt_lim_value _ _ _ _ H). unfold fct_cte, id. ring. }
  pose proof (derivable_pt_lim_comp _ _ _ _ _ Hp
                (derivable_pt_lim_exp (t * p - 0 * q))) as Hexp.
  pose proof (derivable_pt_lim_comp _ _ _ _ _ Hq
                (derivable_pt_lim_cos (t * q + 0 * p))) as Hcos.
  pose proof (derivable_pt_lim_comp _ _ _ _ _ Hq
                (derivable_pt_lim_sin (t * q + 0 * p))) as Hsin.
  split.
  - pose proof (derivable_pt_lim_mult _ _ _ _ _ Hexp Hcos) as H.
    unfold Cexp, Cmult, RtoC. cbn [fst snd].
    apply (derivable_pt_lim_value _ _ _ _ H). unfold comp. ring.
  - pose proof (derivable_pt_lim_mult _ _ _ _ _ Hexp Hsin) as H.
    unfold Cexp, Cmult, RtoC. cbn [fst snd].
    apply (derivable_pt_lim_value _ _ _ _ H). unfold comp. ring.
Qed.

Lemma Cderiv_fold (A : Type) (l : list A) (f : A -> R -> C) (d : A -> C)
    (t : R) :
  (forall x, In x l -> Cderiv (f x) t (d x)) ->
  forall (acc : R -> C) (dacc : C),
    Cderiv acc t dacc ->
    Cderiv (fun s => fold_left Cplus (map (fun x => f x s) l) (acc s)) t
           (fold_left Cplus (map d l) dacc).
Proof.
  induction l as [|x l IH]; intros Hl acc dacc Hacc; [exact Hacc|].
  cbn [map fold_left].
  apply (IH (fun y Hy => Hl y (or_intror Hy))
            (fun s => Cplus (acc s) (f x s)) (Cplus dacc (d x))).
  apply Cderiv_plus; [exact Hacc|]. apply Hl. left. reflexivity.
Qed.

Lemma Cderiv_csum (f : Z -> R -> C) (d : Z -> C) (n : Z) (t : R) :
  (forall x, 0 <= x < n -> Cderiv (f x) t (d x)) ->
  Cderiv (fun s => csum (fun x => f x s) n) t (csum d n).
Proof.
  intros Hf. unfold csum.
  apply (Cderiv_fold Z (range 0 n) f d t).
  - intros x Hx. apply in_range in Hx. apply Hf. exact Hx.
  - apply Cderiv_const.
Qed.

(** The phases of [u] and of [du_dt] are one function of time. *)
Lemma energy_phase_factor_phase (b : Eigensystem) (t : R) (m : Z) :
  energy_phase b t m = factor_phase b t m.
Proof.
  unfold energy_phase, factor_phase, energy_factor. f_equal.
  unfold Cmult, Copp, Ci, RtoC, QtoC. cbn [fst snd]. f_equal; ring.
Qed.

Lemma Cderiv_ket_entry (b : Eigensystem) (t : R) (m a : Z) :
  Cderiv (fun s => ket_entry b s m a) t (dket_entry b t m a).
Proof.
  unfold ket_entry, dket_entry.
  apply (Cderiv_csum
           (fun z s => Cmult (Cexp (Cmult (RtoC s) (coefficient b z)))
                             (block_entry b m z a))).
  intros z _. apply Cderiv_mult_const. apply Cderiv_exp.
Qed.

Lemma du_dt_entry_sum (b : Eigensystem) (t : R) (a c : Z) :
  du_dt_entry b t a c
  = csum (fun m =>
            Cmult
              (Cplus
                 (Cmult (Cmult (factor_phase b t m) (energy_factor b m))
                        (ket_entry b t m a))
                 (Cmult (energy_phase b t m) (dket_entry b t m a)))
              (bra_entry b m c))
         (len (quasienergies b)).
Proof.
  unfold du_dt_entry, csum. generalize C0.
  induction (range 0 (len (quasienergies b))) as [|m l IH]; intros acc;
    [reflexivity|].
  cbn [map fold_left]. rewrite <- IH. f_equal.
  rewrite energy_phase_factor_phase.
  destruct acc as [x1 x2], (factor_phase b t m) as [p1 p2],
    (energy_factor b m) as [f1 f2], (ket_entry b t m a) as [k1 k2],
    (dket_entry b t m a) as [d1 d2], (bra_entry b m c) as [b1 b2].
  unfold Cplus, Cmult. cbn [fst snd]. f_equal; ring.
Qed.

Lemma Cderiv_u_entry (b : Eigensystem) (t : R) (a c : Z) :
  Cderiv (fun s => u_entry b s a c) t (du_dt_entry b t a c).
Proof.
  rewrite du_dt_entry_sum. unfold u_entry.
  apply (Cderiv_csum
           (fun m s => Cmult (Cmult (energy_phase b s m)
                                    (ket_entry b s m a))
                             (bra_entry b m c))).
  intros m _. apply Cderiv_mult_const. apply Cderiv_mult.
  - apply (Cderiv_ext (fun s => factor_phase b s m)).
    + intros s. symmetry. apply energy_phase_factor_phase.
    + apply Cderiv_exp.
  - apply Cderiv_ket_entry.
Qed.

Lemma three_zone_bundle_well_formed : well_formed three_zone_bundle 2 3.
Proof.
  unfold well_formed, has_shape3, square, three_zone_bundle.
  cbn [quasienergies k_eigenvectors initial_floquet_bras
       abstract_ket_coefficients map].
  repeat split; repeat constructor.
Qed.

(** X9.  For a bundle of [dim] states in [nz] zones, [u] returns a matrix
    of [dim] rows and columns, and its entry [(a, c)] is the sum over the
    modes [m] of [exp(-i t energy[m]) ket_m(t)[a] bra_m[c]], the ket being
    the sum over the zones [z] of [exp(t coefficient[z])] times block [z]
    of eigenvector [m]. *)
Theorem u_sums_over_modes (b : Eigensystem) (dim nz : Z) (t : R) :
  1 <= dim -> 1 <= nz -> well_formed b dim nz ->
  exists m,
    u b t = Ret m /\ square dim m /\
    forall a c, 0 <= a < dim -> 0 <= c < dim ->
      entry m a c
      = csum (fun mode =>
                Cmult (Cmult (energy_phase b t mode)
                             (csum (fun z =>
                                      Cmult (Cexp (Cmult (RtoC t)
                                                     (coefficient b z)))
                                            (block_entry b mode z a))
                                   nz))
                      (bra_entry b mode c))
             dim.
Proof.
  intros Hdim Hnz Hb. exists (tab dim dim (u_entry b t)).
  split; [apply (u_tab b dim nz); assumption|].
  split; [apply square_tab; lia|].
  intros a c Ha Hc. rewrite entry_tab by assumption.
  destruct Hb as [Hvals [Hkv _]]. unfold u_entry, ket_entry.
  rewrite Hvals, (has_shape3_shape1 _ _ _ _ _ Hkv Hdim). reflexivity.
Qed.

Lemma u_sums_over_modes_witness :
  well_formed three_zone_bundle 2 3 /\
  exists m, u three_zone_bundle 1 = Ret m /\ square 2 m.
Proof.
  split; [exact three_zone_bundle_well_formed|].
  destruct (u_sums_over_modes three_zone_bundle 2 3 1 ltac:(lia) ltac:(lia)
              three_zone_bundle_well_formed) as [m [Hm [Hsq _]]].
  exists m. split; [exact Hm|exact Hsq].
Defined.

(** X10.  A bundle that [eigensystem] returns for an odd number of zones
    can be evaluated at every time: [current_floquet_kets],
    [d_current_floquet_kets], [u] and [du_dt] all return, each a matrix of
    as many rows and columns as the Hamiltonian has dimensions. *)
Theorem odd_zones_can_be_evaluated (L : Library)
    (hamiltonian : list (list (list C)))
    (dhamiltonian : option (list (list (list (list C))))) (n_zones : Z)
    (freq : Q) (decimals : Z) (sparse : bool) (bundle : Eigensystem)
    (time : R) :
  Z.odd n_zones = true ->
  eigensystem L hamiltonian dhamiltonian n_zones freq decimals sparse
  = Ret bundle ->
  exists kets dkets m dm,
    current_floquet_kets bundle time = Ret kets /\
    d_current_floquet_kets bundle time = Ret dkets /\
    u bundle time = Ret m /\
    du_dt bundle time = Ret dm /\
    square (shape1 hamiltonian) kets /\
    square (shape1 hamiltonian) dkets /\
    square (shape1 hamiltonian) m /\
    square (shape1 hamiltonian) dm.
Proof.
  intros Hodd Hret.
  destruct (eigensystem_well_formed _ _ _ _ _ _ _ _ Hodd Hret)
    as [Hdim [Hnz Hb]].
  set (dim := shape1 hamiltonian) in *.
  exists (tab dim dim (ket_entry bundle time)),
         (tab dim dim (dket_entry bundle time)),
         (tab dim dim (u_entry bundle time)),
         (tab dim dim (du_dt_entry bundle time)).
  split; [apply (current_floquet_kets_tab _ dim n_zones); assumption|].
  split; [apply (d_current_floquet_kets_tab _ dim n_zones); assumption|].
  split; [apply (u_tab _ dim n_zones); assumption|].
  split; [apply (du_dt_tab _ dim n_zones); assumption|].
  repeat split; try (apply len_tab; lia); apply square_tab; lia.
Qed.

Lemma odd_zones_can_be_evaluated_witness :
  let L := {| np_linalg_eig := fun _ =>
                Ret ([(-1, 0); (0, 0); (1, 0)]%Q,
                     [[C1; C0; C0]; [C0; C1; C0]; [C0; C0; C1]]);
              sparse_eigs := fun _ _ => Exc SolverError;
              gram_schmidt := fun m => m |} in
  exists bundle,
    eigensystem L [[[C0]]] None 3 1 8 false = Ret bundle /\
    exists m dm, u bundle 1 = Ret m /\ du_dt bundle 1 = Ret dm.
Proof.
  intros L. eexists.
  assert (Hbuilt : eigensystem L [[[C0]]] None 3 1 8 false = Ret ?[b])
    by (lazy; reflexivity).
  split; [exact Hbuilt|].
  destruct (odd_zones_can_be_evaluated L [[[C0]]] None 3 1 8 false _ 1%R
              eq_refl Hbuilt)
    as [kets [dkets [m [dm [_ [_ [Hm [Hdm _]]]]]]]].
  exists m, dm. split; [exact Hm|exact Hdm].
Defined.

(** X11.  [du_dt] is the derivative of [u] with respect to time: for a
    bundle of [dim] states in [nz] zones, [u] returns at every time,
    [du_dt] returns at [t], and each entry of [u], as a function of time in
    exact arithmetic, has at [t] the derivative that [du_dt] holds at that
    entry. *)
Theorem du_dt_is_time_derivative (b : Eigensystem) (dim nz : Z) (t : R) :
  1 <= dim -> 1 <= nz -> well_formed b dim nz ->
  (forall s, exists m, u b s = Ret m) /\
  (exists dm, du_dt b t = Ret dm) /\
  forall a c, 0 <= a < dim -> 0 <= c < dim ->
    Cderiv (fun s => entry (returned (u b s)) a c) t
           (entry (returned (du_dt b t)) a c).
Proof.
  intros Hdim Hnz Hb.
  split; [intros s; eexists; apply (u_tab b dim nz); assumption|].
  split; [eexists; apply (du_dt_tab b dim nz); assumption|].
  intros a c Ha Hc.
  rewrite (du_dt_tab b dim nz) by assumption. cbn [returned].
  rewrite entry_tab by assumption.
  apply (Cderiv_ext (fun s => u_entry b s a c)).
  - intros s. rewrite (u_tab b dim nz) by assumption. cbn [returned].
    rewrite entry_tab by assumption. reflexivity.
  - apply Cderiv_u_entry.
Qed.

Lemma du_dt_is_time_derivative_witness :
  well_formed three_zone_bundle 2 3 /\
  Cderiv (fun s => entry (returned (u three_zone_bundle s)) 0 1) 1
         (entry (returned (du_dt three_zone_bundle 1)) 0 1).
Proof.
  split; [exact three_zone_bundle_well_formed|].
  apply (proj2 (proj2 (du_dt_is_time_derivative three_zone_bundle 2 3 1
                         ltac:(lia) ltac:(lia)
                         three_zone_bundle_well_formed))); lia.
Defined.

(** X12.  [d_current_floquet_kets] is the derivative of
    [current_floquet_kets] with respect to time: for a bundle of [dim]
    states in [nz] zones both return at every time, and entry [a] of ket
    [m], as a function of time in exact arithmetic, has at [t] the
    derivative that [d_current_floquet_kets] holds there. *)
Theorem d_current_floquet_kets_is_time_derivative (b : Eigensystem)
    (dim nz : Z) (t : R) :
  1 <= dim -> 1 <= nz -> well_formed b dim nz ->
  (forall s, exists kets, current_floquet_kets b s = Ret kets) /\
  (exists dkets, d_current_floquet_kets b t = Ret dkets) /\
  forall m a, 0 <= m < dim -> 0 <= a < dim ->
    Cderiv (fun s => entry (returned (current_floquet_kets b s)) m a) t
           (entry (returned (d_current_floquet_kets b t)) m a).
Proof.
  intros Hdim Hnz Hb.
  split; [intros s; eexists;
          apply (current_floquet_kets_tab b dim nz); assumption|].
  split; [eexists; apply (d_current_floquet_kets_tab b dim nz);
          assumption|].
  intros m a Hm Ha.
  rewrite (d_current_floquet_kets_tab b dim nz) by assumption.
  cbn [returned]. rewrite entry_tab by assumption.
  apply (Cderiv_ext (fun s => ket_entry b s m a)).
  - intros s. rewrite (current_floquet_kets_tab b dim nz) by assumption.
    cbn [returned]. rewrite entry_tab by assumption. reflexivity.
  - apply Cderiv_ket_entry.
Qed.

Lemma d_current_floquet_kets_is_time_derivative_witness :
  well_formed three_zone_bundle 2 3 /\
  Cderiv
    (fun s => entry (returned (current_floquet_kets three_zone_bundle s))
                    1 0)
    1 (entry (returned (d_current_floquet_kets three_zone_bundle 1)) 1 0).
Proof.
  split; [exact three_zone_bundle_well_formed|].
  apply (proj2 (proj2 (d_current_floquet_kets_is_time_derivative
                         three_zone_bundle 2 3 1 ltac:(lia) ltac:(lia)
                         three_zone_bundle_well_formed))); lia.
Defined.

(** ** The period of the drive *)

Lemma cos_period_Z (x : R) (m : Z) : cos (x + 2 * IZR m * PI) = cos x.
Proof.
  destruct (Z_le_gt_dec 0 m) as [Hm|Hm].
  - rewrite <- (cos_period x (Z.to_nat m)).
    rewrite INR_IZR_INZ, Z2Nat.id by exact Hm. reflexivity.
  - rewrite <- (cos_period (x + 2 * IZR m * PI) (Z.to_nat (- m))).
    rewrite INR_IZR_INZ, Z2Nat.id by lia. rewrite opp_IZR. f_equal. ring.
Qed.

Lemma sin_period_Z (x : R) (m : Z) : sin (x + 2 * IZR m * PI) = sin x.
Proof.
  destruct (Z_le_gt_dec 0 m) as [Hm|Hm].
  - rewrite <- (sin_period x (Z.to_nat m)).
    rewrite INR_IZR_INZ, Z2Nat.id by exact Hm. reflexivity.
  - rewrite <- (sin_period (x + 2 * IZR m * PI) (Z.to_nat (- m))).
    rewrite INR_IZR_INZ, Z2Nat.id by lia. rewrite opp_IZR. f_equal. ring.
Qed.

(** The weight of the Fourier mode [m] comes back after one period. *)
Lemma weight_period (freq : Q) (m : Z) (t : R) :
  ~ (freq == 0)%Q ->
  Cexp (Cmult (RtoC (t + 2 * PI / Q2R freq))
              (Cmult (Cmult Ci (QtoC freq)) (ZtoC m)))
  = Cexp (Cmult (RtoC t) (Cmult (Cmult Ci (QtoC freq)) (ZtoC m))).
Proof.
  intros Hfreq.
  assert (Hf : Q2R freq <> 0%R).
  { intros Hc. apply Hfreq. apply Qreals.eqR_Qeq. rewrite Hc.
    symmetry. exact RMicromega.Q2R_0. }
  assert (Harg : forall s,
            Cmult (RtoC s) (Cmult (Cmult Ci (QtoC freq)) (ZtoC m))
            = (0, s * Q2R freq * IZR m)%R).
  { intros s. unfold Cmult, Ci, QtoC, ZtoC, RtoC. cbn [fst snd].
    f_equal; ring. }
  rewrite !Harg. unfold Cexp. cbn [fst snd].
  replace ((t + 2 * PI / Q2R freq) * Q2R freq * IZR m)%R
    with (t * Q2R freq * IZR m + 2 * IZR m * PI)%R by (field; exact Hf).
  rewrite cos_period_Z, sin_period_Z. reflexivity.
Qed.

(** X13.  The Floquet kets have the period of the drive: for a bundle that
    [eigensystem] returns for a frequency other than zero,
    [current_floquet_kets] and [d_current_floquet_kets] give at
    [t + 2 pi / frequency] what they give at [t], in exact arithmetic. *)
Theorem floquet_kets_are_periodic (L : Library)
    (hamiltonian : list (list (list C)))
    (dhamiltonian : option (list (list (list (list C))))) (n_zones : Z)
    (freq : Q) (decimals : Z) (sparse : bool) (bundle : Eigensystem)
    (t : R) :
  ~ (freq == 0)%Q ->
  eigensystem L hamiltonian dhamiltonian n_zones freq decimals sparse
  = Ret bundle ->
  current_floquet_kets bundle (t + 2 * PI / Q2R freq)
  = current_floquet_kets bundle t /\
  d_current_floquet_kets bundle (t + 2 * PI / Q2R freq)
  = d_current_floquet_kets bundle t.
Proof.
  intros Hfreq Hret. apply eigensystem_ret in Hret.
  destruct Hret as [k [_ [_ [_ [_ [Hcoeff _]]]]]].
  assert (Hweights :
            map (fun c => Cexp (Cmult (RtoC (t + 2 * PI / Q2R freq)) c))
                (abstract_ket_coefficients bundle)
            = map (fun c => Cexp (Cmult (RtoC t) c))
                  (abstract_ket_coefficients bundle)).
  { rewrite Hcoeff, !map_map. apply map_ext. intros m.
    apply weight_period. exact Hfreq. }
  unfold current_floquet_kets, d_current_floquet_kets.
  rewrite Hweights. split; reflexivity.
Qed.

Lemma floquet_kets_are_periodic_witness :
  let L := {| np_linalg_eig := fun _ =>
                Ret ([(-1, 0); (0, 0); (1, 0)]%Q,
                     [[C1; C0; C0]; [C0; C1; C0]; [C0; C0; C1]]);
              sparse_eigs := fun _ _ => Exc SolverError;
              gram_schmidt := fun m => m |} in
  exists bundle,
    eigensystem L [[[C0]]] None 3 1 8 false = Ret bundle /\
    current_floquet_kets bundle (0 + 2 * PI / Q2R 1)
    = current_floquet_kets bundle 0.
Proof.
  intros L. eexists.
  assert (Hbuilt : eigensystem L [[[C0]]] None 3 1 8 false = Ret ?[b])
    by (lazy; reflexivity).
  split; [exact Hbuilt|].
  refine (proj1 (floquet_kets_are_periodic L [[[C0]]] None 3 1 8 false _
                   0%R _ Hbuilt)).
  discriminate.
Defined.

(** ** The evolution operator at time zero *)

Lemma energy_phase_at_zero (b : Eigensystem) (m : Z) :
  energy_phase b 0 m = C1.
Proof.
  unfold energy_phase.
  replace (Cmult (Copp Ci) (RtoC 0)) with (RtoC 0).
  - apply Cexp_0_times.
  - unfold Cmult, Copp, Ci, RtoC. cbn [fst snd]. f_equal; ring.
Qed.

Lemma ket_entry_at_zero (b : Eigensystem) (m a : Z) :
  ket_entry b 0 m a
  = csum (fun z => block_entry b m z a) (shape1 (k_eigenvectors b)).
Proof.
  unfold ket_entry, csum. f_equal. apply map_ext. intros z.
  rewrite Cexp_0_times. apply Cmult_1_l.
Qed.

Lemma sum_axis1_tab (dim nz : Z) (kv : list (list (list C))) :
  1 <= dim -> 1 <= nz -> has_shape3 dim nz dim kv ->
  sum_axis1 kv
  = tab dim dim (fun m a =>
      csum (fun z =>
              nth (Z.to_nat a)
                  (nth (Z.to_nat z) (nth (Z.to_nat m) kv []) []) C0)
           nz).
Proof.
  intros Hdim Hnz Hkv. unfold sum_axis1.
  rewrite (has_shape3_shape2 _ _ _ _ _ Hkv Hdim Hnz).
  destruct Hkv as [Hlen Hall].
  rewrite (vector_as_map _ [] dim kv Hlen) at 1.
  unfold tab. rewrite map_map. apply map_ext_range. intros m Hm.
  assert (Hv : len (nth (Z.to_nat m) kv []) = nz /\
               Forall (fun blk => len blk = dim) (nth (Z.to_nat m) kv [])).
  { rewrite Forall_forall in Hall. apply Hall. apply nth_In.
    unfold len in Hlen. lia. }
  destruct Hv as [Hv Hblocks]. set (v := nth (Z.to_nat m) kv []) in *.
  rewrite repeat_as_map, fold_vadd_map by exact Hblocks.
  apply map_ext_range. intros a Ha. unfold csum. f_equal.
  rewrite (vector_as_map _ [] nz v Hv) at 1. apply map_map.
Qed.

Lemma conj2_tab (n m : Z) (f : Z -> Z -> C) :
  conj2 (tab n m f) = tab n m (fun a c => Cconj (f a c)).
Proof.
  unfold conj2, conj1, tab. rewrite map_map. apply map_ext. intros r.
  apply map_map.
Qed.

(** X14.  At time zero the evolution operator is the Gram matrix of the
    initial bras: for a bundle that [eigensystem] returns for an odd number
    of zones, [u] at time 0 returns the matrix whose entry [(a, c)] is the
    sum over the modes of [conj(bra_m[a]) bra_m[c]].  It is the identity
    exactly when the initial bras are orthonormal, which is for the
    eigensolver to provide. *)
Theorem u_at_zero_is_gram (L : Library)
    (hamiltonian : list (list (list C)))
    (dhamiltonian : option (list (list (list (list C))))) (n_zones : Z)
    (freq : Q) (decimals : Z) (sparse : bool) (bundle : Eigensystem) :
  Z.odd n_zones = true ->
  eigensystem L hamiltonian dhamiltonian n_zones freq decimals sparse
  = Ret bundle ->
  exists m,
    u bundle 0 = Ret m /\
    square (shape1 hamiltonian) m /\
    forall a c,
      0 <= a < shape1 hamiltonian -> 0 <= c < shape1 hamiltonian ->
      entry m a c
      = csum (fun mode => Cmult (Cconj (bra_entry bundle mode a))
                                (bra_entry bundle mode c))
             (shape1 hamiltonian).
Proof.
  intros Hodd Hret.
  destruct (eigensystem_well_formed _ _ _ _ _ _ _ _ Hodd Hret)
    as [Hdim [Hnz Hb]].
  apply eigensystem_ret in Hret.
  destruct Hret as [k [_ [_ [_ [Hbras _]]]]].
  set (dim := shape1 hamiltonian) in *.
  exists (tab dim dim (u_entry bundle 0)).
  split; [apply (u_tab bundle dim n_zones); assumption|].
  split; [apply square_tab; lia|].
  intros a c Ha Hc. rewrite entry_tab by assumption.
  pose proof Hb as [Hvals [Hkv _]].
  unfold u_entry, csum. rewrite Hvals. f_equal.
  apply map_ext_range. intros mode Hmode. f_equal.
  rewrite energy_phase_at_zero, Cmult_1_l, ket_entry_at_zero.
  rewrite (has_shape3_shape1 _ _ _ _ _ Hkv Hdim).
  unfold bra_entry. rewrite Hbras.
  rewrite (sum_axis1_tab dim n_zones) by assumption.
  rewrite conj2_tab, entry_tab by assumption.
  rewrite Cconj_involutive. reflexivity.
Qed.

Lemma u_at_zero_is_gram_witness :
  let L := {| np_linalg_eig := fun _ =>
                Ret ([(-1, 0); (0, 0); (1, 0)]%Q,
                     [[C1; C0; C0]; [C0; C1; C0]; [C0; C0; C1]]);
              sparse_eigs := fun _ _ => Exc SolverError;
              gram_schmidt := fun m => m |} in
  exists bundle,
    eigensystem L [[[C0]]] None 3 1 8 false = Ret bundle /\
    exists m, u bundle 0 = Ret m /\ square 1 m.
Proof.
  intros L. eexists.
  assert (Hbuilt : eigensystem L [[[C0]]] None 3 1 8 false = Ret ?[b])
    by (lazy; reflexivity).
  split; [exact Hbuilt|].
  destruct (u_at_zero_is_gram L [[[C0]]] None 3 1 8 false _ eq_refl Hbuilt)
    as [m [Hm [Hsq _]]].
  exists m. split; [exact Hm|exact Hsq].
Defined.

(** ** The derivative matrices *)

(** With the frequency zero nothing is added on the diagonal blocks. *)
Lemma madd_zero_frequency_tab (dim : Z) (f : Z -> Z -> C) (x : C) :
  madd (tab dim dim f) (mscale (mscale (eye dim) zero) x) = tab dim dim f.
Proof.
  unfold madd, mscale, eye, tab. rewrite !map_map.
  rewrite zip_with_map_map. apply map_ext. intros r.
  rewrite !map_map, zip_with_map_map. apply map_ext. intros c.
  cbn [add mul zero one C_scalar].
  destruct (f r c) as [a1 a2]. destruct x as [x1 x2].
  destruct (r =? c); unfold Cplus, Cmult, C1, C0, RtoC; cbn [fst snd];
    f_equal; ring.
Qed.

Lemma madd_zero_frequency (dim : Z) (a : list (list C)) (x : C) :
  square dim a -> madd a (mscale (mscale (eye dim) zero) x) = a.
Proof.
  intros [Hlen Hall].
  rewrite <- (block_as_tab C C0 dim a Hlen Hall).
  apply madd_zero_frequency_tab.
Qed.

(** X15.  For a derivative tensor whose components are square matrices and
    a number of zones that is not negative, [assemble_dk] returns one
    matrix per parameter, and the matrix for parameter [p] has at block
    [(row, col)] the component of [dhf[p]] for harmonic [row - col] when
    the tensor has one, the diagonal blocks included with nothing added to
    them, and the zero block otherwise. *)
Theorem assemble_dk_places_components (dhf : list (list (list (list C))))
    (nz : Z) :
  0 <= nz -> Forall square_components dhf ->
  exists dk,
    assemble_dk dhf nz = Ret dk /\
    len dk = len dhf /\
    forall p hf k,
      nth_error dhf p = Some hf -> nth_error dk p = Some k ->
      square (shape1 hf * nz) k /\
      forall row col, 0 <= row < nz -> 0 <= col < nz ->
        get_block k (shape1 hf) row col
        = if Z.abs (row - col) <=? (shape0 hf - 1) / 2
          then component hf (row - col)
          else zero_block (shape1 hf).
Proof.
  intros Hnz Hall. unfold assemble_dk.
  induction dhf as [|hf dhf IH].
  - exists []. split; [reflexivity|]. split; [reflexivity|].
    intros [|p] ? ? H; discriminate.
  - apply Forall_cons_iff in Hall. destruct Hall as [Hhf Hrest].
    destruct (IH Hrest) as [dk [Hdk [Hlen Hblocks]]].
    destruct (assemble_k_blocks hf nz zero Hhf Hnz) as [k [Hk [Hsq Hk']]].
    exists (k :: dk). cbn [mapM]. rewrite Hk. cbn [bind].
    rewrite Hdk. cbn [bind]. split; [reflexivity|].
    split; [rewrite !len_cons; lia|].
    intros [|p] hf' k' Hhf' Hk''; cbn [nth_error] in Hhf', Hk''.
    + inversion Hhf'; subst hf'. inversion Hk''; subst k'.
      split; [exact Hsq|]. intros row col Hrow Hcol.
      rewrite Hk' by assumption. unfold expected_block.
      destruct (Z.leb_spec (Z.abs (row - col)) ((shape0 hf - 1) / 2))
        as [Hband|]; [|reflexivity].
      destruct (Z.eqb_spec row col) as [->|]; [|reflexivity].
      rewrite Z.sub_diag in *.
      apply madd_zero_frequency.
      apply component_square; [exact Hhf|]. cbn [Z.abs] in Hband. lia.
    + apply (Hblocks p); assumption.
Qed.

Lemma assemble_dk_places_components_witness :
  let dhf := [[[[C0; C1]; [C1; C0]]]; [[[C1; C0]; [C0; Ci]]]] in
  exists dk,
    assemble_dk dhf 3 = Ret dk /\ len dk = len dhf.
Proof.
  intros dhf.
  destruct (assemble_dk_places_components dhf 3) as [dk [Hdk [Hlen _]]].
  - lia.
  - unfold dhf, square_components. repeat constructor.
  - exists dk. split; [exact Hdk|exact Hlen].
Defined.

(** ** The zone selection and the policy *)

Lemma filter_index_range (A : Type) (p : A -> bool) (l : list A) :
  forall lo hi,
    0 <= lo <= hi -> hi <= len l ->
    (forall i x, nth_error l i = Some x ->
                 p x = (lo <=? Z.of_nat i) && (Z.of_nat i <? hi)) ->
    filter p l = slice l (Some lo) (Some hi).
Proof.
  induction l as [|x l IH]; intros lo hi Hlo Hhi Hp.
  - rewrite len_nil in Hhi. rewrite slice_inside by (rewrite len_nil; lia).
    rewrite skipn_nil, firstn_nil. reflexivity.
  - rewrite len_cons in Hhi. pose proof (len_nonneg _ l) as Hl.
    rewrite slice_inside by (rewrite len_cons; lia).
    cbn [filter]. rewrite (Hp 0%nat x eq_refl). change (Z.of_nat 0) with 0.
    assert (Hshift : forall lo' hi',
              lo' = Z.max 0 (lo - 1) -> hi' = Z.max 0 (hi - 1) ->
              forall i y, nth_error l i = Some y ->
                p y = (lo' <=? Z.of_nat i) && (Z.of_nat i <? hi')).
    { intros lo' hi' -> -> i y Hy. rewrite (Hp (S i) y Hy).
      destruct (Z.leb_spec lo (Z.of_nat (S i)));
        destruct (Z.leb_spec (Z.max 0 (lo - 1)) (Z.of_nat i)); try lia;
        destruct (Z.ltb_spec (Z.of_nat (S i)) hi);
        destruct (Z.ltb_spec (Z.of_nat i) (Z.max 0 (hi - 1))); try lia;
        reflexivity. }
    destruct (Z.leb_spec lo 0) as [Hlo0|Hlo0];
      destruct (Z.ltb_spec 0 hi) as [Hhi0|Hhi0]; cbn [andb Z.of_nat].
    + replace lo with 0 in * by lia. rewrite Z.sub_0_r.
      replace (Z.to_nat hi) with (S (Z.to_nat (hi - 1))) by lia.
      cbn [Z.to_nat skipn firstn]. f_equal.
      rewrite (IH 0 (hi - 1)); [|lia|lia|apply Hshift; lia].
      rewrite slice_inside by lia. rewrite Z.sub_0_r. reflexivity.
    + replace lo with 0 in * by lia. replace hi with 0 in * by lia.
      cbn [Z.sub Z.to_nat firstn].
      rewrite (IH 0 0); [|lia|lia|apply Hshift; lia].
      rewrite slice_inside by lia. reflexivity.
    + replace (Z.to_nat lo) with (S (Z.to_nat (lo - 1))) by lia.
      cbn [skipn].
      rewrite (IH (lo - 1) (hi - 1)); [|lia|lia|apply Hshift; lia].
      rewrite slice_inside by lia. do 2 f_equal. lia.
    + lia.
Qed.

Lemma combine_skipn (A B : Type) (n : nat) :
  forall (l : list A) (l' : list B),
    skipn n (combine l l') = combine (skipn n l) (skipn n l').
Proof.
  induction n as [|n IH]; intros [|x l] [|y l']; try reflexivity.
  - cbn [skipn combine]. destruct (skipn n l); reflexivity.
  - cbn [skipn combine]. apply IH.
Qed.

Lemma split_slice_combine (A B : Type) (a : list A) (b : list B) (lo hi : Z) :
  length a = length b -> 0 <= lo <= len a -> 0 <= hi <= len a ->
  List.split (slice (combine a b) (Some lo) (Some hi))
  = (slice a (Some lo) (Some hi), slice b (Some lo) (Some hi)).
Proof.
  intros Hlen Hlo Hhi.
  rewrite !slice_inside;
    try (unfold len in *; rewrite ?length_combine; lia).
  rewrite combine_skipn, combine_firstn. apply combine_split.
  rewrite !length_firstn, !length_skipn. lia.
Qed.

Lemma firstn_plus (A : Type) (n m : nat) :
  forall l : list A,
    firstn (n + m) l = firstn n l ++ firstn m (skipn n l).
Proof.
  induction n as [|n IH]; intros [|x l]; cbn [Nat.add firstn skipn app];
    try reflexivity.
  - rewrite firstn_nil. reflexivity.
  - rewrite IH. reflexivity.
Qed.

Lemma slice_app_inside (A : Type) (l : list A) (lo mid hi : Z) :
  0 <= lo <= mid -> mid <= hi -> hi <= len l ->
  slice l (Some lo) (Some mid) ++ slice l (Some mid) (Some hi)
  = slice l (Some lo) (Some hi).
Proof.
  intros Hlo Hmid Hhi. rewrite !slice_inside by lia.
  replace (Z.to_nat (hi - lo))
    with (Z.to_nat (mid - lo) + Z.to_nat (hi - mid))%nat by lia.
  rewrite firstn_plus. f_equal. rewrite skipn_skipn. do 2 f_equal. lia.
Qed.

Lemma nth_error_combine_fst (A B : Type) (a : list A) (b : list B) (i : nat)
    (x : A) (y : B) :
  nth_error (combine a b) i = Some (x, y) -> nth_error a i = Some x.
Proof.
  revert b i. induction a as [|x0 a IH]; intros [|y0 b] [|i] H;
    cbn [combine nth_error] in *; try discriminate.
  - inversion H. reflexivity.
  - exact (IH b i H).
Qed.

Lemma edge_loop_raises (ev : list Q) (edge : Q) (start : Z) (e : exn) :
  forall fuel n,
    (snd (lower_edge_loop fuel ev edge start n) = Exc e -> e = IndexError) /\
    (snd (upper_edge_loop fuel ev edge start n) = Exc e -> e = IndexError).
Proof.
  assert (Hget : forall i x, getitem ev i = Exc x -> x = IndexError).
  { intros i x. unfold getitem. destruct (_ || _); [congruence|].
    destruct (nth_error ev _); congruence. }
  induction fuel as [|fuel IH]; intros n; cbn [lower_edge_loop upper_edge_loop];
    [split; discriminate|].
  split.
  - destruct (getitem ev (start + n)) as [x| |] eqn:Hx.
    + destruct (Qeq_bool x (- edge)).
      * destruct (lower_edge_loop fuel ev edge start (n + 1)) as [reads r]
          eqn:Hl. cbn [snd]. intros ->.
        apply (proj1 (IH (n + 1))). rewrite Hl. reflexivity.
      * discriminate.
    + cbn [snd]. intros H. inversion H; subst. exact (Hget _ _ Hx).
    + discriminate.
  - destruct (getitem ev (start - n - 1)) as [x| |] eqn:Hx.
    + destruct (Qeq_bool x edge).
      * destruct (upper_edge_loop fuel ev edge start (n + 1)) as [reads r]
          eqn:Hl. cbn [snd]. intros ->.
        apply (proj2 (IH (n + 1))). rewrite Hl. reflexivity.
      * discriminate.
    + cbn [snd]. intros H. inversion H; subst. exact (Hget _ _ Hx).
    + discriminate.
Qed.

Lemma Qle_bool_true (x y : Q) : (x <= y)%Q -> Qle_bool x y = true.
Proof. apply Qle_bool_iff. Qed.

Lemma Qle_bool_false (x y : Q) : (y < x)%Q -> Qle_bool x y = false.
Proof.
  intros Hlt. destruct (Qle_bool x y) eqn:E; [|reflexivity].
  apply Qle_bool_iff in E. exfalso. exact (Qlt_not_le _ _ Hlt E).
Qed.

Lemma Qeq_bool_true (x y : Q) : (x == y)%Q -> Qeq_bool x y = true.
Proof. apply Qeq_bool_iff. Qed.

Lemma Qeq_bool_false (x y : Q) : ~ (x == y)%Q -> Qeq_bool x y = false.
Proof.
  intros Hne. destruct (Qeq_bool x y) eqn:E; [|reflexivity].
  apply Qeq_bool_iff in E. contradiction.
Qed.

(** Where the values of an ascending array lie, given the counts that the
    two loops of [first_brillouin_zone] return: below [-edge] before
    [lower], on it up to [lower + nl], then strictly inside the zone up to
    [upper - nu], on [edge] up to [upper], and above it from there. *)
Lemma edge_counts_sorted (evs : list Q) (edge : Q) (nl nu : Z) :
  Sorted Qle evs -> (0 < edge)%Q ->
  snd (lower_edge_loop (edge_fuel evs) evs edge
         (Np.searchsorted_left evs (- edge)) 0) = Ret nl ->
  snd (upper_edge_loop (edge_fuel evs) evs edge
         (Np.searchsorted_right evs edge) 0) = Ret nu ->
  let lower := Np.searchsorted_left evs (- edge) in
  let upper := Np.searchsorted_right evs edge in
  0 <= lower /\ 0 <= nl /\ lower + nl <= upper - nu /\ 0 <= nu /\
  upper <= len evs /\
  forall k, 0 <= k < len evs ->
    (k < lower -> (value evs k < - edge)%Q) /\
    (lower <= k < lower + nl -> (value evs k == - edge)%Q) /\
    (lower + nl <= k -> (- edge < value evs k)%Q) /\
    (k < upper - nu -> (value evs k < edge)%Q) /\
    (upper - nu <= k < upper -> (value evs k == edge)%Q) /\
    (upper <= k -> (edge < value evs k)%Q).
Proof.
  intros Hsorted Hedge Hnl Hnu lower upper.
  pose proof (searchsorted_left_bounds evs (- edge)) as Hlo.
  pose proof (searchsorted_right_bounds evs edge) as Hup.
  fold lower in Hlo. fold upper in Hup.
  pose proof (upper_edge_count_le _ _ _ _ Hsorted Hnu) as Hcount.
  fold upper in Hcount. fold lower in Hnl. fold upper in Hnu.
  apply lower_edge_loop_run in Hnl.
  destruct Hnl as [Hnl0 [Hlrun [vl [Hvl Hvlne]]]].
  apply upper_edge_loop_ret in Hnu.
  destruct Hnu as [Hnu0 [Hurun [vu [Hvu Hvune]]]].
  pose proof (getitem_inv _ _ _ _ Hvl) as [Hvl1 _].
  rewrite getitem_value in Hvl by lia. inversion Hvl; subst vl; clear Hvl.
  assert (F1 : forall k, 0 <= k < lower -> (value evs k < - edge)%Q).
  { intros k Hk. apply searchsorted_left_below. fold lower. exact Hk. }
  assert (F2 : forall k, lower <= k < lower + nl ->
            (value evs k == - edge)%Q).
  { intros k Hk. destruct (Hlrun (k - lower)) as [w [Hw Hwe]]; [lia|].
    replace (lower + (k - lower)) with k in Hw by lia.
    rewrite getitem_value in Hw by lia. inversion Hw; subst w. exact Hwe. }
  assert (F3 : forall k, lower + nl <= k < len evs ->
            (- edge < value evs k)%Q).
  { intros k Hk.
    assert (Hge : (- edge <= value evs k)%Q)
      by (apply searchsorted_left_above; [exact Hsorted|fold lower; lia]).
    apply Qle_lt_or_eq in Hge. destruct Hge as [Hlt|Heq]; [exact Hlt|].
    exfalso. apply Hvlne. apply Qle_antisym.
    - rewrite Heq. apply sorted_value_le; [exact Hsorted|lia|lia].
    - apply searchsorted_left_above; [exact Hsorted|]. fold lower. lia. }
  assert (G1 : forall k, upper <= k < len evs -> (edge < value evs k)%Q).
  { intros k Hk. apply searchsorted_right_above; [exact Hsorted|].
    fold upper. exact Hk. }
  assert (G2 : forall k, 0 <= k -> upper - nu <= k < upper ->
            (value evs k == edge)%Q).
  { intros k Hk0 Hk. destruct (Hurun (upper - 1 - k)) as [w [Hw Hwe]]; [lia|].
    replace (upper - (upper - 1 - k) - 1) with k in Hw by lia.
    rewrite getitem_value in Hw by lia. inversion Hw; subst w. exact Hwe. }
  assert (G3 : forall k, 0 <= k < upper - nu -> (value evs k < edge)%Q).
  { intros k Hk.
    assert (Hle : (value evs k <= edge)%Q)
      by (apply searchsorted_right_below; fold upper; lia).
    apply Qle_lt_or_eq in Hle. destruct Hle as [Hlt|Heq]; [exact Hlt|].
    exfalso. rewrite getitem_value in Hvu by lia. inversion Hvu; subst vu.
    apply Hvune. apply Qle_antisym.
    - apply searchsorted_right_below. fold upper. lia.
    - rewrite <- Heq. apply sorted_value_le; [exact Hsorted|lia|lia]. }
  assert (Horder : lower + nl <= upper - nu).
  { destruct (Z_le_gt_dec (lower + nl) (upper - nu)) as [|Hc];
      [assumption|exfalso].
    set (k := upper - nu) in *.
    assert (Hhigh : (edge <= value evs k)%Q).
    { destruct (Z_lt_le_dec k upper).
      - rewrite (G2 k) by lia. apply Qle_refl.
      - apply Qlt_le_weak. apply G1. lia. }
    assert (Hlow : (value evs k <= - edge)%Q).
    { destruct (Z_lt_le_dec k lower).
      - apply Qlt_le_weak. apply F1. lia.
      - rewrite (F2 k) by lia. apply Qle_refl. }
    assert (Hneg : (- edge < edge)%Q).
    { apply Qlt_trans with (y := 0%Q); [|exact Hedge].
      apply (Qopp_lt_compat 0 edge) in Hedge. exact Hedge. }
    apply (Qlt_irrefl edge).
    apply Qle_lt_trans with (y := (- edge)%Q); [|exact Hneg].
    apply Qle_trans with (y := value evs k); assumption. }
  split; [lia|]. split; [lia|]. split; [exact Horder|]. split; [lia|].
  split; [lia|]. intros k Hk.
  split; [intros; apply F1; lia|]. split; [intros; apply F2; lia|].
  split; [intros; apply F3; lia|]. split; [intros; apply G3; lia|].
  split; [intros; apply G2; lia|]. intros; apply G1; lia.
Qed.

(** On ascending pairs, with the counts that the two loops return, the
    policy picks the slices that [first_brillouin_zone] returns. *)
Lemma zone_policy_sorted (V : Type) (evs : list Q) (svecs : list V)
    (n_values : Z) (edge : Q) (nl nu : Z) :
  Sorted Qle evs -> length evs = length svecs -> (0 < edge)%Q ->
  snd (lower_edge_loop (edge_fuel evs) evs edge
         (Np.searchsorted_left evs (- edge)) 0) = Ret nl ->
  snd (upper_edge_loop (edge_fuel evs) evs edge
         (Np.searchsorted_right evs edge) 0) = Ret nu ->
  zone_policy evs svecs n_values edge
  = (let lower := Np.searchsorted_left evs (- edge) in
     let upper := Np.searchsorted_right evs edge in
     let n_not_on_edge := (upper - nu) - (lower + nl) in
     '(lower, upper) <-
       (if n_not_on_edge =? n_values then Ret (lower + nl, upper - nu)
        else if n_not_on_edge + nl =? n_values then Ret (lower, upper - nu)
        else if n_not_on_edge + nu =? n_values then Ret (lower + nl, upper)
        else Exc RuntimeError) ;;
     Ret (slice evs (Some lower) (Some upper),
          slice svecs (Some lower) (Some upper))).
Proof.
  intros Hsorted Hlen Hedge Hnl Hnu.
  destruct (edge_counts_sorted evs edge nl nu Hsorted Hedge Hnl Hnu)
    as [Hlo [Hnl0 [Horder [Hnu0 [Hup Hvals]]]]].
  cbv zeta in *.
  set (lower := Np.searchsorted_left evs (- edge)) in *.
  set (upper := Np.searchsorted_right evs edge) in *.
  set (pairs := combine evs svecs).
  assert (Hpairs : len pairs = len evs).
  { unfold pairs, len. rewrite length_combine. lia. }
  assert (Hentry : forall i x y, nth_error pairs i = Some (x, y) ->
            0 <= Z.of_nat i < len evs /\ x = value evs (Z.of_nat i)).
  { intros i x y Hi. apply nth_error_combine_fst in Hi.
    pose proof (proj1 (nth_error_Some evs i) ltac:(congruence)) as Hlt.
    split; [unfold len; lia|]. unfold value. rewrite Nat2Z.id.
    symmetry. apply nth_error_nth. exact Hi. }
  assert (Hcenter :
            filter (fun p : Q * V =>
                      negb (Qle_bool (fst p) (- edge))
                      && negb (Qle_bool edge (fst p))) pairs
            = slice pairs (Some (lower + nl)) (Some (upper - nu))).
  { apply filter_index_range; [lia|lia|]. intros i [x y] Hi. cbn [fst].
    destruct (Hentry i x y Hi) as [Hrange ->].
    destruct (Hvals _ Hrange) as [H1 [H2 [H3 [H4 [H5 H6]]]]].
    destruct (Z.leb_spec (lower + nl) (Z.of_nat i)) as [Ha|Ha];
      destruct (Z.ltb_spec (Z.of_nat i) (upper - nu)) as [Hb|Hb];
      cbn [andb].
    - rewrite Qle_bool_false, Qle_bool_false by auto. reflexivity.
    - rewrite Qle_bool_false by auto. rewrite Qle_bool_true; [reflexivity|].
      destruct (Z_lt_le_dec (Z.of_nat i) upper).
      + rewrite H5 by lia. apply Qle_refl.
      + apply Qlt_le_weak. auto.
    - rewrite Qle_bool_true; [reflexivity|].
      destruct (Z_lt_le_dec (Z.of_nat i) lower).
      + apply Qlt_le_weak. auto.
      + rewrite H2 by lia. apply Qle_refl.
    - lia. }
  assert (Hlower :
            filter (fun p : Q * V => Qeq_bool (fst p) (- edge)) pairs
            = slice pairs (Some lower) (Some (lower + nl))).
  { apply filter_index_range; [lia|lia|]. intros i [x y] Hi. cbn [fst].
    destruct (Hentry i x y Hi) as [Hrange ->].
    destruct (Hvals _ Hrange) as [H1 [H2 [H3 [H4 [H5 H6]]]]].
    destruct (Z.leb_spec lower (Z.of_nat i)) as [Ha|Ha];
      destruct (Z.ltb_spec (Z.of_nat i) (lower + nl)) as [Hb|Hb];
      cbn [andb].
    - apply Qeq_bool_true. apply H2. lia.
    - apply Qeq_bool_false. intros Hc. specialize (H3 Hb).
      rewrite Hc in H3. exact (Qlt_irrefl _ H3).
    - apply Qeq_bool_false. intros Hc. specialize (H1 Ha).
      rewrite Hc in H1. exact (Qlt_irrefl _ H1).
    - lia. }
  assert (Hupper :
            filter (fun p : Q * V => Qeq_bool (fst p) edge) pairs
            = slice pairs (Some (upper - nu)) (Some upper)).
  { apply filter_index_range; [lia|lia|]. intros i [x y] Hi. cbn [fst].
    destruct (Hentry i x y Hi) as [Hrange ->].
    destruct (Hvals _ Hrange) as [H1 [H2 [H3 [H4 [H5 H6]]]]].
    destruct (Z.leb_spec (upper - nu) (Z.of_nat i)) as [Ha|Ha];
      destruct (Z.ltb_spec (Z.of_nat i) upper) as [Hb|Hb];
      cbn [andb].
    - apply Qeq_bool_true. apply H5. lia.
    - apply Qeq_bool_false. intros Hc. specialize (H6 Hb).
      rewrite Hc in H6. exact (Qlt_irrefl _ H6).
    - apply Qeq_bool_false. intros Hc. specialize (H4 Ha).
      rewrite Hc in H4. exact (Qlt_irrefl _ H4).
    - lia. }
  unfold zone_policy. fold pairs. cbv zeta.
  rewrite Hcenter, Hlower, Hupper.
  rewrite !len_slice_inside by lia.
  replace (Z.max 0 (upper - nu - (lower + nl)))
    with (upper - nu - (lower + nl)) by lia.
  replace (Z.max 0 (lower + nl - lower)) with nl by lia.
  replace (Z.max 0 (upper - (upper - nu))) with nu by lia.
  destruct (_ =? n_values).
  { cbn [bind]. unfold pairs. rewrite split_slice_combine by lia.
    reflexivity. }
  destruct (_ =? n_values).
  { cbn [bind]. rewrite slice_app_inside by lia.
    unfold pairs. rewrite split_slice_combine by lia. reflexivity. }
  destruct (_ =? n_values); [|reflexivity].
  cbn [bind]. rewrite slice_app_inside by lia.
  unfold pairs. rewrite split_slice_combine by lia. reflexivity.
Qed.

(** X16.  Apart from the reads past the end, [first_brillouin_zone] keeps
    to the tie-break policy: for a zone edge above zero, whenever it
    returns a selection, that is the selection of the policy on the pairs
    in ascending order (the interior if that makes [n_values], else the
    interior with the lower edge, else the interior with the upper edge),
    and whenever it raises [RuntimeError], the policy finds no selection
    either. *)
Theorem first_brillouin_zone_follows_policy (V : Type) (ev : list Q)
    (vecs : list V) (n_values : Z) (edge : Q) (evs : list Q)
    (svecs : list V) :
  take ev (Np.argsort ev) = Ret evs ->
  take vecs (Np.argsort ev) = Ret svecs ->
  (0 < edge)%Q ->
  (forall r, first_brillouin_zone ev vecs n_values edge = Ret r ->
             zone_policy evs svecs n_values edge = Ret r) /\
  (first_brillouin_zone ev vecs n_values edge = Exc RuntimeError ->
   zone_policy evs svecs n_values edge = Exc RuntimeError).
Proof.
  intros Hev Hvecs Hedge.
  destruct (argsort_spec ev) as [evs' [Htake [Hsorted _]]].
  rewrite Hev in Htake. inversion Htake; subst evs'; clear Htake.
  assert (Hlen : length evs = length svecs).
  { pose proof (Forall2_length (mapM_ret_inv _ _ _ _ _ Hev)).
    pose proof (Forall2_length (mapM_ret_inv _ _ _ _ _ Hvecs)). lia. }
  unfold first_brillouin_zone. rewrite Hev, Hvecs. cbn [bind]. split.
  - intros r Hret.
    apply bind_ret_inv in Hret. destruct Hret as [nl [Hnl Hret]].
    apply bind_ret_inv in Hret. destruct Hret as [nu [Hnu Hret]].
    rewrite (zone_policy_sorted V evs svecs n_values edge nl nu)
      by assumption.
    exact Hret.
  - intros Hraise.
    destruct (snd (lower_edge_loop (edge_fuel evs) evs edge
                     (Np.searchsorted_left evs (- edge)) 0))
      as [nl|e|] eqn:Hnl; cbn [bind] in Hraise; [| |discriminate].
    2:{ apply (proj1 (edge_loop_raises evs edge _ e _ 0)) in Hnl.
        subst e. discriminate. }
    destruct (snd (upper_edge_loop (edge_fuel evs) evs edge
                     (Np.searchsorted_right evs edge) 0))
      as [nu|e|] eqn:Hnu; cbn [bind] in Hraise; [| |discriminate].
    2:{ apply (proj2 (edge_loop_raises evs edge _ e _ 0)) in Hnu.
        subst e. discriminate. }
    rewrite (zone_policy_sorted V evs svecs n_values edge nl nu)
      by assumption.
    exact Hraise.
Qed.

Lemma first_brillouin_zone_follows_policy_witness :
  take [1; -1; 0]%Q (Np.argsort [1; -1; 0]%Q) = Ret [-1; 0; 1]%Q /\
  first_brillouin_zone [1; -1; 0]%Q [7; 8; 9] 2 1%Q
  = Ret ([-1; 0]%Q, [8; 9]) /\
  zone_policy [-1; 0; 1]%Q [8; 9; 7] 2 1%Q = Ret ([-1; 0]%Q, [8; 9]).
Proof.
  split; [reflexivity|]. split; [reflexivity|].
  apply (proj1 (first_brillouin_zone_follows_policy Z [1; -1; 0]%Q
                  [7; 8; 9] 2 1%Q [-1; 0; 1]%Q [8; 9; 7]
                  eq_refl eq_refl eq_refl)).
  reflexivity.
Defined.

(** ** Storage from [np.empty] *)

Lemma tab3_ext (A : Type) (d0 d1 d2 : Z) (f g : Z -> Z -> Z -> A) :
  (forall n i j, 0 <= n < d0 -> 0 <= i < d1 -> 0 <= j < d2 ->
                 f n i j = g n i j) ->
  tab3 d0 d1 d2 f = tab3 d0 d1 d2 g.
Proof.
  intros Hfg. unfold tab3. apply map_ext_range. intros n Hn.
  apply map_ext_range. intros i Hi. apply map_ext_range. intros j Hj.
  apply Hfg; assumption.
Qed.

Lemma has_shape3_tab3 (A : Type) (d0 d1 d2 : Z) (f : Z -> Z -> Z -> A) :
  0 <= d0 -> 0 <= d1 -> 0 <= d2 -> has_shape3 d0 d1 d2 (tab3 d0 d1 d2 f).
Proof.
  intros H0 H1 H2. unfold has_shape3, tab3.
  split; [rewrite len_map, len_range; lia|].
  rewrite Forall_map, Forall_forall. intros n _.
  split; [rewrite len_map, len_range; lia|].
  rewrite Forall_map, Forall_forall. intros i _.
  rewrite len_map, len_range; lia.
Qed.

(** X17.  [integral_factors] leaves nothing of what [np.empty] hands out:
    for a bundle of at least one zone with as many quasienergies as its
    dimension, of which no divisor [energy[i] + frequency delta - energy[j]]
    is zero, it returns the tensor of shape
    [(2 n_zones - 1, dimension, dimension)] of the values it computes,
    the same whatever the storage held before. *)
Theorem integral_factors_overwrites_storage (garbage garbage' : C)
    (b : Eigensystem) (t : R) :
  1 <= shape1 (k_eigenvectors b) ->
  len (quasienergies b) = shape2 (k_eigenvectors b) ->
  divisors_nonzero b (shape1 (k_eigenvectors b)) ->
  exists out,
    integral_factors garbage b t = Ret out /\
    integral_factors garbage' b t = Ret out /\
    has_shape3 (2 * shape1 (k_eigenvectors b) - 1)
      (shape2 (k_eigenvectors b)) (shape2 (k_eigenvectors b)) out.
Proof.
  intros Hnz Hd Hdiv.
  set (nz := shape1 (k_eigenvectors b)) in *.
  set (d := shape2 (k_eigenvectors b)) in *.
  assert (Hdim : 0 <= d) by (rewrite <- Hd; apply len_nonneg).
  assert (Hform : forall x,
            integral_factors x b t
            = Ret (tab3 (2 * nz - 1) d d (written_kernel b t nz))).
  { intros x.
    destruct (integral_factors_written x b t Hnz Hd Hdiv)
      as [out [Hrun [f [-> Hf]]]].
    rewrite Hrun. f_equal. apply tab3_ext. intros n i j Hn Hi Hj.
    apply Hf; try assumption. exact I. }
  exists (tab3 (2 * nz - 1) d d (written_kernel b t nz)).
  split; [apply Hform|]. split; [apply Hform|].
  apply has_shape3_tab3; lia.
Qed.

Lemma integral_factors_overwrites_storage_witness :
  exists out,
    integral_factors C0 two_state_bundle 1 = Ret out /\
    integral_factors C1 two_state_bundle 1 = Ret out /\
    has_shape3 5 2 2 out.
Proof.
  apply (integral_factors_overwrites_storage C0 C1 two_state_bundle 1);
    [cbn; lia|reflexivity|apply divisors_checked_nonzero; reflexivity].
Defined.

(** ** Arrays with four axes *)

Lemma full4_tab4 (A : Type) (x : A) (d0 d1 d2 d3 : Z) :
  0 <= d0 -> 0 <= d1 -> 0 <= d2 -> 0 <= d3 ->
  full4 x d0 d1 d2 d3 = Ret (tab4 d0 d1 d2 d3 (fun _ _ _ _ => x)).
Proof.
  intros H0 H1 H2 H3. unfold full4.
  destruct (Z.ltb_spec d0 0); [lia|].
  rewrite full3_tab3 by assumption. cbn [bind]. f_equal.
  unfold tab4. apply repeat_as_map.
Qed.

Lemma setitem4_tab4 (A : Type) (d0 d1 d2 d3 : Z)
    (f : Z -> Z -> Z -> Z -> A) (n i j p : Z) (v : A) :
  0 <= n < d0 -> 0 <= i < d1 -> 0 <= j < d2 -> 0 <= p < d3 ->
  setitem4 (tab4 d0 d1 d2 d3 f) n i j p v
  = Ret (tab4 d0 d1 d2 d3
           (fun n' i' j' p' =>
              if (n' =? n) && (i' =? i) && (j' =? j) && (p' =? p) then v
              else f n' i' j' p')).
Proof.
  intros Hn Hi Hj Hp. unfold setitem4, tab4.
  rewrite getitem_map_range by exact Hn. cbn [bind].
  rewrite setitem3_tab3 by assumption. cbn [bind].
  rewrite setitem_map_range by exact Hn. f_equal.
  apply map_ext_range. intros n' Hn'.
  destruct (Z.eqb_spec n' n) as [->|Hne]; cbn [andb]; [reflexivity|].
  apply tab3_ext. intros. reflexivity.
Qed.

Lemma getitem4_tab4 (A : Type) (d0 d1 d2 d3 : Z)
    (f : Z -> Z -> Z -> Z -> A) (n i j p : Z) :
  0 <= n < d0 -> 0 <= i < d1 -> 0 <= j < d2 -> 0 <= p < d3 ->
  getitem4 (tab4 d0 d1 d2 d3 f) n i j p = Ret (f n i j p).
Proof.
  intros Hn Hi Hj Hp. unfold getitem4, tab4.
  rewrite getitem_map_range by exact Hn. cbn [bind].
  apply getitem3_tab3; assumption.
Qed.

Lemma tab4_ext (A : Type) (d0 d1 d2 d3 : Z) (f g : Z -> Z -> Z -> Z -> A) :
  (forall n i j p, 0 <= n < d0 -> 0 <= i < d1 -> 0 <= j < d2 ->
                   0 <= p < d3 -> f n i j p = g n i j p) ->
  tab4 d0 d1 d2 d3 f = tab4 d0 d1 d2 d3 g.
Proof.
  intros Hfg. unfold tab4. apply map_ext_range. intros n Hn.
  apply tab3_ext. intros i j p Hi Hj Hp. apply Hfg; assumption.
Qed.

(** ** Lengths of flattened vectors *)

Lemma len_ravel (A : Type) (w : Z) (m : list (list A)) :
  Forall (fun r => len r = w) m -> len (ravel m) = len m * w.
Proof.
  unfold ravel. induction m as [|r m IH]; intros H; [reflexivity|].
  cbn [concat]. rewrite len_app, len_cons.
  rewrite (Forall_inv H), (IH (Forall_inv_tail H)). lia.
Qed.

Lemma len_rolled_bra (v : list (list C)) (nz dim diff : Z) :
  len v = nz -> Forall (fun blk => len blk = dim) v ->
  len (ravel (conj2 (roll v diff))) = nz * dim.
Proof.
  intros Hv Hblocks.
  rewrite (len_ravel _ dim).
  - unfold len. rewrite length_conj2, length_roll. exact (f_equal (fun x => x * dim) Hv).
  - unfold conj2. rewrite Forall_map.
    eapply Forall_impl; [|apply Forall_roll; exact Hblocks].
    cbv beta. intros blk Hblk. unfold conj1. rewrite len_map. exact Hblk.
Qed.

Lemma vecmat_ret (v : list C) (m : list (list C)) (n : Z) :
  1 <= n -> len v = n -> square n m ->
  exists left,
    vecmat v m = Ret left /\ len left = n /\
    left = fold_left vadd (zip_with vscale v m)
                     (repeat C0 (Z.to_nat (shape1 m))).
Proof.
  intros Hn Hv [Hlen Hall]. unfold vecmat, shape0.
  rewrite Hv, Hlen, Z.eqb_refl. eexists. split; [reflexivity|].
  split; [|reflexivity].
  assert (Hshape : shape1 m = n).
  { unfold shape1. destruct m as [|r m]; [rewrite len_nil in Hlen; lia|].
    cbn [hd]. exact (Forall_inv Hall). }
  rewrite Hshape. unfold len.
  rewrite fold_left_vadd_length; rewrite repeat_length; [lia|].
  rewrite Forall_forall. intros r Hr.
  apply in_zip_with in Hr. destruct Hr as [x [r0 [_ [Hr0 ->]]]].
  unfold vscale. rewrite length_map.
  rewrite Forall_forall in Hall. specialize (Hall r0 Hr0).
  unfold len in Hall. lia.
Qed.

(** ** The combined factors *)

Lemma integral_factors_tab3 (x : C) (b : Eigensystem) (t : R) (dim nz : Z) :
  1 <= dim -> 1 <= nz -> well_formed b dim nz -> divisors_nonzero b nz ->
  integral_factors x b t
  = Ret (tab3 (2 * nz - 1) dim dim (written_kernel b t nz)).
Proof.
  intros Hdim Hnz [Hvals [Hkv _]] Hdiv.
  pose proof (has_shape3_shape1 _ _ _ _ _ Hkv Hdim) as H1.
  pose proof (has_shape3_shape2 _ _ _ _ _ Hkv Hdim Hnz) as H2.
  destruct (integral_factors_written x b t) as [out [Hrun [f [-> Hf]]]];
    [lia|lia|rewrite H1; exact Hdiv|].
  rewrite Hrun, H1, H2 in *. f_equal. apply tab3_ext.
  intros n i j Hn Hi Hj. apply Hf; try assumption. exact I.
Qed.

Lemma foldM_map (A B S : Type) (body : S -> B -> result S) (g : A -> B)
    (l : list A) (s : S) :
  foldM body (map g l) s = foldM (fun s x => body s (g x)) l s.
Proof.
  revert s. induction l as [|x l IH]; intros s; [reflexivity|].
  cbn [map foldM]. destruct (body s (g x)); cbn [bind]; auto.
Qed.

Lemma combine_map_map (A B D : Type) (f : A -> B) (g : A -> D) (l : list A) :
  combine (map f l) (map g l) = map (fun x => (f x, g x)) l.
Proof.
  induction l as [|x l IH]; [reflexivity|]. cbn [map combine].
  rewrite IH. reflexivity.
Qed.

(** [enumerate(range(1 - n_zones, n_zones))] *)
Lemma enumerate_differences (nz : Z) :
  1 <= nz ->
  combine (range 0 (2 * nz - 1)) (range (1 - nz) nz)
  = map (fun k => (k, k + 1 - nz)) (range 0 (2 * nz - 1)).
Proof.
  intros Hnz. unfold range.
  replace (Z.to_nat (nz - (1 - nz))) with (Z.to_nat (2 * nz - 1 - 0)) by lia.
  rewrite combine_map_map, map_map. apply map_ext. intros k.
  f_equal. lia.
Qed.

Lemma combined_written_weaken (b : Eigensystem) (dk : list (list (list C)))
    (t : R) (nz d0 d np : Z) (W W' : Z -> Z -> Z -> Z -> Prop)
    (out : list (list (list (list C)))) :
  (forall n i j p, 0 <= n < d0 -> 0 <= i < d -> 0 <= j < d -> 0 <= p < np ->
                   W' n i j p -> W n i j p) ->
  combined_written b dk t nz d0 d np W out ->
  combined_written b dk t nz d0 d np W' out.
Proof.
  intros Hsub [f [Hout Hf]]. exists f. split; [exact Hout|].
  intros n i j p Hn Hi Hj Hp HW. apply Hf; auto.
Qed.

Lemma combined_entry (b : Eigensystem) (dk : list (list (list C)))
    (t : R) (nz d0 d np : Z) (W W' : Z -> Z -> Z -> Z -> Prop)
    (out : list (list (list (list C)))) (n i j p : Z) (v : C) :
  combined_written b dk t nz d0 d np W out ->
  0 <= n < d0 -> 0 <= i < d -> 0 <= j < d -> 0 <= p < np ->
  v = combined_factor b dk t nz n i j p ->
  (forall n' i' j' p',
     0 <= n' < d0 -> 0 <= i' < d -> 0 <= j' < d -> 0 <= p' < np ->
     W' n' i' j' p' ->
     W n' i' j' p' \/ (n' = n /\ i' = i /\ j' = j /\ p' = p)) ->
  exists out',
    setitem4 out n i j p v = Ret out' /\
    combined_written b dk t nz d0 d np W' out'.
Proof.
  intros [f [-> Hf]] Hn Hi Hj Hp Hv Hsub.
  rewrite setitem4_tab4 by assumption. eexists. split; [reflexivity|].
  eexists. split; [reflexivity|].
  intros n' i' j' p' Hn' Hi' Hj' Hp' HW. cbv beta.
  destruct (Z.eqb_spec n' n) as [->|Hne1];
    destruct (Z.eqb_spec i' i) as [->|Hne2];
    destruct (Z.eqb_spec j' j) as [->|Hne3];
    destruct (Z.eqb_spec p' p) as [->|Hne4]; cbn [andb]; try exact Hv;
    (destruct (Hsub _ _ _ _ Hn' Hi' Hj' Hp' HW) as [HW0|[? [? [? ?]]]];
     [apply Hf; assumption|congruence]).
Qed.

Section CombinedFactors.

Variable uninit : C.
Variable b : Eigensystem.
Variable t : R.
Variables dim nz : Z.
Variable dk : list (list (list C)).

Hypothesis Hdim : 1 <= dim.
Hypothesis Hnz : 1 <= nz.
Hypothesis Hb : well_formed b dim nz.
Hypothesis Hdk : k_derivatives b = Some dk.
Hypothesis Hsq : Forall (square (dim * nz)) dk.
Hypothesis Hdiv : divisors_nonzero b nz.

#[local] Abbreviation np := (len dk).
#[local] Abbreviation d0 := (2 * nz - 1).
#[local] Abbreviation written4 := (combined_written b dk t nz d0 dim np).

Lemma eigenvector_blocks (i : Z) :
  0 <= i < dim ->
  getitem (k_eigenvectors b) i
  = Ret (nth (Z.to_nat i) (k_eigenvectors b) []) /\
  len (nth (Z.to_nat i) (k_eigenvectors b) []) = nz /\
  Forall (fun blk => len blk = dim) (nth (Z.to_nat i) (k_eigenvectors b) []).
Proof.
  intros Hi. destruct Hb as [_ [[Hlen Hall] _]].
  split; [apply getitem_nth; lia|].
  rewrite Forall_forall in Hall. apply Hall. apply nth_In.
  unfold len in Hlen. lia.
Qed.

Lemma derivative_matrix (p : Z) :
  0 <= p < np ->
  getitem dk p = Ret (nth (Z.to_nat p) dk []) /\
  square (dim * nz) (nth (Z.to_nat p) dk []).
Proof.
  intros Hp. split; [apply getitem_nth; exact Hp|].
  rewrite Forall_forall in Hsq. apply Hsq. apply nth_In. unfold len in Hp.
  lia.
Qed.

(** One entry: the body of the innermost loop. *)
Lemma parameter_step (W : Z -> Z -> Z -> Z -> Prop)
    (factors : list (list (list (list C)))) (k i j p : Z) :
  0 <= k < d0 -> 0 <= i < dim -> 0 <= j < dim -> 0 <= p < np ->
  written4 W factors ->
  exists factors',
    (m <- match k_derivatives b with
          | Some dk => getitem dk p
          | None => Exc AttributeError
          end ;;
     ket_j <- getitem (k_eigenvectors b) j ;;
     left <- vecmat
               (ravel (conj2 (roll (nth (Z.to_nat i) (k_eigenvectors b) [])
                                   (k + 1 - nz)))) m ;;
     expectation <- dot left (ravel ket_j) ;;
     plane <- getitem (tab3 d0 dim dim (written_kernel b t nz)) k ;;
     line <- getitem plane i ;;
     term <- getitem line j ;;
     setitem4 factors k i j p (Cmult term expectation)) = Ret factors' /\
    written4 (fun n' i' j' p' =>
                W n' i' j' p' \/ (n' = k /\ i' = i /\ j' = j /\ p' = p))
             factors'.
Proof.
  intros Hk Hi Hj Hp Hf. rewrite Hdk.
  destruct (derivative_matrix p Hp) as [-> Hm]. cbn [bind].
  destruct (eigenvector_blocks i Hi) as [_ [Hvi Hbi]].
  destruct (eigenvector_blocks j Hj) as [-> [Hvj Hbj]]. cbn [bind].
  destruct (vecmat_ret
              (ravel (conj2 (roll (nth (Z.to_nat i) (k_eigenvectors b) [])
                                  (k + 1 - nz))))
              (nth (Z.to_nat p) dk []) (dim * nz))
    as [left [Hvm [Hleft Hform]]];
    [nia|rewrite (len_rolled_bra _ nz dim) by assumption; lia|exact Hm|].
  rewrite Hvm. cbn [bind]. unfold dot.
  rewrite Hleft, (len_ravel _ dim) by exact Hbj. rewrite Hvj.
  replace (dim * nz =? nz * dim) with true by (symmetry; apply Z.eqb_eq; lia).
  cbn [bind]. unfold tab3.
  rewrite getitem_map_range by exact Hk. cbn [bind].
  rewrite getitem_map_range by exact Hi. cbn [bind].
  rewrite getitem_map_range by exact Hj. cbn [bind].
  apply (combined_entry _ _ _ _ _ _ _ _ _ _ _ _ _ _ _ Hf); try assumption.
  - unfold combined_factor, expectation. rewrite Hform. reflexivity.
  - intros n' i' j' p' _ _ _ _ H. exact H.
Qed.

(** The factors that [combined_factors] returns, entry by entry. *)
Lemma combined_factors_tab4 :
  combined_factors uninit b t
  = Ret (tab4 d0 dim dim np (combined_factor b dk t nz)).
Proof.
  pose proof Hb as [Hvals [Hkv _]].
  pose proof (has_shape3_shape1 _ _ _ _ _ Hkv Hdim) as Hs1.
  pose proof (has_shape3_shape2 _ _ _ _ _ Hkv Hdim Hnz) as Hs2.
  pose proof (len_nonneg _ dk) as Hnp.
  unfold combined_factors, n_parameters_of. rewrite Hdk. cbn [bind].
  cbv zeta. rewrite Hs1, Hs2. unfold shape0.
  rewrite full4_tab4 by lia. cbn [bind].
  rewrite zeros2_tab by lia. cbn [bind].
  rewrite (integral_factors_tab3 uninit b t dim nz) by assumption.
  cbn [bind]. rewrite enumerate_differences, foldM_map by lia.
  match goal with
  | |- context [foldM ?body (range 0 ?hi) ?s0] =>
      destruct (foldM_range _ body
                  (fun k s =>
                     written4 (fun n _ _ _ => n < k) (fst s) /\
                     len (snd s) = nz /\
                     Forall (fun r => len r = dim) (snd s)) 0 hi)
        with (s := s0) as [[factors rolled] [Hrun [Hw [Hlen Hwid]]]]
  end.
  - lia.
  - (* one zone difference *)
    intros k [factors rolled] Hk [Hw [Hlen Hwid]].
    cbn [fst snd] in Hw, Hlen, Hwid. cbv beta iota.
    match goal with
    | |- context [foldM ?body (range 0 ?hi) ?s0] =>
        destruct (foldM_range _ body
                    (fun i0 s =>
                       written4 (fun n i _ _ => n < k \/ (n = k /\ i < i0))
                                (fst s) /\
                       len (snd s) = nz /\
                       Forall (fun r => len r = dim) (snd s)) 0 hi)
          with (s := s0) as [[factors' rolled'] [Hrun [Hw' [Hlen' Hwid']]]]
    end.
    + lia.
    + (* one eigenvector, rotated *)
      intros i [f r] Hi [Hw1 [Hl1 Hr1]]. cbn [fst snd] in Hw1, Hl1, Hr1.
      cbv beta iota.
      destruct (eigenvector_blocks i Hi) as [Hget [Hvi Hbi]].
      rewrite Hget. cbn [bind].
      rewrite (conjugate_rotate_into_within_length r _ _ dim)
        by (first [assumption|lia]).
      cbn [bind].
      match goal with
      | |- context [foldM ?body (range 0 ?hi) ?s0] =>
          destruct (foldM_range _ body
                      (fun j0 s =>
                         written4
                           (fun n i' j' _ =>
                              (n < k \/ (n = k /\ i' < i)) \/
                              (n = k /\ i' = i /\ j' < j0)) s) 0 hi)
            with (s := s0)
            as [f' [Hrun Hw']]
      end.
      * lia.
      * (* one pair of eigenvectors *)
        intros j f2 Hj Hw2. cbv beta.
        match goal with
        | |- context [foldM ?body (range 0 ?hi) ?s0] =>
            destruct (foldM_range _ body
                        (fun p0 s =>
                           written4
                             (fun n i' j' p' =>
                                ((n < k \/ (n = k /\ i' < i)) \/
                                 (n = k /\ i' = i /\ j' < j)) \/
                                (n = k /\ i' = i /\ j' = j /\ p' < p0)) s)
                        0 hi) with (s := s0)
              as [f3 [Hrun Hw3]]
        end.
        -- exact Hnp.
        -- intros p f3 Hp Hw3.
           destruct (parameter_step _ f3 k i j p Hk Hi Hj Hp Hw3)
             as [f4 [Hrun Hw4]].
           rewrite Hdk in Hrun. exists f4. split; [exact Hrun|].
           revert Hw4. apply combined_written_weaken.
           intros n' i' j' p' R1 R2 R3 R4. cbv beta. lia.
        -- revert Hw2. apply combined_written_weaken.
           intros n' i' j' p' R1 R2 R3 R4. cbv beta. lia.
        -- exists f3. split; [exact Hrun|]. revert Hw3.
           apply combined_written_weaken.
           intros n' i' j' p' R1 R2 R3 R4. cbv beta. lia.
      * revert Hw1. apply combined_written_weaken.
        intros n' i' j' p' R1 R2 R3 R4. cbv beta. lia.
      * rewrite Hrun. cbn [bind]. eexists. split; [reflexivity|].
        cbn [fst snd]. split; [|split].
        -- revert Hw'. apply combined_written_weaken.
           intros n' i' j' p' R1 R2 R3 R4. cbv beta. lia.
        -- unfold len. rewrite length_conj2, length_roll. exact Hvi.
        -- apply Forall_conj2, Forall_roll. exact Hbi.
    + cbn [fst snd]. split; [|split; [exact Hlen|exact Hwid]].
      revert Hw. apply combined_written_weaken.
      intros n' i' j' p' R1 R2 R3 R4. cbv beta. lia.
    + exists (factors', rolled'). split; [exact Hrun|].
      cbn [fst snd] in *. split; [|split; [exact Hlen'|exact Hwid']].
      revert Hw'. apply combined_written_weaken.
      intros n' i' j' p' R1 R2 R3 R4. cbv beta. lia.
  - cbn [fst snd]. split; [|split].
    + exists (fun _ _ _ _ => uninit). split; [reflexivity|].
      intros. lia.
    + apply len_tab. lia.
    + unfold tab. rewrite Forall_map, Forall_forall. intros x _.
      rewrite len_map, len_range; lia.
  - rewrite Hrun. cbn [bind]. cbn [fst snd] in Hw.
    destruct Hw as [f [-> Hf]]. f_equal. apply tab4_ext.
    intros n i j p Hn Hi Hj Hp. apply Hf; try assumption. lia.
Qed.

End CombinedFactors.

(** ** The derivatives with respect to the controls *)

Lemma accumulate_tab3 (np d : Z) (f : Z -> Z -> Z -> C) (g : Z -> C)
    (h : Z -> Z -> C) :
  accumulate (tab3 np d d f) (map g (range 0 np)) (tab d d h)
  = tab3 np d d (fun p a c => Cplus (f p a c) (Cmult (g p) (h a c))).
Proof.
  unfold accumulate, tab3. rewrite zip_with_map_map.
  apply map_ext. intros p. rewrite tab_scale.
  exact (tab_add d d (f p) (fun a c => Cmult (g p) (h a c))).
Qed.

(** A loop whose body adds to every entry of an array with three axes. *)
Lemma foldM_tab3 (X : Type) (d0 d1 d2 : Z) (l : list X)
    (body : list (list (list C)) -> X -> result (list (list (list C))))
    (step : X -> Z -> Z -> Z -> C -> C) :
  (forall f x, In x l ->
     body (tab3 d0 d1 d2 f) x
     = Ret (tab3 d0 d1 d2 (fun p a c => step x p a c (f p a c)))) ->
  forall f,
    foldM body l (tab3 d0 d1 d2 f)
    = Ret (tab3 d0 d1 d2
             (fun p a c =>
                fold_left (fun acc x => step x p a c acc) l (f p a c))).
Proof.
  induction l as [|x l IH]; intros Hbody f; [reflexivity|].
  cbn [foldM]. rewrite Hbody by (left; reflexivity). cbn [bind].
  rewrite IH by (intros g y Hy; apply Hbody; right; exact Hy).
  reflexivity.
Qed.

Lemma has_shape3_as_tab3 (A : Type) (d : A) (d0 d1 d2 : Z)
    (t : list (list (list A))) :
  has_shape3 d0 d1 d2 t ->
  t = tab3 d0 d1 d2
        (fun n i j =>
           nth (Z.to_nat j) (nth (Z.to_nat i) (nth (Z.to_nat n) t []) []) d).
Proof.
  intros [Hlen Hall]. unfold tab3.
  rewrite (vector_as_map _ [] d0 t Hlen) at 1.
  apply map_ext_range. intros n Hn.
  assert (Hin : In (nth (Z.to_nat n) t []) t)
    by (apply nth_In; unfold len in Hlen; lia).
  rewrite Forall_forall in Hall. destruct (Hall _ Hin) as [Hv Hblocks].
  rewrite (vector_as_map _ [] d1 _ Hv) at 1.
  apply map_ext_range. intros i Hi.
  assert (Hin' : In (nth (Z.to_nat i) (nth (Z.to_nat n) t []) [])
                    (nth (Z.to_nat n) t []))
    by (apply nth_In; unfold len in Hv; lia).
  rewrite Forall_forall in Hblocks.
  apply (vector_as_map _ d d2). apply Hblocks. exact Hin'.
Qed.

Lemma conj3_tab3 (d0 d1 d2 : Z) (f : Z -> Z -> Z -> C) :
  conj3 (tab3 d0 d1 d2 f) = tab3 d0 d1 d2 (fun n i j => Cconj (f n i j)).
Proof.
  unfold conj3, conj2, conj1, tab3. rewrite map_map.
  apply map_ext. intros n. rewrite map_map.
  apply map_ext. intros i. rewrite map_map. reflexivity.
Qed.

Lemma eigenbras_tab3 (b : Eigensystem) (dim nz : Z) :
  well_formed b dim nz ->
  conj3 (k_eigenvectors b)
  = tab3 dim nz dim (fun j z c => Cconj (block_entry b j z c)).
Proof.
  intros [_ [Hkv _]].
  rewrite (has_shape3_as_tab3 _ C0 _ _ _ _ Hkv) at 1.
  apply conj3_tab3.
Qed.

Section ControlDerivatives.

Variable b : Eigensystem.
Variable t : R.
Variables dim nz : Z.
Variable dk : list (list (list C)).

Hypothesis Hdim : 1 <= dim.
Hypothesis Hnz : 1 <= nz.
Hypothesis Hb : well_formed b dim nz.
Hypothesis Hdk : k_derivatives b = Some dk.
Hypothesis Hsq : Forall (square (dim * nz)) dk.
Hypothesis Hdiv : divisors_nonzero b nz.

(** The array that [du_dcontrols] returns, entry by entry. *)
Lemma du_dcontrols_tab3 (uninit : C) :
  du_dcontrols uninit b t
  = Ret (tab3 (len dk) dim dim (du_dcontrols_entry b dk t)).
Proof.
  pose proof Hb as [Hvals [Hkv _]].
  pose proof (has_shape3_shape1 _ _ _ _ _ Hkv Hdim) as Hs1.
  pose proof (has_shape3_shape2 _ _ _ _ _ Hkv Hdim Hnz) as Hs2.
  pose proof (len_nonneg _ dk) as Hnp.
  unfold du_dcontrols, du_dcontrols_entry, n_parameters_of.
  rewrite Hdk. cbn [bind]. cbv zeta. rewrite Hs1, Hs2. unfold shape0.
  rewrite full3_tab3 by lia. cbn [bind].
  destruct (Z.eqb_spec (len dk) 0) as [Hzero|Hsome].
  { f_equal. apply tab3_ext. intros p a c Hp. lia. }
  rewrite (combined_factors_tab4 uninit b t dim nz dk) by assumption.
  cbn [bind].
  rewrite (current_floquet_kets_tab b dim nz t) by assumption.
  cbn [bind]. rewrite (eigenbras_tab3 b dim nz Hb).
  apply foldM_tab3 with
    (step := fun i p a c acc =>
       fold_left (fun acc j =>
         fold_left (fun acc zone_i =>
           fold_left (fun acc diff_i =>
               Cplus acc
                 (Cmult (combined_factor b dk t nz diff_i i j p)
                        (Cmult (ket_entry b t i a)
                               (Cconj (block_entry b j zone_i c)))))
             (range zone_i (zone_i + nz)) acc)
           (rev (range 0 nz)) acc)
         (range 0 dim) acc).
  intros f1 i Hi. apply in_range in Hi.
  apply foldM_tab3 with
    (step := fun j p a c acc =>
       fold_left (fun acc zone_i =>
         fold_left (fun acc diff_i =>
             Cplus acc
               (Cmult (combined_factor b dk t nz diff_i i j p)
                      (Cmult (ket_entry b t i a)
                             (Cconj (block_entry b j zone_i c)))))
           (range zone_i (zone_i + nz)) acc)
         (rev (range 0 nz)) acc).
  intros f2 j Hj. apply in_range in Hj.
  apply foldM_tab3 with
    (step := fun zone_i p a c acc =>
       fold_left (fun acc diff_i =>
           Cplus acc
             (Cmult (combined_factor b dk t nz diff_i i j p)
                    (Cmult (ket_entry b t i a)
                           (Cconj (block_entry b j zone_i c)))))
         (range zone_i (zone_i + nz)) acc).
  intros f3 zone_i Hzone. apply in_rev, in_range in Hzone.
  rewrite getitem_tab by exact Hi. cbn [bind]. unfold tab3 at 1.
  rewrite getitem_map_range by exact Hj. cbn [bind].
  rewrite getitem_map_range by exact Hzone. cbn [bind].
  rewrite outer_tab.
  apply foldM_tab3 with
    (step := fun diff_i p a c acc =>
       Cplus acc
         (Cmult (combined_factor b dk t nz diff_i i j p)
                (Cmult (ket_entry b t i a)
                       (Cconj (block_entry b j zone_i c))))).
  intros f4 diff_i Hdiff. apply in_range in Hdiff.
  unfold tab4, tab3 at 1.
  rewrite getitem_map_range by lia. cbn [bind].
  rewrite getitem_map_range by exact Hi. cbn [bind].
  rewrite getitem_map_range by exact Hj. cbn [bind].
  rewrite accumulate_tab3. reflexivity.
Qed.

End ControlDerivatives.

Lemma controlled_bundle_well_formed : well_formed controlled_bundle 2 3.
Proof. exact three_zone_bundle_well_formed. Qed.

(** X18.  For a bundle of [dim] states in [nz] zones built with the
    derivative matrices [dk], each square of side [dim * nz], and of which
    no divisor [energy[i] + frequency delta - energy[j]] is zero,
    [combined_factors] returns an array of which the entry
    [(n, i, j, p)], for [n] below [2 nz - 1], [i] and [j] below [dim] and
    [p] below the number of parameters, is the integral kernel
    [e(i, j; delta)] for the zone difference [delta = n - (nz - 1)] times
    the expectation value of [dk[p]] between eigenvector [i] rotated by
    [delta] and conjugated, and eigenvector [j].  Nothing of what [np.empty]
    hands out and nothing of the rotated eigenvector of an earlier turn of
    the loops is left in it. *)
Theorem combined_factors_entries (b : Eigensystem) (t : R) (dim nz : Z)
    (dk : list (list (list C))) :
  1 <= dim -> 1 <= nz -> well_formed b dim nz ->
  k_derivatives b = Some dk -> Forall (square (dim * nz)) dk ->
  divisors_nonzero b nz ->
  exists out,
    (forall garbage, combined_factors garbage b t = Ret out) /\
    forall n i j p,
      0 <= n < 2 * nz - 1 -> 0 <= i < dim -> 0 <= j < dim ->
      0 <= p < len dk ->
      getitem4 out n i j p
      = Ret (Cmult (integral_kernel b t (n - (nz - 1)) i j)
                   (expectation b dk (n - (nz - 1)) i j p)).
Proof.
  intros Hdim Hnz Hb Hdk Hsq Hdiv.
  exists (tab4 (2 * nz - 1) dim dim (len dk) (combined_factor b dk t nz)).
  split.
  - intros garbage. apply combined_factors_tab4; assumption.
  - intros n i j p Hn Hi Hj Hp.
    rewrite getitem4_tab4 by assumption. f_equal. unfold combined_factor.
    rewrite <- written_kernel_integral_kernel with (nz := nz).
    replace (n - (nz - 1) + nz - 1) with n by lia.
    replace (n + 1 - nz) with (n - (nz - 1)) by lia. reflexivity.
Qed.

Lemma combined_factors_entries_witness :
  exists out,
    (forall garbage, combined_factors garbage controlled_bundle 1 = Ret out) /\
    forall n i j p,
      0 <= n < 2 * 3 - 1 -> 0 <= i < 2 -> 0 <= j < 2 ->
      0 <= p < 2 ->
      getitem4 out n i j p
      = Ret (Cmult (integral_kernel controlled_bundle 1 (n - (3 - 1)) i j)
                   (expectation controlled_bundle
                      controlled_derivatives
                      (n - (3 - 1)) i j p)).
Proof.
  apply (combined_factors_entries controlled_bundle 1 2 3
           controlled_derivatives);
    [lia|lia|exact controlled_bundle_well_formed|reflexivity|
     repeat constructor|apply divisors_checked_nonzero; reflexivity].
Defined.

(** X19.  For a bundle of [dim] states in [nz] zones built with the
    derivative matrices [dk], each square of side [dim * nz], and of which
    no divisor [energy[i] + frequency delta - energy[j]] is zero,
    [du_dcontrols] returns an array of shape
    [(n_parameters, dim, dim)], the same whatever [np.empty] hands out to
    [combined_factors] and [integral_factors], and no index it reads is out
    of range.  Its entry [(p, a, c)] is the sum, over the eigenvectors [i]
    and [j], the zones [zone_i] and the places [diff_i] from [zone_i] to
    [zone_i + nz - 1], of the combined factor at [(diff_i, i, j, p)] times
    entry [a] of the Floquet ket [i] at this time times the conjugate of
    entry [c] of block [zone_i] of eigenvector [j]. *)
Theorem du_dcontrols_entries (b : Eigensystem) (t : R) (dim nz : Z)
    (dk : list (list (list C))) :
  1 <= dim -> 1 <= nz -> well_formed b dim nz ->
  k_derivatives b = Some dk -> Forall (square (dim * nz)) dk ->
  divisors_nonzero b nz ->
  exists out,
    (forall garbage, du_dcontrols garbage b t = Ret out) /\
    has_shape3 (len dk) dim dim out /\
    forall p a c,
      0 <= p < len dk -> 0 <= a < dim -> 0 <= c < dim ->
      getitem3 out p a c = Ret (du_dcontrols_entry b dk t p a c).
Proof.
  intros Hdim Hnz Hb Hdk Hsq Hdiv.
  exists (tab3 (len dk) dim dim (du_dcontrols_entry b dk t)).
  split; [|split].
  - intros garbage. apply (du_dcontrols_tab3 b t dim nz dk); assumption.
  - apply has_shape3_tab3; [apply len_nonneg|lia|lia].
  - intros p a c Hp Ha Hc. apply getitem3_tab3; assumption.
Qed.

Lemma du_dcontrols_entries_witness :
  exists out,
    (forall garbage, du_dcontrols garbage controlled_bundle 1 = Ret out) /\
    has_shape3 2 2 2 out /\
    forall p a c,
      0 <= p < 2 -> 0 <= a < 2 -> 0 <= c < 2 ->
      getitem3 out p a c
      = Ret (du_dcontrols_entry controlled_bundle
               controlled_derivatives
               1 p a c).
Proof.
  apply (du_dcontrols_entries controlled_bundle 1 2 3
           controlled_derivatives);
    [lia|lia|exact controlled_bundle_well_formed|reflexivity|
     repeat constructor|apply divisors_checked_nonzero; reflexivity].
Defined.
